(** * fqe.fqe_decorators: building a Hamiltonian representation from an
    operator expression

    A shallow embedding of [src/fqe/fqe_decorators.py]: the factory
    [build_hamiltonian], the spin-breaking transform, the rank splitter, the
    tensor builder, the super-matrix builder, the two structure classifiers
    and the decorators that call the factory, followed by the properties the
    specification states about them and by further properties of the
    module.

    Python ints that are counts, dimensions or array positions are [nat]; the
    two values returned by [largest_operator_index] are [Z], since the
    callers divide them with Python's floor division and [-1] stands for
    "no such index".  Complex coefficients are an abstract type with the few
    operations the code applies to them.  Exceptions are values of [exn] in a
    [result]; text written with [print] is collected in a list. *)

From Stdlib Require Import List ZArith Lia Bool Arith PeanoNat.
From Stdlib Require Import String Ascii Decimal DecimalFacts DecimalString DecimalNat.
Import ListNotations.

Set Implicit Arguments.
Local Open Scope nat_scope.

(* ================================================================== *)
(** ** Exceptions and results *)

Inductive exn : Type :=
| ValueError (args : list string)
| TypeError (args : list string)
| IndexError
| KeyError
| AssertionError.

Inductive result (A : Type) : Type :=
| Ok (a : A)
| Raise (e : exn).
Arguments Ok {A} a.
Arguments Raise {A} e.

Definition rbind {A B} (r : result A) (k : A -> result B) : result B :=
  match r with
  | Ok a => k a
  | Raise e => Raise e
  end.

Declare Scope result_scope.
Delimit Scope result_scope with result.
Notation "x <- r ;; k" := (rbind r (fun x => k))
  (at level 61, r at next level, right associativity) : result_scope.
Notation "' p <- r ;; k" := (rbind r (fun x => match x with p => k end))
  (at level 61, p pattern, r at next level, right associativity) : result_scope.
Local Open Scope result_scope.

(** Python truthiness of an int: [if n:] *)
Definition truthy (n : nat) : bool := negb (n =? 0).

(* ================================================================== *)
(** ** Complex coefficients

    The code adds coefficients, conjugates them, compares them with
    [0. + 0.j] and compares two of them within numpy's tolerance.  The
    operator library drops a coefficient its addition finds below its own
    tolerance.  Nothing else is assumed about them. *)

Class Scalar (C : Type) : Type := {
  zero : C;                       (* 0. + 0.j *)
  add : C -> C -> C;              (* a + b *)
  sub : C -> C -> C;              (* a - b *)
  conj : C -> C;                  (* a.conj() *)
  nonzero : C -> bool;            (* a != 0. + 0.j, also the truth value of a *)
  isclose : C -> C -> bool;       (* abs(a - b) <= atol + rtol * abs(b) *)
  abs_ltb : C -> C -> bool;       (* abs(a) < abs(b) *)
  issmall : C -> bool;            (* abs(a) < EQ_TOLERANCE, the operator library's test *)
  add_zero_l : forall c, add zero c = c
}.

(** Gaussian integers, on which every operation above is exact. *)
Module Gauss.

Definition t : Type := (Z * Z)%type.

Definition norm2 (a : t) : Z := (fst a * fst a + snd a * snd a)%Z.

Definition gadd (a b : t) : t := ((fst a + fst b)%Z, (snd a + snd b)%Z).
Definition gsub (a b : t) : t := ((fst a - fst b)%Z, (snd a - snd b)%Z).
Definition gconj (a : t) : t := (fst a, (- snd a)%Z).
Definition gnonzero (a : t) : bool := negb ((fst a =? 0)%Z && (snd a =? 0)%Z).

(** [abs(a - b) <= 1e-8 + 1e-5 * abs(b)] with both sides squared twice:
    with [n = |a-b|^2] and [m = |b|^2] it reads
    [10^8 sqrt n - 1 <= 10^3 sqrt m]. *)
Definition gisclose (a b : t) : bool :=
  let n := norm2 (gsub a b) in
  let m := norm2 b in
  if (n =? 0)%Z then true
  else
    let k := (10 ^ 16 * n + 1 - 10 ^ 6 * m)%Z in
    if (k <=? 0)%Z then true else (k * k <=? 4 * 10 ^ 16 * n)%Z.

Definition gabs_ltb (a b : t) : bool := (norm2 a <? norm2 b)%Z.

(** [abs(a) < 1e-8] on integers *)
Definition gissmall (a : t) : bool := (norm2 a =? 0)%Z.

End Gauss.

#[export] Instance Gauss_Scalar : Scalar Gauss.t := {
  zero := (0%Z, 0%Z);
  add := Gauss.gadd;
  sub := Gauss.gsub;
  conj := Gauss.gconj;
  nonzero := Gauss.gnonzero;
  isclose := Gauss.gisclose;
  abs_ltb := Gauss.gabs_ltb;
  issmall := Gauss.gissmall;
  add_zero_l := fun c => match c with (re, im) => eq_refl end
}.

(* ================================================================== *)
(** ** Operator expressions (openfermion's FermionOperator)

    A factor is [(orbital index, action)], action [1] (here [true]) for a
    creation operator and [0] for an annihilation operator.  A term is the
    tuple of its factors.  [terms] is a Python dict from terms to
    coefficients: an association list in insertion order with distinct
    keys. *)

Definition factor : Type := (nat * bool)%type.
Definition term : Type := list factor.

Definition factor_eqb (f g : factor) : bool :=
  (fst f =? fst g) && Bool.eqb (snd f) (snd g).

Fixpoint term_eqb (s t : term) : bool :=
  match s, t with
  | [], [] => true
  | f :: s', g :: t' => factor_eqb f g && term_eqb s' t'
  | _, _ => false
  end.

Section Operators.

Context {C : Type} `{Scalar C}.

Definition FermionOperator : Type := list (term * C).

(** [self.terms.get(t, default)] *)
Fixpoint terms_get (ops : FermionOperator) (t : term) (default : C) : C :=
  match ops with
  | [] => default
  | (s, c) :: ops' => if term_eqb s t then c else terms_get ops' t default
  end.

(** [t in self.terms] *)
Definition terms_mem (ops : FermionOperator) (t : term) : bool :=
  existsb (fun e => term_eqb (fst e) t) ops.

(** [self.terms[t] = v]: an existing key keeps its place, a new one goes
    to the end *)
Fixpoint terms_set (ops : FermionOperator) (t : term) (v : C) : FermionOperator :=
  match ops with
  | [] => [(t, v)]
  | (s, c) :: ops' =>
      if term_eqb s t then (s, v) :: ops' else (s, c) :: terms_set ops' t v
  end.

(** [del self.terms[t]] *)
Definition terms_del (ops : FermionOperator) (t : term) : FermionOperator :=
  filter (fun e => negb (term_eqb (fst e) t)) ops.

(** [self += addend] of the operator library: coefficients of equal terms
    are summed, and a sum the library finds negligible is deleted. *)
Definition iadd_term (self : FermionOperator) (e : term * C) : FermionOperator :=
  let v := add (terms_get self (fst e) zero) (snd e) in
  let self' := terms_set self (fst e) v in
  if issmall v then terms_del self' (fst e) else self'.

Definition iadd (self addend : FermionOperator) : FermionOperator :=
  fold_left iadd_term addend self.

(** [ops.many_body_order()]: the longest term among those whose
    coefficient is not negligible; [0] for the empty operator; Python's
    [max] of nothing raises. *)
Definition many_body_order (ops : FermionOperator) : result nat :=
  match ops with
  | [] => Ok 0
  | _ =>
      match filter (fun e => negb (issmall (snd e))) ops with
      | [] => Raise (ValueError ["max() arg is an empty sequence"%string])
      | kept => Ok (fold_right Nat.max 0 (map (fun e => List.length (fst e)) kept))
      end
  end.

End Operators.

Arguments FermionOperator C : clear implicits.

(* ================================================================== *)
(** ** Operator strings

    [transform_to_spin_broken] writes each new term as text, as in
    ["3^ 0 "], and hands it to the operator library, which reads it back:
    [str.split()] cuts the text at white space, and a factor is a decimal
    index followed by [^] for a creation operator. *)

Definition str (n : nat) : string := NilEmpty.string_of_uint (Nat.to_uint n).

Definition is_space (c : ascii) : bool :=
  let n := nat_of_ascii c in
  ((9 <=? n) && (n <=? 13)) || ((28 <=? n) && (n <=? 32)) || (n =? 133) || (n =? 160).

Definition string_is_empty (s : string) : bool :=
  match s with EmptyString => true | _ => false end.

Fixpoint string_forallb (p : ascii -> bool) (s : string) : bool :=
  match s with
  | EmptyString => true
  | String c s' => p c && string_forallb p s'
  end.

Definition is_digit (c : ascii) : bool :=
  let n := nat_of_ascii c in (48 <=? n) && (n <=? 57).

(** [s.split()], [cur] being the token read so far *)
Fixpoint split_from (s : string) (cur : string) : list string :=
  match s with
  | EmptyString => if string_is_empty cur then [] else [cur]
  | String c s' =>
      if is_space c then
        if string_is_empty cur then split_from s' EmptyString
        else cur :: split_from s' EmptyString
      else split_from s' (cur ++ String c EmptyString)
  end.

Definition split (s : string) : list string := split_from s EmptyString.

(** [(s[:-1], s[-1])] of a non-empty string *)
Fixpoint split_last (s : string) : option (string * ascii) :=
  match s with
  | EmptyString => None
  | String c s' =>
      match split_last s' with
      | None => Some (EmptyString, c)
      | Some (p, l) => Some (String c p, l)
      end
  end.

(** [int(s)] on decimal digits *)
Definition int (s : string) : result nat :=
  if string_is_empty s then
    Raise (ValueError ["invalid literal for int() with base 10"%string])
  else
    match NilEmpty.uint_of_string s with
    | Some d => Ok (Nat.of_uint d)
    | None => Raise (ValueError ["invalid literal for int() with base 10"%string])
    end.

Definition parse_factor (tok : string) : result factor :=
  match split_last tok with
  | None => Raise (ValueError ["Invalid factor"%string])
  | Some (pre, c) =>
      if Ascii.eqb c "^"%char then index <- int pre ;; Ok (index, true)
      else index <- int tok ;; Ok (index, false)
  end.

Fixpoint parse_factors (toks : list string) : result term :=
  match toks with
  | [] => Ok []
  | tok :: toks' =>
      f <- parse_factor tok ;;
      t <- parse_factors toks' ;;
      Ok (f :: t)
  end.

Definition parse_string (s : string) : result term := parse_factors (split s).

(** The factor written for [element] at lines 116-125, as a factor: an odd
    (beta) index changes role, an even (alpha) index keeps it. *)
Definition spin_broken_factor (element : factor) : factor :=
  (fst element,
   if truthy (fst element mod 2) then negb (snd element) else snd element).

Section SpinBroken.

Context {C : Type} `{Scalar C}.

(** [FermionOperator(opstr, coefficient)]; fermionic factors do not commute,
    so the library keeps them in the order written. *)
Definition FermionOperator_of_string (opstr : string) (coefficient : C)
  : result (FermionOperator C) :=
  t <- parse_string opstr ;;
  Ok [(t, coefficient)].

(** The text appended for one factor (lines 116-125). *)
Definition opstr_element (element : factor) : string :=
  if truthy (fst element mod 2) then
    if snd element then (str (fst element) ++ " ")%string
    else (str (fst element) ++ "^ ")%string
  else
    if snd element then (str (fst element) ++ "^ ")%string
    else (str (fst element) ++ " ")%string.

Definition opstr_of_term (t : term) : string :=
  fold_left (fun opstr element => (opstr ++ opstr_element element)%string) t EmptyString.

(** [for term in ops.terms: ... newstr += FermionOperator(opstr, ops.terms[term])] *)
Fixpoint transform_loop (terms : list (term * C)) (newstr : FermionOperator C)
  : result (FermionOperator C) :=
  match terms with
  | [] => Ok newstr
  | (t, coeff) :: rest =>
      op <- FermionOperator_of_string (opstr_of_term t) coeff ;;
      transform_loop rest (iadd newstr op)
  end.

Definition transform_to_spin_broken (ops : FermionOperator C)
  : result (FermionOperator C) :=
  transform_loop ops [].

End SpinBroken.

(* ================================================================== *)
(** ** Dense tensors (numpy.ndarray)

    An array is its shape and its entries in row-major order.  The code
    always indexes an array with as many positions as it has axes; any other
    index, or a position out of range, is [IndexError] here. *)

Record ndarray (C : Type) : Type := mk_ndarray {
  shape : list nat;
  data : list C
}.
Arguments mk_ndarray {C} shape data.

Definition size_of (shp : list nat) : nat := fold_right Nat.mul 1 shp.

(** [l[i] = v] on a Python list, within range *)
Fixpoint list_set {A} (l : list A) (i : nat) (v : A) : list A :=
  match l, i with
  | [], _ => []
  | _ :: l', 0 => v :: l'
  | x :: l', S i' => x :: list_set l' i' v
  end.

(** Row-major offset of a multi-index *)
Fixpoint ravel (shp index : list nat) : option nat :=
  match shp, index with
  | [], [] => Some 0
  | d :: shp', i :: index' =>
      if i <? d then
        match ravel shp' index' with
        | Some o => Some (i * size_of shp' + o)
        | None => None
        end
      else None
  | _, _ => None
  end.

Section Arrays.

Context {C : Type} `{Scalar C}.

Definition well_formed (a : ndarray C) : Prop :=
  List.length (data a) = size_of (shape a).

(** [numpy.zeros(shp)] *)
Definition zeros (shp : list nat) : ndarray C :=
  mk_ndarray shp (repeat zero (size_of shp)).

(** [a[index]] *)
Definition get (a : ndarray C) (index : list nat) : result C :=
  match ravel (shape a) index with
  | Some o =>
      match nth_error (data a) o with
      | Some c => Ok c
      | None => Raise IndexError
      end
  | None => Raise IndexError
  end.

(** [a[index] += c] *)
Definition add_at (a : ndarray C) (index : list nat) (c : C) : result (ndarray C) :=
  x <- get a index ;;
  match ravel (shape a) index with
  | Some o => Ok (mk_ndarray (shape a) (list_set (data a) o (add x c)))
  | None => Raise IndexError
  end.

(** *** Matrices: arrays with two axes *)

Definition rows (m : ndarray C) : nat := nth 0 (shape m) 0.
Definition cols (m : ndarray C) : nat := nth 1 (shape m) 0.

(** Entry [(i, j)] of a matrix, read within range *)
Definition at2 (m : ndarray C) (i j : nat) : C :=
  nth (i * cols m + j) (data m) zero.

Definition tabulate2 (r c : nat) (f : nat -> nat -> C) : ndarray C :=
  mk_ndarray [r; c] (flat_map (fun i => map (fun j => f i j) (seq 0 c)) (seq 0 r)).

(** [m.conj().T] *)
Definition conjT (m : ndarray C) : ndarray C :=
  tabulate2 (cols m) (rows m) (fun i j => conj (at2 m j i)).

(** numpy's broadcasting of one axis: equal lengths, or one of them is 1 *)
Definition broadcast_dim (a b : nat) : result nat :=
  if a =? b then Ok a
  else if a =? 1 then Ok b
  else if b =? 1 then Ok a
  else Raise (ValueError ["operands could not be broadcast together"%string]).

(** Entry [(i, j)] of [m] stretched along its axes of length 1 *)
Definition bat (m : ndarray C) (i j : nat) : C :=
  at2 m (if rows m =? 1 then 0 else i) (if cols m =? 1 then 0 else j).

(** [numpy.allclose(a, b)] *)
Definition allclose (a b : ndarray C) : result bool :=
  r <- broadcast_dim (rows a) (rows b) ;;
  c <- broadcast_dim (cols a) (cols b) ;;
  Ok (forallb (fun i => forallb (fun j => isclose (bat a i j) (bat b i j)) (seq 0 c))
              (seq 0 r)).

(** [a - b] *)
Definition subtract (a b : ndarray C) : result (ndarray C) :=
  r <- broadcast_dim (rows a) (rows b) ;;
  c <- broadcast_dim (cols a) (cols b) ;;
  Ok (tabulate2 r c (fun i j => sub (bat a i j) (bat b i j))).

(** [numpy.abs(d).argmax()]: the first position of the largest modulus *)
Fixpoint argmax_from (l : list C) (i best : nat) (bestv : C) : nat :=
  match l with
  | [] => best
  | x :: l' =>
      if abs_ltb bestv x then argmax_from l' (S i) i x
      else argmax_from l' (S i) best bestv
  end.

Definition abs_argmax (d : ndarray C) : result nat :=
  match data d with
  | [] => Raise (ValueError ["attempt to get argmax of an empty sequence"%string])
  | x :: l => Ok (argmax_from l 1 0 x)
  end.

(** [numpy.unravel_index(k, shape)] for two axes *)
Definition unravel_index (k : nat) (m : ndarray C) : nat * nat :=
  (k / cols m, k mod cols m).

(** [m.diagonal()] *)
Definition diagonal (m : ndarray C) : ndarray C :=
  let n := Nat.min (rows m) (cols m) in
  mk_ndarray [n] (map (fun i => at2 m i i) (seq 0 n)).

(** [m[r0:r1, c0:c1]]; a bound beyond the axis is clamped to its length *)
Definition slice2 (m : ndarray C) (r0 r1 c0 c1 : nat) : ndarray C :=
  let r0' := Nat.min r0 (rows m) in
  let r1' := Nat.min r1 (rows m) in
  let c0' := Nat.min c0 (cols m) in
  let c1' := Nat.min c1 (cols m) in
  tabulate2 (r1' - r0') (c1' - c0') (fun i j => at2 m (r0' + i) (c0' + j)).

(** [m.any()] *)
Definition any (m : ndarray C) : bool := existsb nonzero (data m).

(** [target[r0:r1, c0:c1] = src] *)
Definition assign2 (target : ndarray C) (r0 r1 c0 c1 : nat) (src : ndarray C)
  : result (ndarray C) :=
  let r0' := Nat.min r0 (rows target) in
  let r1' := Nat.min r1 (rows target) in
  let c0' := Nat.min c0 (cols target) in
  let c1' := Nat.min c1 (cols target) in
  let h := r1' - r0' in
  let w := c1' - c0' in
  if ((rows src =? h) || (rows src =? 1)) && ((cols src =? w) || (cols src =? 1)) then
    Ok (tabulate2 (rows target) (cols target)
          (fun i j =>
             if (r0' <=? i) && (i <? r0' + h) && (c0' <=? j) && (j <? c0' + w)
             then bat src (i - r0') (j - c0')
             else at2 target i j))
  else Raise (ValueError ["could not broadcast input array"%string]).

End Arrays.

(* ================================================================== *)
(** ** The specialized representations *)

(** Modelled from the spec: the representation classes of [fqe.hamiltonians]
    are not among the sources.  Each is "an immutable value constructed from
    one or more dense tensors plus a scalar offset and a number-conservation
    flag"; a value records the constructor called and its arguments as
    [build_hamiltonian] passes them. *)
Inductive Hamiltonian (C : Type) : Type :=
| Diagonal (hdiag : ndarray C) (conserve_number : bool) (e_0 : C)
| GSOHamiltonian (tensors : list (ndarray C)) (conserve_number : bool) (e_0 : C)
| Restricted (tensors : list (ndarray C)) (conserve_number : bool) (e_0 : C)
| SSOHamiltonian (tensors : list (ndarray C)) (conserve_number : bool) (e_0 : C)
| DiagonalCoulomb (h2e : ndarray C) (e_0 : C)
| General (tensors : list (ndarray C)) (conserve_number : bool) (e_0 : C)
| SparseHamiltonian (norb : nat) (operators : FermionOperator C)
                    (conserve_number : bool) (e_0 : C).
Arguments Diagonal {C}.
Arguments GSOHamiltonian {C}.
Arguments Restricted {C}.
Arguments SSOHamiltonian {C}.
Arguments DiagonalCoulomb {C}.
Arguments General {C}.
Arguments SparseHamiltonian {C}.

(** The scalar offset a representation was constructed with *)
Definition e_0_of {C} (h : Hamiltonian C) : C :=
  match h with
  | Diagonal _ _ e | GSOHamiltonian _ _ e | Restricted _ _ e
  | SSOHamiltonian _ _ e | DiagonalCoulomb _ e | General _ _ e
  | SparseHamiltonian _ _ _ e => e
  end.

Definition is_sparse {C} (h : Hamiltonian C) : bool :=
  match h with SparseHamiltonian _ _ _ _ => true | _ => false end.

(** What the factory may be given (lines 47-57): a representation, a tuple
    of arrays, an operator expression, or a value of some other type. *)
Inductive input (C : Type) : Type :=
| InHamiltonian (h : Hamiltonian C)
| InTuple (ops : list (ndarray C))
| InFermionOperator (ops : FermionOperator C)
| InOther (type_name : string).
Arguments InHamiltonian {C}.
Arguments InTuple {C}.
Arguments InFermionOperator {C}.
Arguments InOther {C}.

(** The functions the module imports and the sources do not contain:
    openfermion's Hermiticity test and normal ordering, and
    [fqe.util.validate_tuple]. *)
Class Collaborators (C : Type) : Type := {
  is_hermitian : FermionOperator C -> bool;
  normal_ordered : FermionOperator C -> FermionOperator C;
  validate_tuple : list (ndarray C) -> result unit
}.

(* ================================================================== *)
(** ** Standard output *)

Inductive printed (C : Type) : Type :=
| ElementOutsideTolerance (index : nat * nat)   (* 'Element {} outside tolerance' *)
| NotEqual (a b : C).                           (* '{} != {} ' *)
Arguments ElementOutsideTolerance {C}.
Arguments NotEqual {C}.

(** A computation that prints and then returns or raises *)
Definition io (C A : Type) : Type := (list (printed C) * result A)%type.

Definition io_bind {C A B} (m : io C A) (k : A -> io C B) : io C B :=
  match m with
  | (out, Ok a) => let (out', r) := k a in (out ++ out', r)
  | (out, Raise e) => (out, Raise e)
  end.

Definition io_ret {C A} (a : A) : io C A := ([], Ok a).
Definition io_raise {C A} (e : exn) : io C A := ([], Raise e).
Definition io_lift {C A} (r : result A) : io C A := ([], r).
Definition print {C} (p : printed C) : io C unit := ([p], Ok tt).

Declare Scope io_scope.
Delimit Scope io_scope with io.
Notation "x <- m ;; k" := (io_bind m (fun x => k))
  (at level 61, m at next level, right associativity) : io_scope.

(* ================================================================== *)
(** ** Index mapper *)

Section IndexMapper.

Context {C : Type}.

(** Modelled from the spec: [fqe.openfermion_utils.largest_operator_index]
    is not among the sources.  It "scans all terms" for the highest even
    (alpha) and the highest odd (beta) orbital index; its callers turn the two
    into block counts with [// 2 + 1], which gives the specification's
    [max_even_index//2 + 1] and [0] "if no such index present" when the
    value for an absent parity is [-1]. *)
Definition largest_in_term (t : term) (acc : Z * Z) : Z * Z :=
  fold_left
    (fun '(maxeven, maxodd) ele =>
       if truthy (fst ele mod 2)
       then (maxeven, Z.max (Z.of_nat (fst ele)) maxodd)
       else (Z.max (Z.of_nat (fst ele)) maxeven, maxodd))
    t acc.

Definition largest_operator_index (ops : FermionOperator C) : Z * Z :=
  fold_left (fun acc e => largest_in_term (fst e) acc) ops ((-1)%Z, (-1)%Z).

(** The blocked coordinate of an orbital index (lines 208-211) *)
Definition blocked_index (index ablk : nat) : nat :=
  if truthy (index mod 2) then (index - 1) / 2 + ablk else index / 2.

End IndexMapper.

(* ================================================================== *)
(** ** Rank splitter *)

Section RankSplitter.

Context {C : Type} `{Scalar C}.

(** A dict keyed by rank, in insertion order *)
Fixpoint rank_lookup {V} (d : list (nat * V)) (k : nat) : option V :=
  match d with
  | [] => None
  | (k', v) :: d' => if k' =? k then Some v else rank_lookup d' k
  end.

Definition rank_mem {V} (d : list (nat * V)) (k : nat) : bool :=
  match rank_lookup d k with Some _ => true | None => false end.

Fixpoint rank_set {V} (d : list (nat * V)) (k : nat) (v : V) : list (nat * V) :=
  match d with
  | [] => [(k, v)]
  | (k', v') :: d' => if k' =? k then (k', v) :: d' else (k', v') :: rank_set d' k v
  end.

(** [term.terms[()]] *)
Definition constant_coefficient (op : FermionOperator C) : result C :=
  if terms_mem op [] then Ok (terms_get op [] zero)
  else Raise KeyError.

(** The loop of lines 146-159; iterating over an operator yields one
    single-term operator per entry of [terms]. *)
Fixpoint split_loop (entries : list (term * C))
    (split : list (nat * FermionOperator C)) (e_0 : C)
  : result (list (nat * FermionOperator C) * C) :=
  match entries with
  | [] => Ok (split, e_0)
  | entry :: rest =>
      let term := [entry] in
      rank <- many_body_order term ;;
      if truthy (rank mod 2) then
        Raise (ValueError ["Odd rank term not accepted"%string])
      else if rank =? 0 then
        c <- constant_coefficient term ;;
        split_loop rest split (add e_0 c)
      else
        match rank_lookup split rank with
        | None => split_loop rest (rank_set split rank term) e_0
        | Some op => split_loop rest (rank_set split rank (iadd op term)) e_0
        end
  end.

Definition split_openfermion_tensor (ops : FermionOperator C)
  : result (list (nat * FermionOperator C) * C) :=
  split_loop ops [] zero.

End RankSplitter.

(* ================================================================== *)
(** ** Tensor builder *)

Section TensorBuilder.

Context {C : Type} `{Scalar C}.

(** [for i in range(rank)] of lines 196-213: checks the role of factor [i]
    and stores its blocked coordinate in [index_mask[i]]. *)
Fixpoint mask_loop (t : term) (rank ablk : nat) (positions : list nat)
    (index_mask : list nat) : result (list nat) :=
  match positions with
  | [] => Ok index_mask
  | i :: rest =>
      match nth_error t i with
      | None => Raise IndexError
      | Some ele =>
          let index := fst ele in
          _ <- (if i <? rank / 2 then
                  if negb (snd ele) then
                    Raise (ValueError ["Found annihilation operator wherecreation is expected"%string])
                  else Ok tt
                else if snd ele then
                  Raise (ValueError ["Found creattion operator whereannihilation is expected"%string])
                else Ok tt) ;;
          mask_loop t rank ablk rest (list_set index_mask i (blocked_index index ablk))
      end
  end.

(** [for term in ops.terms] of lines 194-215; [index_mask] is the one list
    reused for every term. *)
Fixpoint term_loop (entries : list (term * C)) (rank ablk : nat)
    (index_mask : list nat) (tensor : ndarray C) : result (ndarray C) :=
  match entries with
  | [] => Ok tensor
  | (t, coeff) :: rest =>
      index_mask' <- mask_loop t rank ablk (seq 0 rank) index_mask ;;
      tensor' <- add_at tensor index_mask' coeff ;;
      term_loop rest rank ablk index_mask' tensor'
  end.

(** Block counts of lines 167-170; both are non-negative since the indices
    found are at least [-1]. *)
Definition alpha_blocks (ops : FermionOperator C) : nat :=
  Z.to_nat (fst (largest_operator_index ops) / 2 + 1).

Definition beta_blocks (ops : FermionOperator C) : nat :=
  Z.to_nat ((snd (largest_operator_index ops) - 1) / 2 + 1).

Definition fermionops_tomatrix (ops : FermionOperator C) (norb : nat)
  : result (ndarray C) :=
  let ablk := alpha_blocks ops in
  let bblk := beta_blocks ops in
  dim <- (if truthy norb then
            if norb <? ablk then
              Raise (ValueError ["Highest alpha index exceeds the norb of orbitals"%string])
            else if norb <? bblk then
              Raise (ValueError ["Highest beta index exceeds the norb of orbitals"%string])
            else Ok (2 * norb)
          else Ok (Nat.max (2 * ablk) (2 * bblk))) ;;
  let ablk := dim / 2 in
  rank <- many_body_order ops ;;
  if truthy (rank mod 2) then
    Raise (ValueError ["Odd rank operator not supported"%string])
  else
    let tensor_dim := repeat dim rank in
    let index_mask := repeat 0 rank in
    let tensor := zeros tensor_dim in
    term_loop ops rank ablk index_mask tensor.

End TensorBuilder.

(* ================================================================== *)
(** ** Structure classifier *)

Section Classifier.

Context {C : Type} `{Scalar C}.

(** [for j in range(0, i)] of lines 304-307; [break] leaves this loop only *)
Fixpoint scan_row (mat : ndarray C) (i : nat) (js : list nat) (diagonal : bool)
  : result bool :=
  match js with
  | [] => Ok diagonal
  | j :: js' =>
      x <- get mat [i; j] ;;
      if nonzero x then Ok false else scan_row mat i js' diagonal
  end.

(** [for i in range(1, max(norb, mat.shape[0]))] of line 303 *)
Fixpoint scan_rows (mat : ndarray C) (rws : list nat) (diagonal : bool)
  : result bool :=
  match rws with
  | [] => Ok diagonal
  | i :: rws' =>
      diagonal' <- scan_row mat i (seq 0 i) diagonal ;;
      scan_rows mat rws' diagonal'
  end.

Definition process_rank2_matrix (mat : ndarray C) (norb : nat)
    (conserve_number : bool) (e_0 : C) : io C (Hamiltonian C) :=
  (hermitian <- io_lift (allclose mat (conjT mat)) ;;
   if negb hermitian then
     diff <- io_lift (subtract mat (conjT mat)) ;;
     k <- io_lift (abs_argmax diff) ;;
     let index := unravel_index k diff in
     _ <- print (ElementOutsideTolerance index) ;;
     a <- io_lift (get mat [fst index; snd index]) ;;
     b <- io_lift (get mat [snd index; fst index]) ;;
     _ <- print (NotEqual a (conj b)) ;;
     io_raise (ValueError [])
   else
     let norb := if negb (truthy norb) then rows mat else norb in
     diag <- io_lift (scan_rows mat (seq 1 (Nat.max norb (rows mat) - 1)) true) ;;
     if (diag : bool) then
       io_ret (Diagonal (diagonal mat) conserve_number e_0)
     else if any (slice2 mat norb (2 * norb) 0 norb) then
       io_ret (GSOHamiltonian [mat] conserve_number e_0)
     else
       same <- io_lift (allclose (slice2 mat 0 norb 0 norb)
                                 (slice2 mat norb (rows mat) norb (cols mat))) ;;
       if (same : bool) then
         io_ret (Restricted [mat] conserve_number e_0)
       else
         let spin_mat := zeros [norb; 2 * norb] in
         spin_mat <- io_lift (assign2 spin_mat 0 norb 0 norb
                                      (slice2 mat 0 norb 0 norb)) ;;
         spin_mat <- io_lift (assign2 spin_mat 0 norb norb (2 * norb)
                                      (slice2 mat norb (rows mat) norb (cols mat))) ;;
         io_ret (SSOHamiltonian [spin_mat] conserve_number e_0))%io.

(** A loop whose body may [return]: [Some r] leaves with [r], [None] goes
    on with the next element. *)
Fixpoint for_return {A R} (l : list A) (body : A -> result (option R))
  : result (option R) :=
  match l with
  | [] => Ok None
  | x :: l' =>
      r <- body x ;;
      match r with
      | Some v => Ok (Some v)
      | None => for_return l' body
      end
  end.

Definition check_diagonal_coulomb (mat : ndarray C) : result bool :=
  let dim := nth 0 (shape mat) 0 in
  r <- for_return (seq 0 dim) (fun i =>
       for_return (seq 0 dim) (fun j =>
       for_return (seq 0 dim) (fun k =>
       for_return (seq 0 dim) (fun l =>
         if (i =? k) && (j =? l) then Ok None
         else
           x <- get mat [i; j; k; l] ;;
           if nonzero x then Ok (Some false) else Ok None)))) ;;
  match r with
  | Some b => Ok b
  | None => Ok true
  end.

End Classifier.

(* ================================================================== *)
(** ** The factory *)

Section Factory.

Context {C : Type} `{Scalar C} `{Collaborators C}.

(** Lines 76-77, the body of the loop over [ops_rank.values()] *)
Definition infer_norb_step (norb : nat) (term : FermionOperator C) : nat :=
  let '(ablk, bblk) := largest_operator_index term in
  Nat.max (norb + 1)
    (Nat.max (Z.to_nat (ablk / 2 + 1)) (Z.to_nat (bblk / 2 + 1))).

(** Lines 74-77 *)
Definition infer_norb (ops_rank : list (nat * FermionOperator C)) : nat :=
  fold_left infer_norb_step (map snd ops_rank) 0.

(** Lines 79-81 *)
Fixpoint build_tensors (ops_rank : list (nat * FermionOperator C)) (norb : nat)
    (ops_mat : list (nat * ndarray C)) : result (list (nat * ndarray C)) :=
  match ops_rank with
  | [] => Ok ops_mat
  | (rank, term) :: rest =>
      tensor <- fermionops_tomatrix term norb ;;
      build_tensors rest norb (rank_set ops_mat rank tensor)
  end.

(** Lines 95-98 *)
Definition zero_fill (ops_mat : list (nat * ndarray C)) (norb : nat)
  : list (nat * ndarray C) :=
  fold_left
    (fun om i => if rank_mem om i then om
                 else rank_set om i (zeros (repeat (2 * norb) i)))
    [2; 4; 6; 8] ops_mat.

(** [d[k]] *)
Definition getitem {V} (d : list (nat * V)) (k : nat) : result V :=
  match rank_lookup d k with
  | Some v => Ok v
  | None => Raise KeyError
  end.

(** Lines 95-105 *)
Definition general_fallback (ops_mat : list (nat * ndarray C)) (norb : nat)
    (conserve_number : bool) (e_0 : C) : result (Hamiltonian C) :=
  let ops_mat := zero_fill ops_mat norb in
  t2 <- getitem ops_mat 2 ;;
  t4 <- getitem ops_mat 4 ;;
  t6 <- getitem ops_mat 6 ;;
  t8 <- getitem ops_mat 8 ;;
  Ok (General [t2; t4; t6; t8] conserve_number e_0).

(** Lines 84-105 *)
Definition select_representation (ops_mat : list (nat * ndarray C)) (norb : nat)
    (conserve_number : bool) (e_0 : C) : io C (Hamiltonian C) :=
  if List.length ops_mat =? 1 then
    match rank_lookup ops_mat 2 with
    | Some m2 => process_rank2_matrix m2 norb conserve_number e_0
    | None =>
        match rank_lookup ops_mat 4 with
        | Some m4 =>
            match check_diagonal_coulomb m4 with
            | Raise e => io_raise e
            | Ok true => io_ret (DiagonalCoulomb m4 e_0)
            | Ok false => io_lift (general_fallback ops_mat norb conserve_number e_0)
            end
        | None => io_lift (general_fallback ops_mat norb conserve_number e_0)
        end
    end
  else io_lift (general_fallback ops_mat norb conserve_number e_0).

(** Lines 67-70: the spin-breaking transform when the number is not
    conserved, then normal ordering. *)
Definition prepare (ops : FermionOperator C) (conserve_number : bool)
  : result (FermionOperator C) :=
  ops' <- (if negb conserve_number then transform_to_spin_broken ops else Ok ops) ;;
  Ok (normal_ordered ops').

(** Lines 67-105, the general case *)
Definition dense_pipeline (ops : FermionOperator C) (conserve_number : bool)
  : io C (Hamiltonian C) :=
  (ops <- io_lift (prepare ops conserve_number) ;;
   parts <- io_lift (split_openfermion_tensor ops) ;;
   let ops_rank := fst parts in
   let e_0 := snd parts in
   let norb := infer_norb ops_rank in
   ops_mat <- io_lift (build_tensors ops_rank norb []) ;;
   select_representation ops_mat norb conserve_number e_0)%io.

Definition build_hamiltonian (ops : input C) (norb : nat)
    (conserve_number : bool) (e_0 : C) : io C (Hamiltonian C) :=
  match ops with
  | InHamiltonian h => io_ret h
  | InTuple t =>
      (_ <- io_lift (validate_tuple t) ;;
       io_ret (General t conserve_number e_0))%io
  | InOther type_name =>
      io_raise (TypeError [("Expected FermionOperator but received " ++ type_name ++ ".")%string])
  | InFermionOperator ops =>
      if negb (is_hermitian ops) then io_raise AssertionError
      else if List.length ops <=? 2 then
        io_ret (SparseHamiltonian norb ops conserve_number e_0)
      else dense_pipeline ops conserve_number
  end.

End Factory.

(* ================================================================== *)
(** ** The super matrix of a rank-2 expression *)

Section SuperMatrix.

Context {C : Type} `{Scalar C}.

(** [for term in ops.terms] of lines 255-279: the quadrant of

        | a^ a   a^ a^ |
        | a  a   a  a^ |

    is chosen by the actions of the first two factors. *)
Fixpoint rank2_loop (entries : list (term * C)) (ablk dim : nat) (h1e : ndarray C)
  : result (ndarray C) :=
  match entries with
  | [] => Ok h1e
  | (t, coeff) :: rest =>
      match nth_error t 0, nth_error t 1 with
      | Some t0, Some t1 =>
          let left := fst t0 in
          let right := fst t1 in
          let ind := blocked_index left ablk in
          let jnd := blocked_index right ablk in
          h1e' <- (if snd t0 && snd t1 then
                     add_at h1e [ind; jnd + dim] coeff
                   else if snd t0 && negb (snd t1) then
                     add_at h1e [ind; jnd] coeff
                   else if negb (snd t0) && snd t1 then
                     add_at h1e [ind + dim; jnd + dim] coeff
                   else
                     add_at h1e [ind + dim; jnd] coeff) ;;
          rank2_loop rest ablk dim h1e'
      | _, _ => Raise IndexError
      end
  end.

Definition fermion_op_to_rank2 (ops : FermionOperator C) (norb : nat)
  : result (ndarray C) :=
  let ablk := alpha_blocks ops in
  let bblk := beta_blocks ops in
  dim <- (if truthy norb then
            if norb <? ablk then
              Raise (ValueError ["Highest alpha index exceeds the norb of orbitals"%string])
            else if norb <? bblk then
              Raise (ValueError ["Highest beta index exceeds the norb of orbitals"%string])
            else Ok (2 * norb)
          else Ok (Nat.max (2 * ablk) (2 * bblk))) ;;
  let ablk := dim / 2 in
  let h1e := zeros [2 * dim; 2 * dim] in
  rank <- many_body_order ops ;;
  if negb (rank =? 2) then
    Raise (ValueError ["Rank of operator not-equal 2"%string])
  else rank2_loop ops ablk dim h1e.

End SuperMatrix.

(* ================================================================== *)
(** ** The decorators of the wavefunction methods

    The wavefunction class is not among the sources.  The decorators of
    lines 367-400 read one thing of it, [self.conserve_number()], and pass
    [self] on; the method they wrap is any function of the arguments the
    decorator hands it.  [build_hamiltonian] is called with its defaults
    [norb = 0] and [e_0 = 0. + 0.j]. *)

Section Decorators.

Context {C : Type} `{Scalar C} `{Collaborators C}.

Variable Wavefunction : Type.
Variable self_conserve_number : Wavefunction -> bool.

Definition wrap_apply {R} (apply : Wavefunction -> Hamiltonian C -> io C R)
    (self : Wavefunction) (ops : input C) : io C R :=
  (hamil <- build_hamiltonian ops 0 (self_conserve_number self) zero ;;
   apply self hamil)%io.

Definition wrap_time_evolve {R T}
    (time_evolve : Wavefunction -> T -> Hamiltonian C -> io C R)
    (self : Wavefunction) (time : T) (ops : input C) : io C R :=
  (hamil <- build_hamiltonian ops 0 (self_conserve_number self) zero ;;
   time_evolve self time hamil)%io.

Definition wrap_apply_generated_unitary {R T A Acc Lim}
    (apply_generated_unitary :
       Wavefunction -> T -> A -> Hamiltonian C -> Acc -> nat -> option Lim -> io C R)
    (self : Wavefunction) (time : T) (algo : A) (ops : input C)
    (accuracy : Acc) (expansion : nat) (spec_lim : option Lim) : io C R :=
  (hamil <- build_hamiltonian ops 0 (self_conserve_number self) zero ;;
   apply_generated_unitary self time algo hamil accuracy expansion spec_lim)%io.

End Decorators.

(* ================================================================== *)
(** ** What the specification states

    The notions the claims are stated with, each in the words of the
    specification or entry by entry, to be compared with what the code
    computes. *)

(** The specification counts the entries of an expression "excluding the
    constant term"; this is that count. *)
Definition nonconstant_entries {C} (ops : FermionOperator C) : nat :=
  List.length (filter (fun e => negb (term_eqb (fst e) [])) ops).

(** The specification's reading of the spin-breaking transform: "each
    factor's role is flipped if-and-only-if its orbital index is even
    (alpha)". *)
Definition alpha_flipped_factor (element : factor) : factor :=
  (fst element, if Nat.even (fst element) then negb (snd element) else snd element).

(** The sum of the rank-0 coefficients of an expression, added up from
    [0. + 0.j] in the order of [terms] *)
Definition constant_terms_sum {C} `{Scalar C} (ops : FermionOperator C) : C :=
  fold_left add (map snd (filter (fun e => term_eqb (fst e) []) ops)) zero.

(** The specification's orbital count: "the maximum block requirement
    (highest alpha block count, highest beta block count)" over the ranks,
    a block count being [max_index // 2 + 1], or [0] without such an index. *)
Definition block_requirement {C} (sub : FermionOperator C) : nat :=
  Nat.max (Z.to_nat (fst (largest_operator_index sub) / 2 + 1))
          (Z.to_nat (snd (largest_operator_index sub) / 2 + 1)).

Definition max_block_requirement {C} (ops_rank : list (nat * FermionOperator C)) : nat :=
  fold_right Nat.max 0 (map (fun entry => block_requirement (snd entry)) ops_rank).

(** The two errors of the explicit orbital-count validation (lines 173-176) *)
Definition dimension_error (e : exn) : Prop :=
  e = ValueError ["Highest alpha index exceeds the norb of orbitals"%string]
  \/ e = ValueError ["Highest beta index exceeds the norb of orbitals"%string].

(** The two errors of the ordering check (lines 200-206) *)
Definition ordering_error (e : exn) : Prop :=
  e = ValueError ["Found annihilation operator wherecreation is expected"%string]
  \/ e = ValueError ["Found creattion operator whereannihilation is expected"%string].

(** What an exception carries *)
Definition exn_args (e : exn) : list string :=
  match e with
  | ValueError args | TypeError args => args
  | _ => []
  end.

(** Canonical order of a term of the given rank: "the first [rank/2]
    factors must all be creation operators and the remaining [rank/2] must
    all be annihilation operators". *)
Definition canonical_order (rank : nat) (t : term) : Prop :=
  forall i ele, nth_error t i = Some ele ->
    (i < rank / 2 -> snd ele = true) /\ (rank / 2 <= i -> snd ele = false).

(** The explicit orbital count passes the validation of lines 172-176, or
    none is given. *)
Definition dimension_accepted {C} (ops : FermionOperator C) (norb : nat) : Prop :=
  norb = 0 \/ (alpha_blocks ops <= norb /\ beta_blocks ops <= norb).

(** The builder gets as far as its loop over the terms: the orbital count
    is accepted and the rank it computes is the even rank of the terms. *)
Definition reaches_term_loop {C} `{Scalar C} (ops : FermionOperator C)
    (norb rank : nat) : Prop :=
  dimension_accepted ops norb
  /\ many_body_order ops = Ok rank
  /\ Nat.even rank = true.

(** The diagonal-Coulomb pattern of a rank-4 tensor: every entry at
    [(i, j, k, l)] with not ([i == k] and [j == l]) is zero. *)
Definition diagonal_coulomb_pattern {C} `{Scalar C} (mat : ndarray C) : Prop :=
  let dim := nth 0 (shape mat) 0 in
  forall i j k l, i < dim -> j < dim -> k < dim -> l < dim ->
    ~ (i = k /\ j = l) ->
    exists x, get mat [i; j; k; l] = Ok x /\ nonzero x = false.

(** The patterns of the rank-2 classifier on a matrix of [2 * norb] rows
    and columns, entry by entry. *)
Definition hermitian_within_tolerance {C} `{Scalar C} (mat : ndarray C) (n : nat)
  : Prop :=
  forall i j, i < n -> j < n -> isclose (at2 mat i j) (conj (at2 mat j i)) = true.

Definition strict_lower_zero {C} `{Scalar C} (mat : ndarray C) (n : nat) : Prop :=
  forall i j, j < i -> i < n -> nonzero (at2 mat i j) = false.

Definition coupling_nonzero {C} `{Scalar C} (mat : ndarray C) (norb : nat) : Prop :=
  exists i j, norb <= i < 2 * norb /\ j < norb /\ nonzero (at2 mat i j) = true.

Definition blocks_close {C} `{Scalar C} (mat : ndarray C) (norb : nat) : Prop :=
  forall i j, i < norb -> j < norb ->
    isclose (at2 mat i j) (at2 mat (norb + i) (norb + j)) = true.

(** The reduced tensor of shape [(norb, 2 * norb)]: the alpha-alpha block in
    columns [0, norb), the beta-beta block in columns [norb, 2 * norb). *)
Definition sso_tensor {C} `{Scalar C} (mat : ndarray C) (norb : nat) : ndarray C :=
  tabulate2 norb (2 * norb)
    (fun i j => if j <? norb then at2 mat i j else at2 mat (norb + i) j).

(** The index pair the classifier prints for a matrix that is not Hermitian:
    the first position of the largest modulus in [mat - mat.conj().T]. *)
Definition worst_index {C} `{Scalar C} (mat : ndarray C) : nat * nat :=
  match subtract mat (conjT mat) with
  | Ok diff =>
      match abs_argmax diff with
      | Ok k => unravel_index k diff
      | Raise _ => (0, 0)
      end
  | Raise _ => (0, 0)
  end.

(* ================================================================== *)
(** ** Auxiliary notions of the proofs *)

Definition role_ok (rank : nat) (t : term) (i : nat) : bool :=
  match nth_error t i with
  | Some ele => if i <? rank / 2 then snd ele else negb (snd ele)
  | None => true
  end.

Definition canonical_orderb (rank : nat) (t : term) : bool :=
  forallb (role_ok rank t) (seq 0 rank).

(** What the splitter keeps true of the sub-expressions it has built while
    the terms [pending] are still to come. *)
Definition split_invariant {C} `{Scalar C}
    (split : list (nat * FermionOperator C)) (pending : list term) : Prop :=
  forall r op, In (r, op) split ->
    op <> []
    /\ forall e, In e op ->
         List.length (fst e) = r /\ issmall (snd e) = false /\ ~ In (fst e) pending.

(** Entry [(i, j, k, l)] of a rank-4 tensor, and whether it is a non-zero
    entry off the diagonal-Coulomb pattern *)
Definition entry4 {C} `{Scalar C} (mat : ndarray C) (i j k l : nat) : C :=
  match get mat [i; j; k; l] with Ok x => x | Raise _ => zero end.

Definition off_pattern {C} `{Scalar C} (mat : ndarray C) (i j k l : nat) : bool :=
  negb ((i =? k) && (j =? l)) && nonzero (entry4 mat i j k l).

(** An orbital index is covered by the pair of highest indices found so far *)
Definition index_bounded (acc : Z * Z) (ele : factor) : Prop :=
  if truthy (fst ele mod 2) then (Z.of_nat (fst ele) <= snd acc)%Z
  else (Z.of_nat (fst ele) <= fst acc)%Z.

(** The length [dim] of every axis the builders allocate (lines 172-180 and
    238-246), once the orbital count is accepted *)
Definition axis_length {C} (ops : FermionOperator C) (norb : nat) : nat :=
  if truthy norb then 2 * norb
  else Nat.max (2 * alpha_blocks ops) (2 * beta_blocks ops).

(** The position a term is accumulated at by the tensor builder: the
    blocked coordinate of each of its factors *)
Definition coordinates (ablk : nat) (t : term) : list nat :=
  map (fun ele => blocked_index (fst ele) ablk) t.

(** The position a rank-2 term is accumulated at in the super matrix *)
Definition super_position (ablk dim : nat) (t : term) : list nat :=
  match t with
  | t0 :: t1 :: _ =>
      [blocked_index (fst t0) ablk + (if snd t0 then 0 else dim);
       blocked_index (fst t1) ablk + (if snd t1 then dim else 0)]
  | _ => []
  end.

(** [a[index] += c] for each [(index, c)] in turn *)
Fixpoint add_all {C} `{Scalar C} (updates : list (list nat * C)) (a : ndarray C)
  : result (ndarray C) :=
  match updates with
  | [] => Ok a
  | (index, c) :: rest =>
      a' <- add_at a index c ;;
      add_all rest a'
  end.

(** The number-conservation flag a representation was constructed with;
    the factory constructs DiagonalCoulomb without one (line 93) *)
Definition conserve_number_of {C} (h : Hamiltonian C) : option bool :=
  match h with
  | Diagonal _ cn _ | GSOHamiltonian _ cn _ | Restricted _ cn _
  | SSOHamiltonian _ cn _ | General _ cn _ | SparseHamiltonian _ _ cn _ => Some cn
  | DiagonalCoulomb _ _ => None
  end.

(** The tensor of the general representation for the even rank [i]: the one
    the builder returns for the sub-expression of that rank, zeros when the
    expression has no term of that rank *)
Definition built_or_zeros {C} `{Scalar C} (ops_rank : list (nat * FermionOperator C))
    (norb i : nat) : ndarray C :=
  match rank_lookup ops_rank i with
  | Some sub =>
      match fermionops_tomatrix sub norb with
      | Ok tensor => tensor
      | Raise _ => zeros (repeat (2 * norb) i)
      end
  | None => zeros (repeat (2 * norb) i)
  end.

(** The matrix [a] of [d] rows and columns is the upper left block of [b],
    and [b] is zero outside that block *)
Definition upper_left_block {C} `{Scalar C} (d : nat) (a b : ndarray C) : Prop :=
  forall i j, i < 2 * d -> j < 2 * d ->
    get b [i; j] = if (i <? d) && (j <? d) then get a [i; j] else Ok zero.

(** The entries of an expression whose term has [r] factors, in order *)
Definition rank_entries {C} (r : nat) (ops : FermionOperator C) : FermionOperator C :=
  filter (fun e => List.length (fst e) =? r) ops.

(** The tensor the fallback of lines 95-105 takes for the even rank [i] *)
Definition tensor_or_zeros {C} `{Scalar C} (ops_mat : list (nat * ndarray C))
    (norb i : nat) : ndarray C :=
  match rank_lookup ops_mat i with
  | Some tensor => tensor
  | None => zeros (repeat (2 * norb) i)
  end.

(* ================================================================== *)
(** ** Worked examples

    Coefficients are Gaussian integers.  The expressions below are Hermitian
    and already in normal order; on such input the library's Hermiticity test
    answers [True] and its normal ordering rebuilds the expression term by
    term with [+=]. *)

#[export] Instance ordered_input : Collaborators Gauss.t := {
  is_hermitian := fun _ => true;
  normal_ordered := fun ops => iadd [] ops;
  validate_tuple := fun _ => Ok tt
}.

Definition one : Gauss.t := (1%Z, 0%Z).

(** [0^ 0], [1^ 1] and [1^ 0^ 1 0] *)
Definition n0 : term := [(0, true); (0, false)].
Definition n1 : term := [(1, true); (1, false)].
Definition n1n0 : term := [(1, true); (0, true); (1, false); (0, false)].

(** [1 + 0^ 0 + 1^ 1] *)
Definition ops_const_n0_n1 : FermionOperator Gauss.t :=
  [([], one); (n0, one); (n1, one)].

(** [0^ 0 + 1^ 1 + 1^ 0^ 1 0] *)
Definition ops_two_ranks : FermionOperator Gauss.t :=
  [(n0, one); (n1, one); (n1n0, one)].

(** [0^ 1], an alpha creation and a beta annihilation *)
Definition ops_0c_1a : FermionOperator Gauss.t := [([(0, true); (1, false)], one)].

(** [2 0^]: an annihilation operator where a creation operator is expected *)
Definition ops_out_of_order : FermionOperator Gauss.t :=
  [([(2, false); (0, true)], one)].

(** [1^ 0^ 1 0 + 3^ 2^ 3 2 + 2^ 1^ 2 1]: density-density terms only *)
Definition ops_coulomb : FermionOperator Gauss.t :=
  [(n1n0, one);
   ([(3, true); (2, true); (3, false); (2, false)], one);
   ([(2, true); (1, true); (2, false); (1, false)], one)].

(** [[0, 1], [2, 0]], not Hermitian *)
Definition mat_not_hermitian : ndarray Gauss.t :=
  mk_ndarray [2; 2] [(0, 0); (1, 0); (2, 0); (0, 0)]%Z.

(** A Hermitian matrix for [norb = 2] whose diagonal blocks differ and whose
    spin sectors do not mix *)
Definition mat_two_blocks : ndarray Gauss.t :=
  mk_ndarray [4; 4]
    [(1, 0); (1, 1);  (0, 0); (0, 0);
     (1, -1); (0, 0); (0, 0); (0, 0);
     (0, 0); (0, 0);  (1, 0); (1, 1);
     (0, 0); (0, 0);  (1, -1); (5, 0)]%Z.

(** [(1+i) 0^ 2 + (1-i) 2^ 0 + 1^ 1]: a hop between two alpha orbitals with
    its conjugate, and the number operator of a beta orbital *)
Definition ops_hopping : FermionOperator Gauss.t :=
  [([(0, true); (2, false)], (1, 1)%Z);
   ([(2, true); (0, false)], (1, -1)%Z);
   (n1, one)].

(** Its matrix on two orbitals: the alpha block in rows and columns 0-1, the
    beta block in rows and columns 2-3 *)
Definition mat_hopping : ndarray Gauss.t :=
  mk_ndarray [4; 4]
    [(0, 0); (1, 1);  (0, 0); (0, 0);
     (1, -1); (0, 0); (0, 0); (0, 0);
     (0, 0); (0, 0);  (1, 0); (0, 0);
     (0, 0); (0, 0);  (0, 0); (0, 0)]%Z.

(** [1^ 0 + 0^ 1]: an electron moved between the alpha and the beta orbital *)
Definition ops_spin_flip : FermionOperator Gauss.t :=
  [([(1, true); (0, false)], one); ([(0, true); (1, false)], one)].

(** Its matrix on one orbital *)
Definition mat_spin_flip : ndarray Gauss.t :=
  mk_ndarray [2; 2] [(0, 0); (1, 0); (1, 0); (0, 0)]%Z.

(** [0^ 1^ + 1 0]: a pair created and a pair annihilated *)
Definition ops_pairing : FermionOperator Gauss.t :=
  [([(0, true); (1, true)], one); ([(1, false); (0, false)], one)].

(** Its super matrix on one orbital: the pair creation in the upper right
    quadrant, the pair annihilation in the lower left one *)
Definition mat_pairing : ndarray Gauss.t :=
  mk_ndarray [4; 4]
    [(0, 0); (0, 0); (0, 0); (1, 0);
     (0, 0); (0, 0); (0, 0); (0, 0);
     (0, 0); (0, 0); (0, 0); (0, 0);
     (1, 0); (0, 0); (0, 0); (0, 0)]%Z.

(* ================================================================== *)
(** * Properties *)

(** ** Terms and results *)

Lemma factor_eqb_spec (f g : factor) : factor_eqb f g = true <-> f = g.
Proof.
  destruct f as [i a], g as [j b]; unfold factor_eqb; simpl.
  rewrite andb_true_iff, Nat.eqb_eq, Bool.eqb_true_iff.
  split; [intros [-> ->]; reflexivity | intros H; inversion H; auto].
Qed.

Lemma term_eqb_spec (s t : term) : term_eqb s t = true <-> s = t.
Proof.
  revert t; induction s as [|f s IH]; intros [|g t]; simpl;
    try (split; [discriminate | congruence]); try tauto.
  rewrite andb_true_iff, factor_eqb_spec, IH.
  split; [intros [-> ->]; reflexivity | intros H; inversion H; auto].
Qed.

Lemma term_eqb_refl (t : term) : term_eqb t t = true.
Proof. apply term_eqb_spec; reflexivity. Qed.

Lemma term_eqb_neq (s t : term) : s <> t -> term_eqb s t = false.
Proof.
  intros H; destruct (term_eqb s t) eqn:E; [|reflexivity].
  apply term_eqb_spec in E; contradiction.
Qed.

Lemma rbind_Ok {A B} (r : result A) (k : A -> result B) (b : B) :
  rbind r k = Ok b -> exists a, r = Ok a /\ k a = Ok b.
Proof. destruct r as [a|e]; simpl; [eauto | discriminate]. Qed.

Lemma io_bind_lift_Ok {C A B} (r : result A) (k : A -> io C B) out (b : B) :
  io_bind (io_lift r) k = (out, Ok b) -> exists a, r = Ok a /\ k a = (out, Ok b).
Proof.
  destruct r as [a|e]; simpl; [|discriminate].
  destruct (k a) as [out' r'] eqn:E; simpl. intros Heq; inversion Heq; subst; eauto.
Qed.

Lemma io_bind_lift_eq {C A B} (r : result A) (k : A -> io C B) (a : A) :
  r = Ok a -> io_bind (io_lift r) k = k a.
Proof. intros ->; simpl. destruct (k a); reflexivity. Qed.

(* ================================================================== *)
(** ** The factory's routing *)

Section Routing.

Context {C : Type} `{Scalar C} `{Collaborators C}.

(** C8.  A representation given to the factory comes back as it is, whatever
    [norb], [conserve_number] and [e_0] are; so what the factory returns, it
    returns again when given it. *)
Theorem build_hamiltonian_identity_on_representations :
  (forall (h : Hamiltonian C) norb conserve_number e_0,
      build_hamiltonian (InHamiltonian h) norb conserve_number e_0 = ([], Ok h))
  /\
  (forall (ops : input C) norb conserve_number e_0 out h,
      build_hamiltonian ops norb conserve_number e_0 = (out, Ok h) ->
      forall norb' conserve_number' e_0',
        build_hamiltonian (InHamiltonian h) norb' conserve_number' e_0' = ([], Ok h)).
Proof.
  split; [reflexivity|].
  intros ops norb cn e0 out h _ norb' cn' e0'. reflexivity.
Qed.

(** The general case never constructs the sparse representation, and the
    offset of what it constructs is the one handed to the classifier. *)
Lemma process_rank2_matrix_result (mat : ndarray C) norb cn e0 out h :
  process_rank2_matrix mat norb cn e0 = (out, Ok h) ->
  is_sparse h = false /\ e_0_of h = e0.
Proof.
  unfold process_rank2_matrix. intros Hr.
  apply io_bind_lift_Ok in Hr as [herm [_ Hr]].
  destruct herm; simpl negb in Hr; cbv iota in Hr.
  - apply io_bind_lift_Ok in Hr as [diag [_ Hr]].
    destruct diag; [inversion Hr; split; reflexivity|].
    destruct (any _); [inversion Hr; split; reflexivity|].
    apply io_bind_lift_Ok in Hr as [same [_ Hr]].
    destruct same; [inversion Hr; split; reflexivity|].
    apply io_bind_lift_Ok in Hr as [s1 [_ Hr]].
    apply io_bind_lift_Ok in Hr as [s2 [_ Hr]].
    inversion Hr; split; reflexivity.
  - apply io_bind_lift_Ok in Hr as [diff [_ Hr]].
    apply io_bind_lift_Ok in Hr as [k [_ Hr]].
    simpl in Hr.
    destruct (get mat _); simpl in Hr; [|discriminate].
    destruct (get mat _); simpl in Hr; discriminate.
Qed.

Lemma general_fallback_General ops_mat norb cn e0 (h : Hamiltonian C) :
  general_fallback ops_mat norb cn e0 = Ok h ->
  exists tensors, h = General tensors cn e0.
Proof.
  unfold general_fallback. intros Hr.
  apply rbind_Ok in Hr as [t2 [_ Hr]]. apply rbind_Ok in Hr as [t4 [_ Hr]].
  apply rbind_Ok in Hr as [t6 [_ Hr]]. apply rbind_Ok in Hr as [t8 [_ Hr]].
  inversion Hr; eauto.
Qed.

Lemma select_representation_result ops_mat norb cn e0 out (h : Hamiltonian C) :
  select_representation ops_mat norb cn e0 = (out, Ok h) ->
  is_sparse h = false /\ e_0_of h = e0.
Proof.
  unfold select_representation, io_lift, io_ret, io_raise. intros Hr.
  assert (Hg : forall r, ([] : list (printed C), r) = (out, Ok h) ->
                         r = general_fallback ops_mat norb cn e0 ->
                         is_sparse h = false /\ e_0_of h = e0).
  { intros r Heq ->. inversion Heq as [[Ho Hh]].
    apply general_fallback_General in Hh as [ts ->]. split; reflexivity. }
  destruct (List.length ops_mat =? 1); [|eapply Hg; eauto].
  destruct (rank_lookup ops_mat 2) as [m2|].
  { eapply process_rank2_matrix_result; eauto. }
  destruct (rank_lookup ops_mat 4) as [m4|]; [|eapply Hg; eauto].
  destruct (check_diagonal_coulomb m4) as [[|]|e]; try discriminate.
  - inversion Hr; split; reflexivity.
  - eapply Hg; eauto.
Qed.

(** What the general case computes on the way to a representation. *)
Lemma dense_pipeline_Ok (ops : FermionOperator C) cn out h :
  dense_pipeline ops cn = (out, Ok h) ->
  exists ops' ops_rank e_0 ops_mat,
    prepare ops cn = Ok ops'
    /\ split_openfermion_tensor ops' = Ok (ops_rank, e_0)
    /\ build_tensors ops_rank (infer_norb ops_rank) [] = Ok ops_mat
    /\ select_representation ops_mat (infer_norb ops_rank) cn e_0 = (out, Ok h).
Proof.
  unfold dense_pipeline. intros Hr.
  apply io_bind_lift_Ok in Hr as [ops' [Hp Hr]].
  apply io_bind_lift_Ok in Hr as [[ops_rank e_0] [Hs Hr]].
  apply io_bind_lift_Ok in Hr as [ops_mat [Hb Hr]].
  exists ops', ops_rank, e_0, ops_mat. auto.
Qed.

Lemma dense_pipeline_not_sparse (ops : FermionOperator C) cn out h :
  dense_pipeline ops cn = (out, Ok h) -> is_sparse h = false.
Proof.
  intros Hr. apply dense_pipeline_Ok in Hr as (ops' & ops_rank & e_0 & ops_mat & _ & _ & _ & Hr).
  eapply select_representation_result; eauto.
Qed.

Lemma build_hamiltonian_dense (ops : FermionOperator C) norb cn e_0 :
  is_hermitian ops = true -> 2 < List.length ops ->
  build_hamiltonian (InFermionOperator ops) norb cn e_0 = dense_pipeline ops cn.
Proof.
  intros Hh Hlen. unfold build_hamiltonian. rewrite Hh. simpl negb. cbv iota.
  assert (Hf : (List.length ops <=? 2) = false) by (apply Nat.leb_gt; lia).
  rewrite Hf. reflexivity.
Qed.

(** C3, as the code has it.  A Hermitian expression with at most two entries
    in [terms], the constant term counted like any other, becomes the sparse
    representation; with more than two entries it goes through the general
    case, which never returns the sparse representation. *)
Theorem sparse_route_counts_every_entry (ops : FermionOperator C) norb cn e_0 :
  is_hermitian ops = true ->
  (List.length ops <= 2 ->
   build_hamiltonian (InFermionOperator ops) norb cn e_0
   = ([], Ok (SparseHamiltonian norb ops cn e_0)))
  /\
  (2 < List.length ops ->
   build_hamiltonian (InFermionOperator ops) norb cn e_0 = dense_pipeline ops cn
   /\ forall out h, dense_pipeline ops cn = (out, Ok h) -> is_sparse h = false).
Proof.
  intros Hh. split; intros Hlen.
  - unfold build_hamiltonian. rewrite Hh. simpl negb. cbv iota.
    apply Nat.leb_le in Hlen. rewrite Hlen. reflexivity.
  - split; [apply build_hamiltonian_dense; assumption|].
    intros out h. apply dense_pipeline_not_sparse.
Qed.

End Routing.

(** What the factory returns for [1 + 0^ 0 + 1^ 1], given back to it *)
Lemma build_hamiltonian_identity_on_representations_witness :
  build_hamiltonian
    (InHamiltonian (Diagonal (mk_ndarray [2] [one; one]) true one)) 3 false zero
  = ([], Ok (Diagonal (mk_ndarray [2] [one; one]) true one)).
Proof.
  apply (proj2 (@build_hamiltonian_identity_on_representations _ _ ordered_input)
               (InFermionOperator ops_const_n0_n1) 0 true zero []
               (Diagonal (mk_ndarray [2] [one; one]) true one)).
  vm_compute. reflexivity.
Defined.

(** C3 at [1 + 0^ 0 + 1^ 1]: two entries apart from the constant term, and
    the factory returns the diagonal representation, not the sparse one. *)
Lemma sparse_route_counts_constant_term :
  nonconstant_entries ops_const_n0_n1 = 2
  /\ build_hamiltonian (InFermionOperator ops_const_n0_n1) 0 true zero
     = ([], Ok (Diagonal (mk_ndarray [2] [one; one]) true one))
  /\ build_hamiltonian (InFermionOperator ops_const_n0_n1) 0 true zero
     <> ([], Ok (SparseHamiltonian 0 ops_const_n0_n1 true zero)).
Proof.
  split; [reflexivity|]. split; [vm_compute; reflexivity|].
  vm_compute. discriminate.
Qed.

(** [1 + 0^ 0 + 1^ 1] has three entries and takes the general case *)
Lemma sparse_route_counts_every_entry_witness :
  build_hamiltonian (InFermionOperator ops_const_n0_n1) 0 true zero
  = dense_pipeline ops_const_n0_n1 true.
Proof.
  apply (proj2 (@sparse_route_counts_every_entry _ _ ordered_input
                  ops_const_n0_n1 0 true zero eq_refl)).
  simpl; lia.
Defined.

(* ================================================================== *)
(** ** Operator strings are read back as written *)

Lemma string_of_uint_digits (d : uint) :
  string_forallb is_digit (NilEmpty.string_of_uint d) = true.
Proof. induction d; simpl; auto. Qed.

Lemma str_digits (n : nat) : string_forallb is_digit (str n) = true.
Proof. apply string_of_uint_digits. Qed.

Lemma str_nonempty (n : nat) : string_is_empty (str n) = false.
Proof.
  unfold str.
  assert (Hn : Nat.to_uint n <> Nil).
  { rewrite <- (Unsigned.of_to n) at 1. rewrite Unsigned.to_of. apply unorm_nonnil. }
  destruct (Nat.to_uint n); try reflexivity. contradiction.
Qed.

Lemma int_str (n : nat) : int (str n) = Ok n.
Proof.
  unfold int. rewrite str_nonempty. unfold str.
  rewrite NilEmpty.usu, Unsigned.of_to. reflexivity.
Qed.

Lemma digit_not_space (c : ascii) : is_digit c = true -> is_space c = false.
Proof.
  unfold is_digit, is_space. generalize (nat_of_ascii c). intros n Hd.
  apply andb_true_iff in Hd as [H1 H2].
  apply Nat.leb_le in H1. apply Nat.leb_le in H2.
  repeat match goal with
         | |- context [?a <=? ?b] => destruct (Nat.leb_spec a b); try lia
         | |- context [?a =? ?b] => destruct (Nat.eqb_spec a b); try lia
         end; reflexivity.
Qed.

Lemma digit_not_caret (c : ascii) : is_digit c = true -> Ascii.eqb c "^"%char = false.
Proof.
  intros Hd. destruct (Ascii.eqb_spec c "^"%char) as [->|]; [discriminate|reflexivity].
Qed.

Lemma string_app_assoc (a b c : string) : ((a ++ b) ++ c = a ++ (b ++ c))%string.
Proof. induction a; simpl; congruence. Qed.

Lemma string_app_empty_r (a : string) : (a ++ "" = a)%string.
Proof. induction a; simpl; congruence. Qed.

(** Reading a run of characters that are not white space extends the token. *)
Lemma split_from_token (tok rest cur : string) :
  string_forallb (fun c => negb (is_space c)) tok = true ->
  split_from (tok ++ rest) cur = split_from rest (cur ++ tok).
Proof.
  revert cur; induction tok as [|c tok IH]; intros cur Htok; simpl.
  - rewrite string_app_empty_r. reflexivity.
  - simpl in Htok. apply andb_true_iff in Htok as [Hc Htok].
    apply negb_true_iff in Hc. rewrite Hc. rewrite IH by assumption.
    rewrite string_app_assoc. reflexivity.
Qed.

Lemma string_forallb_app p (a b : string) :
  string_forallb p (a ++ b) = string_forallb p a && string_forallb p b.
Proof. induction a; simpl; [reflexivity|]. rewrite IHa, andb_assoc. reflexivity. Qed.

Lemma string_forallb_impl (p q : ascii -> bool) (s : string) :
  (forall c, p c = true -> q c = true) ->
  string_forallb p s = true -> string_forallb q s = true.
Proof.
  intros Hpq. induction s; simpl; [auto|].
  intros Hs. apply andb_true_iff in Hs as [? ?]. apply andb_true_iff; auto.
Qed.

Lemma split_token_space (tok rest : string) :
  string_forallb (fun c => negb (is_space c)) tok = true ->
  string_is_empty tok = false ->
  split ((tok ++ " ") ++ rest) = tok :: split rest.
Proof.
  intros Htok Hne. unfold split. rewrite string_app_assoc.
  rewrite split_from_token by assumption.
  simpl. rewrite Hne. reflexivity.
Qed.

Lemma split_last_app (s : string) (c : ascii) :
  split_last (s ++ String c EmptyString) = Some (s, c).
Proof. induction s as [|a s IH]; simpl; [reflexivity|]. rewrite IH. reflexivity. Qed.

Lemma split_last_digits (s : string) :
  string_forallb is_digit s = true -> string_is_empty s = false ->
  exists p c, split_last s = Some (p, c) /\ is_digit c = true.
Proof.
  induction s as [|a s IH]; simpl; [discriminate|].
  intros Hs _. apply andb_true_iff in Hs as [Ha Hs].
  destruct s as [|b s].
  - simpl. eauto.
  - destruct (IH Hs eq_refl) as (p & c & Hl & Hc). rewrite Hl. eauto.
Qed.

Lemma parse_factor_element (element : factor) :
  parse_factor (if snd (spin_broken_factor element)
                then (str (fst element) ++ "^")%string else str (fst element))
  = Ok (spin_broken_factor element).
Proof.
  destruct element as [i a]. unfold spin_broken_factor; cbn [fst snd].
  destruct (if truthy (i mod 2) then negb a else a); cbv beta iota zeta.
  - unfold parse_factor. rewrite split_last_app. simpl Ascii.eqb. cbv iota.
    rewrite int_str. reflexivity.
  - unfold parse_factor.
    destruct (split_last_digits (str i) (str_digits i) (str_nonempty i))
      as (p & c & Hl & Hc).
    rewrite Hl, (digit_not_caret _ Hc), int_str. reflexivity.
Qed.

Lemma opstr_element_shape (element : factor) :
  opstr_element element
  = ((if snd (spin_broken_factor element)
      then (str (fst element) ++ "^") else str (fst element)) ++ " ")%string.
Proof.
  destruct element as [i a]. unfold opstr_element, spin_broken_factor; cbn [fst snd].
  destruct (truthy (i mod 2)), a; cbn [negb]; rewrite ?string_app_assoc; reflexivity.
Qed.

Lemma opstr_fold (t : term) (s : string) :
  fold_left (fun opstr element => (opstr ++ opstr_element element)%string) t s
  = (s ++ opstr_of_term t)%string.
Proof.
  unfold opstr_of_term. revert s; induction t as [|e t IH]; intros s; simpl.
  - rewrite string_app_empty_r. reflexivity.
  - rewrite IH, (IH (opstr_element e)), string_app_assoc. reflexivity.
Qed.

Lemma parse_string_opstr (t : term) :
  parse_string (opstr_of_term t) = Ok (map spin_broken_factor t).
Proof.
  unfold parse_string. induction t as [|e t IH]; [reflexivity|].
  unfold opstr_of_term; simpl. rewrite opstr_fold.
  rewrite opstr_element_shape, split_token_space.
  - cbn [parse_factors]. rewrite parse_factor_element. cbn [rbind].
    rewrite IH. reflexivity.
  - assert (Hd : string_forallb (fun c => negb (is_space c)) (str (fst e)) = true).
    { eapply string_forallb_impl; [|apply str_digits].
      intros c Hc. rewrite (digit_not_space _ Hc). reflexivity. }
    destruct (snd (spin_broken_factor e)); [|exact Hd].
    rewrite string_forallb_app, Hd. reflexivity.
  - pose proof (str_nonempty (fst e)) as Hne.
    destruct (snd (spin_broken_factor e)); [|exact Hne].
    destruct (str (fst e)); [discriminate|reflexivity].
Qed.

(* ================================================================== *)
(** ** The spin-breaking transform *)

Section SpinBrokenProperties.

Context {C : Type} `{Scalar C}.

Lemma terms_get_fresh (ops : FermionOperator C) t d :
  ~ In t (map fst ops) -> terms_get ops t d = d.
Proof.
  induction ops as [|[s c] ops IH]; simpl; [reflexivity|].
  intros Hn. rewrite term_eqb_neq by tauto. apply IH; tauto.
Qed.

Lemma terms_set_fresh (ops : FermionOperator C) t v :
  ~ In t (map fst ops) -> terms_set ops t v = ops ++ [(t, v)].
Proof.
  induction ops as [|[s c] ops IH]; simpl; [reflexivity|].
  intros Hn. rewrite term_eqb_neq by tauto. rewrite IH by tauto. reflexivity.
Qed.

Lemma terms_del_fresh (ops : FermionOperator C) t :
  ~ In t (map fst ops) -> terms_del ops t = ops.
Proof.
  unfold terms_del. induction ops as [|[s c] ops IH]; simpl; [reflexivity|].
  intros Hn. rewrite term_eqb_neq by tauto. simpl. rewrite IH by tauto. reflexivity.
Qed.

(** [self += c * t] for a term [t] the operator does not hold yet *)
Lemma iadd_term_fresh (ops : FermionOperator C) t c :
  ~ In t (map fst ops) ->
  iadd_term ops (t, c) = if issmall c then ops else ops ++ [(t, c)].
Proof.
  intros Hn. unfold iadd_term; simpl fst; simpl snd.
  rewrite terms_get_fresh, add_zero_l, terms_set_fresh by assumption.
  destruct (issmall c); [|reflexivity].
  unfold terms_del. rewrite filter_app. simpl. rewrite term_eqb_refl. simpl.
  rewrite List.app_nil_r. apply terms_del_fresh; assumption.
Qed.

Lemma iadd_fresh (l self : FermionOperator C) :
  NoDup (map fst l) ->
  (forall t, In t (map fst l) -> ~ In t (map fst self)) ->
  iadd self l = self ++ filter (fun e => negb (issmall (snd e))) l.
Proof.
  unfold iadd. revert self; induction l as [|[t c] l IH]; intros self Hnd Hdis; simpl.
  - rewrite List.app_nil_r. reflexivity.
  - inversion Hnd as [|? ? Hnotin Hnd']; subst.
    rewrite iadd_term_fresh by (apply Hdis; left; reflexivity).
    destruct (issmall c); simpl.
    + apply IH; [assumption|]. intros t' Ht'. apply Hdis; right; assumption.
    + rewrite IH; [rewrite <- List.app_assoc; reflexivity | assumption |].
      intros t' Ht'. rewrite map_app, in_app_iff. simpl.
      intros [Hin|[->|[]]]; [|contradiction].
      revert Hin. apply Hdis; right; assumption.
Qed.

Lemma transform_loop_iadd (entries newstr : FermionOperator C) :
  transform_loop entries newstr
  = Ok (iadd newstr (map (fun e => (map spin_broken_factor (fst e), snd e)) entries)).
Proof.
  revert newstr; induction entries as [|[t c] entries IH]; intros newstr; simpl.
  - reflexivity.
  - unfold FermionOperator_of_string. rewrite parse_string_opstr. simpl. apply IH.
Qed.

Lemma spin_broken_factor_involutive (f : factor) :
  spin_broken_factor (spin_broken_factor f) = f.
Proof.
  destruct f as [i a]. unfold spin_broken_factor; cbn [fst snd].
  destruct (truthy (i mod 2)), a; reflexivity.
Qed.

Lemma spin_broken_term_injective (s t : term) :
  map spin_broken_factor s = map spin_broken_factor t -> s = t.
Proof.
  intros Heq. apply (f_equal (map spin_broken_factor)) in Heq.
  rewrite !map_map in Heq.
  rewrite !(map_ext _ (fun f => f) spin_broken_factor_involutive), !map_id in Heq.
  exact Heq.
Qed.

(** C1, as the code has it.  The transform gives every factor with an odd
    (beta) orbital index the other role and leaves every factor with an even
    (alpha) index as it is; terms keep their order and their coefficients.
    The operator library's [+=] does not keep a coefficient it finds
    negligible. *)
Theorem transform_to_spin_broken_flips_beta (ops : FermionOperator C) :
  NoDup (map fst ops) ->
  transform_to_spin_broken ops
  = Ok (filter (fun e => negb (issmall (snd e)))
          (map (fun e => (map spin_broken_factor (fst e), snd e)) ops))
  /\ forall element : factor,
       fst (spin_broken_factor element) = fst element
       /\ (snd (spin_broken_factor element) <> snd element
           <-> Nat.odd (fst element) = true).
Proof.
  intros Hnd. split.
  - unfold transform_to_spin_broken. rewrite transform_loop_iadd.
    rewrite iadd_fresh; [reflexivity | | intros t _ []].
    rewrite map_map; simpl.
    rewrite <- (map_map fst (map spin_broken_factor)).
    apply NoDup_map_NoDup_ForallPairs; [|assumption].
    intros s t _ _. apply spin_broken_term_injective.
  - intros [i a]. unfold spin_broken_factor, truthy; cbn [fst snd].
    split; [reflexivity|].
    rewrite <- Nat.bit0_odd, Nat.bit0_eqb.
    destruct (i mod 2 =? 1) eqn:E1.
    + apply Nat.eqb_eq in E1. rewrite E1. simpl.
      split; [reflexivity|]. intros _. destruct a; discriminate.
    + assert (E0 : i mod 2 = 0).
      { apply Nat.eqb_neq in E1. pose proof (Nat.mod_upper_bound i 2). lia. }
      rewrite E0. simpl. split; [intros Hc; contradiction Hc; reflexivity | discriminate].
Qed.

End SpinBrokenProperties.

(** C1 at [0^ 1]: the code turns the beta annihilation into a creation and
    leaves the alpha creation, where the specification has it the other way
    round. *)
Lemma transform_to_spin_broken_keeps_alpha :
  transform_to_spin_broken ops_0c_1a = Ok [([(0, true); (1, true)], one)]
  /\ map (fun e => (map alpha_flipped_factor (fst e), snd e)) ops_0c_1a
     = [([(0, false); (1, false)], one)]
  /\ transform_to_spin_broken ops_0c_1a
     <> Ok (map (fun e => (map alpha_flipped_factor (fst e), snd e)) ops_0c_1a).
Proof.
  split; [reflexivity|]. split; [reflexivity|]. vm_compute. discriminate.
Qed.

(** The transform at [0^ 1], through the theorem above *)
Lemma transform_to_spin_broken_flips_beta_witness :
  transform_to_spin_broken ops_0c_1a = Ok [([(0, true); (1, true)], one)].
Proof.
  refine (eq_trans (proj1 (transform_to_spin_broken_flips_beta ops_0c_1a _)) _).
  - repeat constructor. simpl. tauto.
  - reflexivity.
Defined.

(* ================================================================== *)
(** ** The general case: offset and orbital count *)

Section GeneralCase.

Context {C : Type} `{Scalar C} `{Collaborators C}.

Lemma many_body_order_single (t : term) (c : C) :
  many_body_order [(t, c)]
  = if issmall c then Raise (ValueError ["max() arg is an empty sequence"%string])
    else Ok (List.length t).
Proof.
  unfold many_body_order; simpl. destruct (issmall c); simpl; [reflexivity|].
  rewrite Nat.max_0_r. reflexivity.
Qed.

(** The splitter adds the coefficient of each constant term to the offset
    and nothing else. *)
Lemma split_loop_offset (entries : FermionOperator C) split e_0 split' e_0' :
  split_loop entries split e_0 = Ok (split', e_0') ->
  e_0' = fold_left add (map snd (filter (fun e => term_eqb (fst e) []) entries)) e_0.
Proof.
  revert split e_0; induction entries as [|[t c] entries IH]; intros split e_0.
  - simpl. intros Heq; inversion Heq; reflexivity.
  - cbn [split_loop]. rewrite many_body_order_single.
    destruct (issmall c); cbn [rbind]; [discriminate|].
    destruct (truthy (List.length t mod 2)); [discriminate|].
    destruct t as [|f t].
    + simpl. apply IH.
    + cbn [List.length Nat.eqb filter fst term_eqb map snd].
      destruct (rank_lookup split (S (List.length t))); apply IH.
Qed.

Lemma split_openfermion_tensor_offset (ops : FermionOperator C) ops_rank e_0 :
  split_openfermion_tensor ops = Ok (ops_rank, e_0) -> e_0 = constant_terms_sum ops.
Proof. apply split_loop_offset. Qed.

(** C9.  In the general case the [e_0] given by the caller plays no part:
    the result is the same for any two values of it, and the offset of the
    representation returned is the sum of the rank-0 coefficients of the
    normal-ordered expression. *)
Theorem general_case_replaces_e_0 (ops : FermionOperator C) cn :
  is_hermitian ops = true -> 2 < List.length ops ->
  (forall norb e_0 e_0',
      build_hamiltonian (InFermionOperator ops) norb cn e_0
      = build_hamiltonian (InFermionOperator ops) norb cn e_0')
  /\
  (forall norb e_0 out h,
      build_hamiltonian (InFermionOperator ops) norb cn e_0 = (out, Ok h) ->
      exists ops', prepare ops cn = Ok ops' /\ e_0_of h = constant_terms_sum ops').
Proof.
  intros Hh Hlen. split.
  - intros norb e_0 e_0'. rewrite !build_hamiltonian_dense by assumption. reflexivity.
  - intros norb e_0 out h. rewrite build_hamiltonian_dense by assumption.
    intros Hr. apply dense_pipeline_Ok in Hr
      as (ops' & ops_rank & e0s & ops_mat & Hp & Hs & _ & Hr).
    exists ops'. split; [assumption|].
    apply select_representation_result in Hr as [_ ->].
    eapply split_openfermion_tensor_offset; eassumption.
Qed.

(** The orbital count inferred at lines 74-77 covers every rank's blocks. *)
Lemma infer_norb_fold_le (l : list (FermionOperator C)) (n : nat) :
  n <= fold_left infer_norb_step l n.
Proof.
  revert n; induction l as [|sub l IH]; intros n; simpl; [lia|].
  etransitivity; [|apply IH]. unfold infer_norb_step.
  destruct (largest_operator_index sub) as [a b]. lia.
Qed.

Lemma infer_norb_step_covers (n : nat) (sub : FermionOperator C) :
  n + 1 <= infer_norb_step n sub
  /\ alpha_blocks sub <= infer_norb_step n sub
  /\ beta_blocks sub <= infer_norb_step n sub.
Proof.
  unfold infer_norb_step, alpha_blocks, beta_blocks.
  destruct (largest_operator_index sub) as [a b]; cbn [fst snd].
  assert ((b - 1) / 2 <= b / 2)%Z by (apply Z.div_le_mono; lia). lia.
Qed.

Lemma infer_norb_fold_covers (l : list (FermionOperator C)) (n : nat) sub :
  In sub l ->
  1 <= fold_left infer_norb_step l n
  /\ alpha_blocks sub <= fold_left infer_norb_step l n
  /\ beta_blocks sub <= fold_left infer_norb_step l n.
Proof.
  revert n; induction l as [|s l IH]; intros n; simpl; [intros []|].
  intros [->|Hin]; [|apply IH; assumption].
  pose proof (infer_norb_step_covers n sub) as (H1 & H2 & H3).
  pose proof (infer_norb_fold_le l (infer_norb_step n sub)). lia.
Qed.

Lemma infer_norb_covers (ops_rank : list (nat * FermionOperator C)) rank sub :
  In (rank, sub) ops_rank ->
  1 <= infer_norb ops_rank
  /\ alpha_blocks sub <= infer_norb ops_rank
  /\ beta_blocks sub <= infer_norb ops_rank.
Proof.
  intros Hin. apply infer_norb_fold_covers.
  apply (in_map snd) in Hin. exact Hin.
Qed.

End GeneralCase.

(** [1 + 0^ 0 + 1^ 1] built with [e_0 = 0] and with [e_0 = 5 + 3j] *)
Lemma general_case_replaces_e_0_witness :
  build_hamiltonian (InFermionOperator ops_const_n0_n1) 0 true zero
  = build_hamiltonian (InFermionOperator ops_const_n0_n1) 0 true (5%Z, 3%Z).
Proof.
  apply (proj1 (@general_case_replaces_e_0 _ _ ordered_input
                  ops_const_n0_n1 true eq_refl ltac:(simpl; lia))).
Defined.

(* ================================================================== *)
(** ** Arrays *)

Section ArrayFacts.

Context {C : Type} `{Scalar C}.

Lemma list_set_length {A} (l : list A) i v : List.length (list_set l i v) = List.length l.
Proof.
  revert i; induction l as [|x l IH]; intros [|i]; simpl; auto.
Qed.

Lemma nth_error_list_set_eq {A} (l : list A) i v :
  i < List.length l -> nth_error (list_set l i v) i = Some v.
Proof.
  revert i; induction l as [|x l IH]; intros [|i]; simpl; try lia; auto.
  intros Hlt. apply IH. lia.
Qed.

Lemma nth_error_list_set_neq {A} (l : list A) i k v :
  i <> k -> nth_error (list_set l i v) k = nth_error l k.
Proof.
  revert i k; induction l as [|x l IH]; intros [|i] [|k]; simpl; try congruence; auto.
Qed.

(** A multi-index within the shape has an offset within the data. *)
Lemma ravel_in_range (shp index : list nat) :
  Forall2 (fun i d => i < d) index shp ->
  exists o, ravel shp index = Some o /\ o < size_of shp.
Proof.
  intros HF. induction HF as [|i d index shp Hid HF IH]; simpl.
  - exists 0. split; [reflexivity | lia].
  - destruct IH as (o & -> & Ho).
    apply Nat.ltb_lt in Hid as Hb. rewrite Hb.
    exists (i * size_of shp + o). split; [reflexivity|]. nia.
Qed.

Lemma ravel_Some_lt (shp index : list nat) o :
  ravel shp index = Some o -> o < size_of shp.
Proof.
  revert index o; induction shp as [|d shp IH]; intros [|i index] o; simpl;
    try discriminate.
  - intros Heq; inversion Heq; lia.
  - destruct (Nat.ltb_spec i d); [|discriminate].
    destruct (ravel shp index) as [o'|] eqn:E; [|discriminate].
    intros Heq; inversion Heq; subst. specialize (IH _ _ E). nia.
Qed.

Lemma get_Raise (a : ndarray C) index e : get a index = Raise e -> e = IndexError.
Proof.
  unfold get. destruct (ravel _ _); [destruct (nth_error _ _)|]; intros Heq;
    inversion Heq; reflexivity.
Qed.

Lemma get_in_range (a : ndarray C) index :
  well_formed a -> Forall2 (fun i d => i < d) index (shape a) ->
  exists x, get a index = Ok x.
Proof.
  intros Hwf HF. unfold get.
  destruct (ravel_in_range HF) as (o & -> & Ho).
  destruct (nth_error (data a) o) eqn:E; [eauto|].
  apply nth_error_None in E. unfold well_formed in Hwf. lia.
Qed.

Lemma add_at_Raise (a : ndarray C) index c e :
  add_at a index c = Raise e -> e = IndexError.
Proof.
  unfold add_at. destruct (get a index) eqn:E; simpl.
  - destruct (ravel _ _); intros Heq; inversion Heq; reflexivity.
  - intros Heq; inversion Heq; subst. eapply get_Raise; eauto.
Qed.

Lemma add_at_Ok (a : ndarray C) index c a' :
  add_at a index c = Ok a' ->
  shape a' = shape a /\ (well_formed a -> well_formed a').
Proof.
  unfold add_at. destruct (get a index); simpl; [|discriminate].
  destruct (ravel _ _); [|discriminate].
  intros Heq; inversion Heq; subst; simpl. split; [reflexivity|].
  unfold well_formed; simpl. rewrite list_set_length. auto.
Qed.

Lemma add_at_in_range (a : ndarray C) index c :
  well_formed a -> Forall2 (fun i d => i < d) index (shape a) ->
  exists a', add_at a index c = Ok a'.
Proof.
  intros Hwf HF. unfold add_at.
  destruct (get_in_range Hwf HF) as [x ->]. simpl.
  destruct (ravel_in_range HF) as (o & -> & _). eauto.
Qed.

Lemma size_of_repeat (d n : nat) : size_of (repeat d n) = d ^ n.
Proof. induction n; simpl; [reflexivity|]. fold (size_of (repeat d n)). rewrite IHn. reflexivity. Qed.

Lemma zeros_well_formed (shp : list nat) : well_formed (zeros shp).
Proof. unfold well_formed, zeros; simpl. apply repeat_length. Qed.

(** *** Matrices *)

Lemma flat_map_rows_length (c : nat) (f : nat -> nat -> C) (a r : nat) :
  List.length (flat_map (fun i => map (fun j => f i j) (seq 0 c)) (seq a r)) = r * c.
Proof.
  revert a; induction r as [|r IH]; intros a; simpl; [reflexivity|].
  rewrite length_app, length_map, length_seq, IH. reflexivity.
Qed.

Lemma flat_map_rows_nth (c : nat) (f : nat -> nat -> C) (a r i j : nat) d :
  i < r -> j < c ->
  nth (i * c + j) (flat_map (fun i => map (fun j => f i j) (seq 0 c)) (seq a r)) d
  = f (a + i) j.
Proof.
  revert a i; induction r as [|r IH]; intros a i Hi Hj; [lia|]. simpl.
  destruct i as [|i].
  - simpl. rewrite app_nth1 by (rewrite length_map, length_seq; assumption).
    rewrite (nth_indep _ d (f a 0)) by (rewrite length_map, length_seq; assumption).
    rewrite (map_nth (fun j => f a j) (seq 0 c) 0 j), seq_nth by assumption.
    rewrite Nat.add_0_r. reflexivity.
  - rewrite app_nth2 by (rewrite length_map, length_seq; simpl; lia).
    rewrite length_map, length_seq.
    replace (S i * c + j - c) with (i * c + j) by (simpl; lia).
    rewrite IH by lia. f_equal. lia.
Qed.

Lemma tabulate2_well_formed r c (f : nat -> nat -> C) : well_formed (tabulate2 r c f).
Proof.
  unfold well_formed, tabulate2; simpl. rewrite flat_map_rows_length. lia.
Qed.

Lemma at2_tabulate2 r c (f : nat -> nat -> C) i j :
  i < r -> j < c -> at2 (tabulate2 r c f) i j = f i j.
Proof.
  intros Hi Hj. unfold at2, cols, tabulate2; simpl.
  apply (flat_map_rows_nth f 0 zero Hi Hj).
Qed.

Lemma flat_map_ext_In {A B} (f g : A -> list B) (l : list A) :
  (forall x, In x l -> f x = g x) -> flat_map f l = flat_map g l.
Proof.
  induction l as [|x l IH]; simpl; [reflexivity|].
  intros Hfg. rewrite Hfg by (left; reflexivity). rewrite IH; [reflexivity|].
  intros y Hy. apply Hfg. right; assumption.
Qed.

Lemma tabulate2_ext r c (f g : nat -> nat -> C) :
  (forall i j, i < r -> j < c -> f i j = g i j) -> tabulate2 r c f = tabulate2 r c g.
Proof.
  intros Hfg. unfold tabulate2. f_equal.
  apply flat_map_ext_In. intros i Hi. apply in_seq in Hi.
  apply map_ext_in. intros j Hj. apply in_seq in Hj. apply Hfg; lia.
Qed.

Lemma existsb_map {A B} (p : B -> bool) (f : A -> B) (l : list A) :
  existsb p (map f l) = existsb (fun x => p (f x)) l.
Proof. induction l as [|x l IH]; simpl; [reflexivity|]. rewrite IH. reflexivity. Qed.

Lemma existsb_flat_map {A B} (p : B -> bool) (f : A -> list B) (l : list A) :
  existsb p (flat_map f l) = existsb (fun x => existsb p (f x)) l.
Proof.
  induction l as [|x l IH]; simpl; [reflexivity|].
  rewrite existsb_app, IH. reflexivity.
Qed.

Lemma existsb_tabulate2 (p : C -> bool) r c (f : nat -> nat -> C) :
  existsb p (data (tabulate2 r c f))
  = existsb (fun i => existsb (fun j => p (f i j)) (seq 0 c)) (seq 0 r).
Proof.
  unfold tabulate2; simpl. rewrite existsb_flat_map.
  induction (seq 0 r) as [|i l IH]; simpl; [reflexivity|].
  rewrite existsb_map, IH. reflexivity.
Qed.

(** Reading an entry of a well-formed matrix *)
Lemma get_matrix (m : ndarray C) r c i j :
  shape m = [r; c] -> well_formed m -> i < r -> j < c ->
  get m [i; j] = Ok (at2 m i j).
Proof.
  intros Hs Hwf Hi Hj. unfold get, at2, cols. rewrite Hs. simpl.
  apply Nat.ltb_lt in Hi as Hib. apply Nat.ltb_lt in Hj as Hjb. rewrite Hib, Hjb.
  unfold well_formed in Hwf. rewrite Hs in Hwf. simpl in Hwf.
  replace (i * (c * 1) + (j * 1 + 0)) with (i * c + j) by lia.
  destruct (nth_error (data m) (i * c + j)) eqn:E.
  - rewrite (nth_error_nth _ _ _ E). reflexivity.
  - apply nth_error_None in E. nia.
Qed.

Lemma bat_in_range (m : ndarray C) i j :
  i < rows m -> j < cols m -> bat m i j = at2 m i j.
Proof.
  intros Hi Hj. unfold bat.
  destruct (Nat.eqb_spec (rows m) 1) as [E1|_], (Nat.eqb_spec (cols m) 1) as [E2|_];
    repeat f_equal; lia.
Qed.

End ArrayFacts.

(* ================================================================== *)
(** ** The diagonal-Coulomb check *)

Section DiagonalCoulomb.

Context {C : Type} `{Scalar C}.

(** A loop that only ever returns [False] returns it at the first element
    that asks for it. *)
Lemma for_return_flag {A} (l : list A) (body : A -> result (option bool))
    (p : A -> bool) :
  (forall x, In x l -> body x = Ok (if p x then Some false else None)) ->
  for_return l body = Ok (if existsb p l then Some false else None).
Proof.
  induction l as [|x l IH]; simpl; [reflexivity|].
  intros Hb. rewrite (Hb x) by (left; reflexivity). simpl.
  destruct (p x); simpl; [reflexivity|].
  apply IH. intros y Hy. apply Hb. right; assumption.
Qed.

Lemma get_rank4 (mat : ndarray C) d i j k l :
  shape mat = [d; d; d; d] -> well_formed mat ->
  i < d -> j < d -> k < d -> l < d ->
  get mat [i; j; k; l] = Ok (entry4 mat i j k l).
Proof.
  intros Hs Hwf Hi Hj Hk Hl. unfold entry4.
  destruct (get_in_range (a:=mat) (index:=[i; j; k; l]) Hwf) as [x ->]; [|reflexivity].
  rewrite Hs. repeat constructor; assumption.
Qed.

Lemma check_diagonal_coulomb_scan (mat : ndarray C) d :
  shape mat = [d; d; d; d] -> well_formed mat ->
  check_diagonal_coulomb mat
  = Ok (negb (existsb (fun i => existsb (fun j => existsb (fun k =>
          existsb (fun l => off_pattern mat i j k l)
                  (seq 0 d)) (seq 0 d)) (seq 0 d)) (seq 0 d))).
Proof.
  intros Hs Hwf. unfold check_diagonal_coulomb. rewrite Hs. cbn [nth].
  rewrite (for_return_flag _ _
    (fun i => existsb (fun j => existsb (fun k =>
       existsb (fun l => off_pattern mat i j k l) (seq 0 d)) (seq 0 d)) (seq 0 d))).
  - simpl. destruct (existsb _ _); reflexivity.
  - intros i Hi. apply in_seq in Hi. apply for_return_flag.
    intros j Hj. apply in_seq in Hj. apply for_return_flag.
    intros k Hk. apply in_seq in Hk. apply for_return_flag.
    intros l Hl. apply in_seq in Hl. unfold off_pattern.
    destruct ((i =? k) && (j =? l)); simpl; [reflexivity|].
    rewrite (get_rank4 (d:=d)) by (assumption || lia). simpl.
    destruct (nonzero _); reflexivity.
Qed.

(** The check answers [True] exactly on the diagonal-Coulomb pattern. *)
Lemma check_diagonal_coulomb_spec (mat : ndarray C) d :
  shape mat = [d; d; d; d] -> well_formed mat ->
  exists b, check_diagonal_coulomb mat = Ok b
            /\ (b = true <-> diagonal_coulomb_pattern mat).
Proof.
  intros Hs Hwf. rewrite (check_diagonal_coulomb_scan Hs Hwf).
  eexists; split; [reflexivity|].
  unfold diagonal_coulomb_pattern. rewrite Hs. cbn [nth].
  rewrite negb_true_iff. split.
  - intros Hno i j k l Hi Hj Hk Hl Hnot.
    exists (entry4 mat i j k l). split; [apply (get_rank4 (d:=d)); assumption|].
    destruct (nonzero (entry4 mat i j k l)) eqn:En; [|reflexivity].
    assert (Hex : existsb (fun i => existsb (fun j => existsb (fun k =>
              existsb (fun l => off_pattern mat i j k l)
                (seq 0 d)) (seq 0 d)) (seq 0 d)) (seq 0 d) = true).
    { apply existsb_exists. exists i. split; [apply in_seq; lia|].
      apply existsb_exists. exists j. split; [apply in_seq; lia|].
      apply existsb_exists. exists k. split; [apply in_seq; lia|].
      apply existsb_exists. exists l. split; [apply in_seq; lia|].
      unfold off_pattern. rewrite En, andb_true_r. apply negb_true_iff.
      apply andb_false_iff.
      destruct (Nat.eqb_spec i k), (Nat.eqb_spec j l); auto. tauto. }
    congruence.
  - intros Hpat.
    destruct (existsb _ _) eqn:Hex; [|reflexivity]. exfalso.
    apply existsb_exists in Hex as (i & Hi & Hex). apply in_seq in Hi.
    apply existsb_exists in Hex as (j & Hj & Hex). apply in_seq in Hj.
    apply existsb_exists in Hex as (k & Hk & Hex). apply in_seq in Hk.
    apply existsb_exists in Hex as (l & Hl & Hex). apply in_seq in Hl.
    unfold off_pattern in Hex. apply andb_true_iff in Hex as [Hne Hnz].
    apply negb_true_iff, andb_false_iff in Hne.
    destruct (Hpat i j k l) as (x & Hx & Hz); try lia.
    + intros [-> ->]. rewrite !Nat.eqb_refl in Hne. destruct Hne; discriminate.
    + rewrite (get_rank4 (d:=d)) in Hx by (assumption || lia).
      inversion Hx; subst. congruence.
Qed.

End DiagonalCoulomb.

(* ================================================================== *)
(** ** The tensor builder *)

Section TensorBuilderFacts.

Context {C : Type} `{Scalar C}.

Lemma canonical_orderb_spec (rank : nat) (t : term) :
  List.length t = rank ->
  canonical_orderb rank t = true <-> canonical_order rank t.
Proof.
  intros Hlen. unfold canonical_orderb, canonical_order. rewrite forallb_forall.
  split.
  - intros Hall i ele Hnth.
    assert (Hi : i < rank) by (rewrite <- Hlen; apply nth_error_Some; congruence).
    specialize (Hall i ltac:(apply in_seq; lia)).
    unfold role_ok in Hall. rewrite Hnth in Hall.
    destruct (Nat.ltb_spec i (rank / 2)); split; intros; try lia; auto.
    apply negb_true_iff; assumption.
  - intros Hcan i Hi. unfold role_ok.
    destruct (nth_error t i) as [ele|] eqn:Hnth; [|reflexivity].
    destruct (Hcan i ele Hnth) as [Hc Ha].
    destruct (Nat.ltb_spec i (rank / 2)); [auto|].
    apply negb_true_iff; auto.
Qed.

(** *** The loop over the factors of one term *)

Lemma mask_loop_Raise (t : term) rank ablk positions index_mask e :
  mask_loop t rank ablk positions index_mask = Raise e ->
  e = IndexError \/ ordering_error e.
Proof.
  revert index_mask; induction positions as [|i rest IH]; intros index_mask;
    cbn [mask_loop]; [discriminate|].
  destruct (nth_error t i) as [ele|]; [|intros Heq; inversion Heq; auto].
  destruct (i <? rank / 2), (snd ele); cbn [negb rbind];
    try (intros Heq; inversion Heq; right; unfold ordering_error; auto; fail);
    apply IH.
Qed.

Lemma mask_loop_roles (t : term) rank ablk positions index_mask :
  (forall i, In i positions -> i < List.length t) ->
  if forallb (role_ok rank t) positions
  then exists m, mask_loop t rank ablk positions index_mask = Ok m
  else exists e, mask_loop t rank ablk positions index_mask = Raise e
                 /\ ordering_error e.
Proof.
  revert index_mask; induction positions as [|i rest IH]; intros index_mask Hpos.
  - simpl. eauto.
  - cbn [forallb mask_loop]. unfold role_ok at 1.
    destruct (nth_error t i) as [ele|] eqn:Hnth.
    2:{ apply nth_error_None in Hnth. specialize (Hpos i (or_introl eq_refl)). lia. }
    specialize (IH (list_set index_mask i (blocked_index (fst ele) ablk))
                   (fun k Hk => Hpos k (or_intror Hk))).
    destruct (i <? rank / 2), (snd ele); cbn [negb rbind andb];
      try exact IH; eexists; split; try reflexivity; unfold ordering_error; auto.
Qed.

Lemma mask_loop_values (t : term) rank ablk positions index_mask m :
  mask_loop t rank ablk positions index_mask = Ok m ->
  List.length m = List.length index_mask
  /\ forall k, k < List.length index_mask ->
       (In k positions ->
        exists ele, nth_error t k = Some ele
                    /\ nth_error m k = Some (blocked_index (fst ele) ablk))
       /\ (~ In k positions -> nth_error m k = nth_error index_mask k).
Proof.
  revert index_mask; induction positions as [|i rest IH]; intros index_mask.
  - simpl. intros Heq; inversion Heq; subst. split; [reflexivity|].
    intros k _. split; [intros []|reflexivity].
  - cbn [mask_loop]. destruct (nth_error t i) as [ele|] eqn:Hnth; [|discriminate].
    intros Hr. apply rbind_Ok in Hr as [_ [_ Hr]].
    apply IH in Hr as [Hlen Hval]. rewrite list_set_length in Hlen, Hval.
    split; [assumption|]. intros k Hk. destruct (Hval k Hk) as [Hin Hout].
    destruct (in_dec Nat.eq_dec k rest) as [Hkr|Hkr].
    + split; [intros _; auto|]. intros Hn. contradiction Hn. right; assumption.
    + split.
      * intros [->|Hkr']; [|contradiction].
        exists ele. split; [assumption|].
        rewrite (Hout Hkr). apply nth_error_list_set_eq; assumption.
      * intros Hn. rewrite (Hout Hkr). apply nth_error_list_set_neq.
        intros ->. apply Hn. left; reflexivity.
Qed.

(** *** The highest indices bound every index *)

Lemma largest_in_term_mono (t : term) (acc : Z * Z) :
  (fst acc <= fst (largest_in_term t acc))%Z
  /\ (snd acc <= snd (largest_in_term t acc))%Z.
Proof.
  unfold largest_in_term. revert acc; induction t as [|ele t IH]; intros [me mo];
    cbn [fold_left fst snd]; [lia|].
  destruct (truthy (fst ele mod 2));
    match goal with |- context [fold_left ?f t ?a] => specialize (IH a) end;
    cbn [fst snd] in IH; lia.
Qed.

Lemma largest_in_term_bound (t : term) (acc : Z * Z) ele :
  In ele t -> index_bounded (largest_in_term t acc) ele.
Proof.
  unfold largest_in_term. revert acc; induction t as [|x t IH]; intros [me mo];
    cbn [fold_left In]; [intros []|].
  intros [->|Hin]; [|apply IH; assumption].
  unfold index_bounded.
  destruct (truthy (fst ele mod 2)) eqn:E;
    match goal with |- context [fold_left ?f t ?a] =>
      pose proof (largest_in_term_mono t a) as Hm end;
    unfold largest_in_term in Hm; cbn [fst snd] in Hm; lia.
Qed.

Lemma largest_fold_mono (ops : FermionOperator C) (acc : Z * Z) :
  (fst acc <= fst (fold_left (fun acc e => largest_in_term (fst e) acc) ops acc))%Z
  /\ (snd acc <= snd (fold_left (fun acc e => largest_in_term (fst e) acc) ops acc))%Z.
Proof.
  revert acc; induction ops as [|[t c] ops IH]; intros acc; simpl; [lia|].
  pose proof (largest_in_term_mono t acc).
  specialize (IH (largest_in_term t acc)). lia.
Qed.

Lemma largest_operator_index_bound (ops : FermionOperator C) t c ele :
  In (t, c) ops -> In ele t -> index_bounded (largest_operator_index ops) ele.
Proof.
  unfold largest_operator_index. generalize ((-1)%Z, (-1)%Z) as acc.
  induction ops as [|[s d] ops IH]; intros acc; simpl; [intros []|].
  intros [Heq|Hin] Hele; [|apply IH; assumption].
  inversion Heq; subst.
  pose proof (largest_in_term_bound t acc ele Hele) as Hb.
  pose proof (largest_fold_mono ops (largest_in_term t acc)) as Hm.
  unfold index_bounded in *. destruct (truthy (fst ele mod 2)); lia.
Qed.

Lemma largest_operator_index_ge (ops : FermionOperator C) :
  (-1 <= fst (largest_operator_index ops))%Z
  /\ (-1 <= snd (largest_operator_index ops))%Z.
Proof. apply (largest_fold_mono ops ((-1)%Z, (-1)%Z)). Qed.

(** Every blocked coordinate lies inside a tensor of [2 * half] positions
    per axis whose half covers both block counts. *)
Lemma blocked_index_lt (ops : FermionOperator C) t c ele half :
  In (t, c) ops -> In ele t ->
  alpha_blocks ops <= half -> beta_blocks ops <= half ->
  blocked_index (fst ele) half < 2 * half.
Proof.
  intros Hin Hele Ha Hb.
  pose proof (largest_operator_index_bound ops t c ele Hin Hele) as Hbd.
  unfold index_bounded, alpha_blocks, beta_blocks, blocked_index, truthy in *.
  destruct (largest_operator_index ops) as [me mo]; cbn [fst snd] in *.
  set (i := fst ele) in *.
  pose proof (Nat.div_mod_eq i 2) as Hdm.
  pose proof (Nat.mod_upper_bound i 2 ltac:(lia)) as Hmod.
  destruct (Nat.eqb_spec (i mod 2) 0) as [E|E]; cbn [negb] in *.
  - assert (Z.of_nat (i / 2) <= me / 2)%Z.
    { rewrite Nat2Z.inj_div. apply Z.div_le_mono; lia. }
    lia.
  - assert (Hi1 : (i - 1) / 2 = i / 2).
    { replace (i - 1) with (0 + (i / 2) * 2) by lia.
      rewrite Nat.div_add by lia. reflexivity. }
    assert (Z.of_nat (i / 2) <= (mo - 1) / 2)%Z.
    { rewrite <- Hi1, Nat2Z.inj_div. apply Z.div_le_mono; lia. }
    lia.
Qed.

(** *** The loop over the terms *)

Lemma term_loop_Raise (entries : FermionOperator C) rank ablk index_mask tensor e :
  term_loop entries rank ablk index_mask tensor = Raise e ->
  e = IndexError \/ ordering_error e.
Proof.
  revert index_mask tensor; induction entries as [|[t c] rest IH];
    intros index_mask tensor; cbn [term_loop]; [discriminate|].
  destruct (mask_loop t rank ablk (seq 0 rank) index_mask) as [m|e'] eqn:Em;
    cbn [rbind].
  - destruct (add_at tensor m c) as [tensor'|e'] eqn:Ea; cbn [rbind].
    + apply IH.
    + intros Heq; inversion Heq; subst. left. eapply add_at_Raise; eauto.
  - intros Heq; inversion Heq; subst. eapply mask_loop_Raise; eauto.
Qed.

Lemma term_loop_Ok (entries : FermionOperator C) rank ablk index_mask tensor tensor' :
  term_loop entries rank ablk index_mask tensor = Ok tensor' ->
  shape tensor' = shape tensor /\ (well_formed tensor -> well_formed tensor').
Proof.
  revert index_mask tensor; induction entries as [|[t c] rest IH];
    intros index_mask tensor; cbn [term_loop].
  - intros Heq; inversion Heq; subst. auto.
  - intros Hr. apply rbind_Ok in Hr as (m & _ & Hr).
    apply rbind_Ok in Hr as (tensor1 & Ha & Hr).
    apply add_at_Ok in Ha as [Hs Hw]. apply IH in Hr as [Hs' Hw'].
    split; [congruence | auto].
Qed.

Lemma Forall2_lt_repeat (m : list nat) (dim n : nat) :
  List.length m = n ->
  (forall k v, nth_error m k = Some v -> v < dim) ->
  Forall2 (fun i d => i < d) m (repeat dim n).
Proof.
  revert n; induction m as [|v m IH]; intros [|n] Hlen Hv; simpl in *;
    try discriminate; constructor.
  - apply (Hv 0 v). reflexivity.
  - apply IH; [lia|]. intros k w Hk. apply (Hv (S k) w). exact Hk.
Qed.

(** On terms of one length whose coordinates fit the tensor, the loop fails
    exactly when a term is out of canonical order, and then with one of the
    two ordering errors. *)
Lemma term_loop_single_rank (entries : FermionOperator C) rank half
    index_mask tensor :
  (forall t c, In (t, c) entries ->
     List.length t = rank
     /\ forall ele, In ele t -> blocked_index (fst ele) half < 2 * half) ->
  List.length index_mask = rank ->
  shape tensor = repeat (2 * half) rank -> well_formed tensor ->
  if forallb (fun e => canonical_orderb rank (fst e)) entries
  then exists tensor', term_loop entries rank half index_mask tensor = Ok tensor'
  else exists e, term_loop entries rank half index_mask tensor = Raise e
                 /\ ordering_error e.
Proof.
  revert index_mask tensor; induction entries as [|[t c] rest IH];
    intros index_mask tensor Hent Hmask Hshape Hwf.
  - simpl. eauto.
  - cbn [forallb term_loop fst].
    destruct (Hent t c (or_introl eq_refl)) as [Hlen Hfit].
    pose proof (mask_loop_roles t rank half (seq 0 rank) index_mask) as Hroles.
    unfold canonical_orderb at 1.
    destruct (forallb (role_ok rank t) (seq 0 rank)).
    2:{ destruct Hroles as (e & -> & He).
        { intros i Hi. apply in_seq in Hi. lia. }
        cbn [andb rbind]. eauto. }
    destruct Hroles as (m & Hm).
    { intros i Hi. apply in_seq in Hi. lia. }
    rewrite Hm. cbn [andb rbind].
    apply mask_loop_values in Hm as [Hlm Hval].
    assert (HF : Forall2 (fun i d => i < d) m (shape tensor)).
    { rewrite Hshape. apply Forall2_lt_repeat; [congruence|].
      intros k v Hk.
      assert (Hkr : k < List.length index_mask).
      { rewrite <- Hlm. apply nth_error_Some. congruence. }
      destruct (Hval k Hkr) as [Hin _].
      destruct Hin as (ele & Hele & Hmk); [apply in_seq; lia|].
      rewrite Hmk in Hk. inversion Hk; subst.
      apply Hfit. eapply nth_error_In; eauto. }
    destruct (add_at_in_range c Hwf HF) as [tensor1 Ha]. rewrite Ha. cbn [rbind].
    apply add_at_Ok in Ha as [Hs1 Hw1].
    apply IH; [|congruence|congruence|auto].
    intros t' c' Hin. apply (Hent t' c'). right; assumption.
Qed.

(** *** The rank of a single-rank expression *)

Lemma fold_max_uniform (l : list (term * C)) (rank : nat) :
  l <> [] -> (forall e, In e l -> List.length (fst e) = rank) ->
  fold_right Nat.max 0 (map (fun e => List.length (fst e)) l) = rank.
Proof.
  unfold term in *.
  induction l as [|e l IH]; [congruence|]. intros _ Hall. cbn [fold_right map].
  rewrite (Hall e) by (left; reflexivity).
  destruct l as [|e' l]; [cbn [fold_right map]; lia|].
  rewrite IH; [lia | discriminate |]. intros x Hx. apply Hall. right; assumption.
Qed.

Lemma many_body_order_single_rank (ops : FermionOperator C) (rank r : nat) :
  ops <> [] -> (forall e, In e ops -> List.length (fst e) = rank) ->
  many_body_order ops = Ok r -> r = rank.
Proof.
  intros Hne Hall. unfold many_body_order.
  destruct ops as [|e0 ops0]; [congruence|].
  remember (filter (fun e => negb (issmall (snd e))) (e0 :: ops0)) as kept eqn:Ek.
  destruct kept as [|k kept]; [discriminate|].
  intros Heq; injection Heq as <-.
  refine (fold_max_uniform (l := k :: kept) _ _); [discriminate|].
  intros e He. apply Hall. rewrite Ek in He. apply filter_In in He as [He _].
  exact He.
Qed.

Lemma many_body_order_uniform (ops : FermionOperator C) (rank : nat) :
  ops <> [] ->
  (forall e, In e ops -> List.length (fst e) = rank /\ issmall (snd e) = false) ->
  many_body_order ops = Ok rank.
Proof.
  intros Hne Hall. unfold many_body_order.
  destruct ops as [|e0 ops0]; [congruence|].
  assert (Hk : filter (fun e => negb (issmall (snd e))) (e0 :: ops0) = e0 :: ops0).
  { apply forallb_filter_id. apply forallb_forall. intros e He.
    destruct (Hall e He) as [_ ->]. reflexivity. }
  rewrite Hk. f_equal. apply fold_max_uniform; [discriminate|].
  intros e He. apply Hall; assumption.
Qed.

(** *** The builder *)

Lemma fermionops_tomatrix_Ok (ops : FermionOperator C) norb tensor :
  fermionops_tomatrix ops norb = Ok tensor ->
  exists rank dim,
    many_body_order ops = Ok rank
    /\ (truthy norb = true -> dim = 2 * norb)
    /\ shape tensor = repeat dim rank /\ well_formed tensor.
Proof.
  unfold fermionops_tomatrix. intros Hr.
  apply rbind_Ok in Hr as (dim & Hdim & Hr).
  apply rbind_Ok in Hr as (rank & Hrank & Hr).
  destruct (truthy (rank mod 2)); [discriminate|].
  apply term_loop_Ok in Hr as [Hs Hw].
  exists rank, dim. split; [assumption|]. split.
  - intros Ht. rewrite Ht in Hdim.
    destruct (norb <? alpha_blocks ops); [discriminate|].
    destruct (norb <? beta_blocks ops); [discriminate|].
    inversion Hdim; reflexivity.
  - split; [exact Hs | apply Hw, zeros_well_formed].
Qed.

(** With an orbital count that covers both block counts the builder raises
    neither error of the explicit validation. *)
Lemma fermionops_tomatrix_no_dimension_error (ops : FermionOperator C) norb e :
  alpha_blocks ops <= norb -> beta_blocks ops <= norb ->
  fermionops_tomatrix ops norb = Raise e -> ~ dimension_error e.
Proof.
  intros Ha Hb. unfold fermionops_tomatrix.
  apply Nat.ltb_ge in Ha. apply Nat.ltb_ge in Hb. rewrite Ha, Hb.
  assert (Hord : forall x, ordering_error x -> ~ dimension_error x).
  { intros x [-> | ->] [Hd|Hd]; discriminate. }
  destruct (truthy norb); cbn [rbind];
    (destruct (many_body_order ops) as [rank|e'] eqn:Em; cbn [rbind];
     [ destruct (truthy (rank mod 2));
       [ intros Heq; inversion Heq; subst; intros [Hd|Hd]; discriminate
       | intros Hr; apply term_loop_Raise in Hr as [->|Ho];
         [intros [Hd|Hd]; discriminate | auto] ]
     | intros Heq; inversion Heq; subst;
       unfold many_body_order in Em; destruct ops as [|e0 ops0]; [discriminate|];
       destruct (filter _ _); inversion Em; subst; intros [Hd|Hd]; discriminate ]).
Qed.

(** The builder, step by step: it stops at the validation of [norb], at
    the rank, or runs the loop over the terms on a tensor that has room for
    both spin blocks. *)
Lemma fermionops_tomatrix_steps (ops : FermionOperator C) norb :
  (truthy norb = true /\ norb < alpha_blocks ops
   /\ fermionops_tomatrix ops norb
      = Raise (ValueError ["Highest alpha index exceeds the norb of orbitals"%string]))
  \/ (truthy norb = true /\ norb < beta_blocks ops
      /\ fermionops_tomatrix ops norb
         = Raise (ValueError ["Highest beta index exceeds the norb of orbitals"%string]))
  \/ (exists half,
        alpha_blocks ops <= half /\ beta_blocks ops <= half
        /\ fermionops_tomatrix ops norb
           = (rank <- many_body_order ops ;;
              if truthy (rank mod 2) then
                Raise (ValueError ["Odd rank operator not supported"%string])
              else term_loop ops rank half (repeat 0 rank)
                             (zeros (repeat (2 * half) rank)))).
Proof.
  unfold fermionops_tomatrix.
  destruct (truthy norb) eqn:Et.
  - destruct (Nat.ltb_spec norb (alpha_blocks ops)); [left; auto|].
    destruct (Nat.ltb_spec norb (beta_blocks ops)); [right; left; auto|].
    right; right. exists norb. repeat split; try assumption.
    cbn [rbind]. rewrite (Nat.mul_comm 2 norb), Nat.div_mul by lia. reflexivity.
  - right; right. exists (Nat.max (alpha_blocks ops) (beta_blocks ops)).
    split; [lia|]. split; [lia|]. cbn [rbind].
    rewrite Nat.mul_max_distr_l.
    rewrite (Nat.mul_comm 2 (Nat.max _ _)), Nat.div_mul by lia. reflexivity.
Qed.

Lemma reaches_not_rejected (ops : FermionOperator C) norb :
  dimension_accepted ops norb -> truthy norb = true ->
  ~ norb < alpha_blocks ops /\ ~ norb < beta_blocks ops.
Proof.
  unfold dimension_accepted, truthy. intros [->|[Ha Hb]] Ht; [discriminate|lia].
Qed.

Lemma even_not_truthy_mod (rank : nat) :
  Nat.even rank = true -> truthy (rank mod 2) = false.
Proof.
  intros He. apply Nat.even_spec in He as [k ->]. unfold truthy.
  rewrite Nat.mul_comm, Nat.Div0.mod_mul. reflexivity.
Qed.

Lemma term_loop_on_expression (ops : FermionOperator C) rank half :
  (forall e, In e ops -> List.length (fst e) = rank) ->
  alpha_blocks ops <= half -> beta_blocks ops <= half ->
  if forallb (fun e => canonical_orderb rank (fst e)) ops
  then exists tensor,
         term_loop ops rank half (repeat 0 rank) (zeros (repeat (2 * half) rank))
         = Ok tensor
  else exists e,
         term_loop ops rank half (repeat 0 rank) (zeros (repeat (2 * half) rank))
         = Raise e /\ ordering_error e.
Proof.
  intros Hsingle Ha Hb. apply term_loop_single_rank.
  - intros t c Hin. split; [apply (Hsingle (t, c) Hin)|].
    intros ele Hele. eapply blocked_index_lt; eauto.
  - apply repeat_length.
  - reflexivity.
  - apply zeros_well_formed.
Qed.

(** C7.  In a sub-expression whose terms all have the same number of factors,
    a term with an annihilation operator among its first [rank/2] factors or a
    creation operator among the others makes the builder fail, and with one
    of the two ordering errors once it has accepted the orbital count and the
    rank; when every term is in canonical order no ordering error is raised,
    and the builder returns a tensor. *)
Theorem fermionops_tomatrix_ordering_check (ops : FermionOperator C) norb rank :
  (forall e, In e ops -> List.length (fst e) = rank) ->
  ((exists e, In e ops /\ ~ canonical_order rank (fst e)) ->
   exists x, fermionops_tomatrix ops norb = Raise x
             /\ (reaches_term_loop ops norb rank -> ordering_error x))
  /\
  ((forall e, In e ops -> canonical_order rank (fst e)) ->
   (forall x, fermionops_tomatrix ops norb = Raise x -> ~ ordering_error x)
   /\ (reaches_term_loop ops norb rank ->
       exists tensor, fermionops_tomatrix ops norb = Ok tensor)).
Proof.
  intros Hsingle.
  assert (Hnot : forall x,
             x = ValueError ["Highest alpha index exceeds the norb of orbitals"%string]
             \/ x = ValueError ["Highest beta index exceeds the norb of orbitals"%string]
             \/ x = ValueError ["Odd rank operator not supported"%string]
             \/ x = ValueError ["max() arg is an empty sequence"%string] ->
             ~ ordering_error x).
  { intros x [-> | [-> | [-> | ->]]] [Ho|Ho]; discriminate. }
  assert (Hmbo : forall e, many_body_order ops = Raise e ->
                           e = ValueError ["max() arg is an empty sequence"%string]).
  { unfold many_body_order. intros e. destruct ops as [|e0 ops0]; [discriminate|].
    destruct (filter _ _); intros Heq; inversion Heq; reflexivity. }
  pose proof (fermionops_tomatrix_steps ops norb)
    as [(Ht & Hlt & Hf) | [(Ht & Hlt & Hf) | (half & Ha & Hb & Hf)]].
  - (* the alpha block does not fit *)
    split.
    + intros _. eexists; split; [exact Hf|].
      intros (Hacc & _). destruct (reaches_not_rejected Hacc Ht). contradiction.
    + intros _. split.
      * intros x Hx. rewrite Hf in Hx. inversion Hx; subst. apply Hnot; auto.
      * intros (Hacc & _). destruct (reaches_not_rejected Hacc Ht). contradiction.
  - (* the beta block does not fit *)
    split.
    + intros _. eexists; split; [exact Hf|].
      intros (Hacc & _). destruct (reaches_not_rejected Hacc Ht). contradiction.
    + intros _. split.
      * intros x Hx. rewrite Hf in Hx. inversion Hx; subst. apply Hnot; auto.
      * intros (Hacc & _). destruct (reaches_not_rejected Hacc Ht). contradiction.
  - rewrite Hf. clear Hf.
    destruct (many_body_order ops) as [r|e] eqn:Em; cbn [rbind].
    2:{ split.
        - intros _. exists e. split; [reflexivity|]. intros (_ & Hr & _). congruence.
        - intros _. split.
          + intros x Hx. inversion Hx; subst. apply Hnot. rewrite (Hmbo _ eq_refl); auto.
          + intros (_ & Hr & _). congruence. }
    destruct (truthy (r mod 2)) eqn:Eodd.
    { split.
      - intros _. eexists; split; [reflexivity|].
        intros (_ & Hr & Hev). rewrite Em in Hr. inversion Hr; subst.
        rewrite (even_not_truthy_mod _ Hev) in Eodd. discriminate.
      - intros _. split.
        + intros x Hx. inversion Hx; subst. apply Hnot; auto.
        + intros (_ & Hr & Hev). rewrite Em in Hr. inversion Hr; subst.
          rewrite (even_not_truthy_mod _ Hev) in Eodd. discriminate. }
    destruct ops as [|e0 ops0] eqn:Eops.
    { (* no term at all *)
      split.
      - intros (e & [] & _).
      - intros _. cbn [term_loop]. split; [discriminate | eauto]. }
    rewrite <- Eops in *.
    assert (Hr : r = rank).
    { eapply many_body_order_single_rank; eauto. rewrite Eops; discriminate. }
    subst r.
    pose proof (term_loop_on_expression ops Hsingle Ha Hb) as Hloop.
    split.
    + intros (e & Hin & Hbad).
      assert (Hfalse : forallb (fun e => canonical_orderb rank (fst e)) ops = false).
      { destruct (forallb _ ops) eqn:Eall; [|reflexivity]. exfalso. apply Hbad.
        rewrite forallb_forall in Eall.
        apply canonical_orderb_spec; [apply Hsingle; assumption | apply Eall; assumption]. }
      rewrite Hfalse in Hloop. destruct Hloop as (x & Hx & Ho).
      exists x. split; [assumption | auto].
    + intros Hall.
      assert (Htrue : forallb (fun e => canonical_orderb rank (fst e)) ops = true).
      { apply forallb_forall. intros e He.
        apply canonical_orderb_spec; [apply Hsingle; assumption | apply Hall; assumption]. }
      rewrite Htrue in Hloop. destruct Hloop as (tensor & Htensor).
      split; [|eauto]. intros x Hx. rewrite Htensor in Hx. discriminate.
Qed.

End TensorBuilderFacts.

(** The builder at [2 0^], through the theorem above *)
Lemma fermionops_tomatrix_ordering_check_witness :
  exists x, fermionops_tomatrix ops_out_of_order 0 = Raise x /\ ordering_error x.
Proof.
  destruct (@fermionops_tomatrix_ordering_check _ _ ops_out_of_order 0 2) as [Hbad _].
  - intros e [<-|[]]. reflexivity.
  - destruct Hbad as (x & Hx & Ho).
    + exists ([(2, false); (0, true)], one). split; [left; reflexivity|].
      intros Hc. destruct (Hc 0 (2, false) eq_refl) as [Hcr _].
      specialize (Hcr ltac:(simpl; lia)). discriminate.
    + exists x. split; [exact Hx|]. apply Ho.
      split; [left; reflexivity|]. split; reflexivity.
Defined.

(* ================================================================== *)
(** ** The general case and the caller's orbital count *)

Section OrbitalCount.

Context {C : Type} `{Scalar C} `{Collaborators C}.

(** C10.  In the general case the [norb] given by the caller plays no part:
    the result is the same for any two values of it.  The count used instead
    is inferred from the split expression, is at least 1 and covers the alpha
    and beta blocks of every rank, so the builder never raises an error of
    its orbital-count validation. *)
Theorem general_case_ignores_norb (ops : FermionOperator C) cn e_0 :
  is_hermitian ops = true -> 2 < List.length ops ->
  (forall norb norb',
      build_hamiltonian (InFermionOperator ops) norb cn e_0
      = build_hamiltonian (InFermionOperator ops) norb' cn e_0)
  /\
  (forall ops' ops_rank offset rank sub,
      prepare ops cn = Ok ops' ->
      split_openfermion_tensor ops' = Ok (ops_rank, offset) ->
      In (rank, sub) ops_rank ->
      1 <= infer_norb ops_rank
      /\ alpha_blocks sub <= infer_norb ops_rank
      /\ beta_blocks sub <= infer_norb ops_rank
      /\ forall e, fermionops_tomatrix sub (infer_norb ops_rank) = Raise e ->
                   ~ dimension_error e).
Proof.
  intros Hh Hlen. split.
  - intros norb norb'. rewrite !build_hamiltonian_dense by assumption. reflexivity.
  - intros ops' ops_rank offset rank sub _ _ Hin.
    destruct (infer_norb_covers ops_rank rank sub Hin) as (H1 & Ha & Hb).
    repeat split; try assumption.
    intros e. apply fermionops_tomatrix_no_dimension_error; assumption.
Qed.

End OrbitalCount.

(** [1 + 0^ 0 + 1^ 1] built with [norb = 0] and with [norb = 7] *)
Lemma general_case_ignores_norb_witness :
  build_hamiltonian (InFermionOperator ops_const_n0_n1) 0 true one
  = build_hamiltonian (InFermionOperator ops_const_n0_n1) 7 true one.
Proof.
  apply (proj1 (@general_case_ignores_norb _ _ ordered_input
                  ops_const_n0_n1 true one eq_refl ltac:(simpl; lia))).
Defined.

(* ================================================================== *)
(** ** The rank splitter yields single-rank sub-expressions *)

Section SplitterFacts.

Context {C : Type} `{Scalar C}.

Lemma rank_lookup_In {V} (d : list (nat * V)) k v :
  rank_lookup d k = Some v -> In (k, v) d.
Proof.
  induction d as [|[k' v'] d IH]; simpl; [discriminate|].
  destruct (Nat.eqb_spec k' k) as [->|_].
  - intros Heq; inversion Heq; auto.
  - auto.
Qed.

Lemma In_rank_set {V} (d : list (nat * V)) k v r x :
  In (r, x) (rank_set d k v) -> (r = k /\ x = v) \/ In (r, x) d.
Proof.
  induction d as [|[k' v'] d IH]; simpl.
  - intros [Heq|[]]. inversion Heq; auto.
  - destruct (Nat.eqb_spec k' k) as [->|_]; simpl.
    + intros [Heq|Hin]; [inversion Heq; auto | auto].
    + intros [Heq|Hin]; [auto|]. destruct (IH Hin); auto.
Qed.

Lemma split_invariant_weaken (split : list (nat * FermionOperator C)) t pending :
  split_invariant split (t :: pending) -> split_invariant split pending.
Proof.
  intros Hinv r op Hin. destruct (Hinv r op Hin) as [Hne Hall].
  split; [assumption|]. intros e He. destruct (Hall e He) as (Hl & Hs & Hp).
  repeat split; try assumption. intros Hc. apply Hp. right; assumption.
Qed.

Lemma split_loop_invariant (entries : FermionOperator C) split e_0 split' e_0' :
  NoDup (map fst entries) ->
  split_invariant split (map fst entries) ->
  split_loop entries split e_0 = Ok (split', e_0') ->
  split_invariant split' [].
Proof.
  revert split e_0; induction entries as [|[t c] rest IH]; intros split e_0 Hnd Hinv.
  - simpl. intros Heq; inversion Heq; subst. exact Hinv.
  - cbn [split_loop]. rewrite many_body_order_single.
    destruct (issmall c) eqn:Ec; cbn [rbind]; [discriminate|].
    destruct (truthy (List.length t mod 2)); [discriminate|].
    cbn [map fst] in Hnd, Hinv. inversion Hnd as [|? ? Hfresh Hnd']; subst.
    destruct (List.length t =? 0) eqn:E0.
    { destruct (constant_coefficient [(t, c)]); cbn [rbind]; [|discriminate].
      apply IH; [assumption|]. eapply split_invariant_weaken; eauto. }
    assert (Hnew : forall op,
               (op = [(t, c)] \/ exists op0, In (List.length t, op0) split
                                             /\ op = op0 ++ [(t, c)]) ->
               split_invariant (rank_set split (List.length t) op) (map fst rest)).
    { intros op Hop r x Hin. apply In_rank_set in Hin as [[-> ->]|Hin].
      - destruct Hop as [->|(op0 & Hin0 & ->)].
        + split; [discriminate|]. intros e [<-|[]]. cbn [fst snd]. auto.
        + destruct (Hinv _ _ Hin0) as [Hne Hall].
          split; [destruct op0; discriminate|].
          intros e He. apply in_app_iff in He as [He|[<-|[]]].
          * destruct (Hall e He) as (Hl & Hs & Hp). repeat split; try assumption.
            intros Hc. apply Hp. right; assumption.
          * cbn [fst snd]. auto.
      - eapply split_invariant_weaken; eauto. }
    destruct (rank_lookup split (List.length t)) as [op0|] eqn:El.
    + apply rank_lookup_In in El.
      assert (Hfr : ~ In t (map fst op0)).
      { intros Hc. apply in_map_iff in Hc as (e & <- & He).
        destruct (Hinv _ _ El) as [_ Hall]. destruct (Hall e He) as (_ & _ & Hp).
        apply Hp. left; reflexivity. }
      unfold iadd. cbn [fold_left]. rewrite (@iadd_term_fresh _ _ op0 t c Hfr), Ec.
      apply IH; [assumption|]. apply Hnew. right. eauto.
    + apply IH; [assumption|]. apply Hnew. left; reflexivity.
Qed.

(** Every sub-expression the splitter returns holds terms of its rank only,
    and the builder computes that rank for it. *)
Lemma split_openfermion_tensor_single_rank (ops : FermionOperator C)
    ops_rank e_0 rank sub :
  NoDup (map fst ops) ->
  split_openfermion_tensor ops = Ok (ops_rank, e_0) ->
  In (rank, sub) ops_rank ->
  many_body_order sub = Ok rank
  /\ forall e, In e sub -> List.length (fst e) = rank.
Proof.
  intros Hnd Hs Hin.
  assert (Hinv : split_invariant ops_rank []).
  { eapply split_loop_invariant; [exact Hnd| |exact Hs]. intros r op []. }
  destruct (Hinv _ _ Hin) as [Hne Hall]. split.
  - apply many_body_order_uniform; [assumption|].
    intros e He. destruct (Hall e He) as (? & ? & _). auto.
  - intros e He. apply Hall; assumption.
Qed.

End SplitterFacts.

(* ================================================================== *)
(** ** Rank 4 alone: diagonal Coulomb or the general representation *)

Section RankFour.

Context {C : Type} `{Scalar C} `{Collaborators C}.

Lemma select_rank4 (tensor : ndarray C) norb cn offset :
  select_representation [(4, tensor)] norb cn offset
  = match check_diagonal_coulomb tensor with
    | Raise e => io_raise e
    | Ok true => io_ret (DiagonalCoulomb tensor offset)
    | Ok false =>
        io_ret (General [zeros [2 * norb; 2 * norb]; tensor;
                         zeros (repeat (2 * norb) 6); zeros (repeat (2 * norb) 8)]
                        cn offset)
    end.
Proof.
  unfold select_representation. cbn [List.length Nat.eqb rank_lookup].
  destruct (check_diagonal_coulomb tensor) as [[|]|e]; reflexivity.
Qed.

(** C5.  When the split expression has rank 4 only, the tensor built for it
    is classified diagonal Coulomb exactly when every entry at [(i, j, k, l)]
    with not ([i == k] and [j == l]) is zero; with a single entry off that
    pattern the factory returns the general representation of the zero-filled
    ranks 2, 6 and 8 around it. *)
Theorem rank4_diagonal_coulomb_or_general (ops : FermionOperator C) norb cn e_0
    ops' sub offset tensor :
  is_hermitian ops = true -> 2 < List.length ops ->
  prepare ops cn = Ok ops' -> NoDup (map fst ops') ->
  split_openfermion_tensor ops' = Ok ([(4, sub)], offset) ->
  fermionops_tomatrix sub (infer_norb [(4, sub)]) = Ok tensor ->
  (diagonal_coulomb_pattern tensor <->
   build_hamiltonian (InFermionOperator ops) norb cn e_0
   = ([], Ok (DiagonalCoulomb tensor offset)))
  /\
  (~ diagonal_coulomb_pattern tensor ->
   build_hamiltonian (InFermionOperator ops) norb cn e_0
   = ([], Ok (General [zeros [2 * infer_norb [(4, sub)]; 2 * infer_norb [(4, sub)]];
                       tensor;
                       zeros (repeat (2 * infer_norb [(4, sub)]) 6);
                       zeros (repeat (2 * infer_norb [(4, sub)]) 8)]
                      cn offset))).
Proof.
  intros Hh Hlen Hp Hnd Hs Ht.
  rewrite build_hamiltonian_dense by assumption.
  unfold dense_pipeline.
  rewrite (io_bind_lift_eq _ Hp), (io_bind_lift_eq _ Hs). cbn [fst snd].
  set (n := infer_norb [(4, sub)]) in *.
  assert (Hb : build_tensors [(4, sub)] n [] = Ok [(4, tensor)]).
  { cbn [build_tensors]. rewrite Ht. reflexivity. }
  rewrite (io_bind_lift_eq _ Hb), select_rank4.
  destruct (@split_openfermion_tensor_single_rank _ _ ops' [(4, sub)] offset 4 sub
              Hnd Hs (or_introl eq_refl))
    as [Hrank _].
  destruct (infer_norb_covers [(4, sub)] 4 sub (or_introl eq_refl)) as (Hn & _ & _).
  fold n in Hn.
  apply fermionops_tomatrix_Ok in Ht as (rank & dim & Hr & Hdim & Hshape & Hwf).
  rewrite Hrank in Hr. inversion Hr; subst rank.
  rewrite Hdim in Hshape by (unfold truthy; destruct n; [lia|reflexivity]).
  cbn [repeat] in Hshape.
  destruct (check_diagonal_coulomb_spec Hshape Hwf) as (b & -> & Hiff).
  destruct b.
  - split; [split; [reflexivity | intros _; apply Hiff; reflexivity]|].
    intros Hno. contradiction Hno. apply Hiff; reflexivity.
  - split; [|reflexivity].
    split; [|discriminate]. intros Hpat. apply Hiff in Hpat. discriminate.
Qed.

End RankFour.

(** Three density-density terms of rank 4 give the diagonal-Coulomb
    representation *)
Lemma rank4_diagonal_coulomb_or_general_witness :
  exists tensor,
    shape tensor = [4; 4; 4; 4]
    /\ build_hamiltonian (InFermionOperator ops_coulomb) 0 true one
       = ([], Ok (DiagonalCoulomb tensor zero)).
Proof.
  destruct (fermionops_tomatrix ops_coulomb (infer_norb [(4, ops_coulomb)]))
    as [tensor|e] eqn:Et; [|vm_compute in Et; discriminate].
  exists tensor.
  assert (Hshape : shape tensor = [4; 4; 4; 4]).
  { vm_compute in Et. inversion Et; reflexivity. }
  split; [exact Hshape|].
  assert (Hwf : well_formed tensor).
  { vm_compute in Et. inversion Et; reflexivity. }
  eapply (proj1 (@rank4_diagonal_coulomb_or_general _ _ ordered_input
                   ops_coulomb 0 true one ops_coulomb ops_coulomb zero tensor
                   eq_refl ltac:(simpl; lia) eq_refl _ eq_refl Et)).
  destruct (check_diagonal_coulomb_spec Hshape Hwf) as (b & Hb & Hiff).
  apply Hiff. vm_compute in Et. inversion Et; subst tensor.
  vm_compute in Hb. inversion Hb; reflexivity.
  Unshelve.
  repeat constructor; simpl; intuition discriminate.
Defined.

(* ================================================================== *)
(** ** The rank-2 classifier *)

Section RankTwo.

Context {C : Type} `{Scalar C}.

Lemma forallb_ext_In {A} (f g : A -> bool) (l : list A) :
  (forall x, In x l -> f x = g x) -> forallb f l = forallb g l.
Proof.
  induction l as [|x l IH]; simpl; [reflexivity|].
  intros Hfg. rewrite Hfg by (left; reflexivity). rewrite IH; [reflexivity|].
  intros y Hy. apply Hfg. right; assumption.
Qed.

Lemma shape_rows_cols (m : ndarray C) r c : shape m = [r; c] -> rows m = r /\ cols m = c.
Proof. unfold rows, cols. intros ->. split; reflexivity. Qed.

Lemma broadcast_dim_same (n : nat) : broadcast_dim n n = Ok n.
Proof. unfold broadcast_dim. rewrite Nat.eqb_refl. reflexivity. Qed.

(** Two matrices of the same shape are compared entry by entry. *)
Lemma allclose_same_shape (a b : ndarray C) r c :
  shape a = [r; c] -> shape b = [r; c] ->
  allclose a b
  = Ok (forallb (fun i => forallb (fun j => isclose (at2 a i j) (at2 b i j))
                                  (seq 0 c)) (seq 0 r)).
Proof.
  intros Ha Hb. unfold allclose.
  destruct (shape_rows_cols _ Ha) as [Hra Hca].
  destruct (shape_rows_cols _ Hb) as [Hrb Hcb].
  rewrite Hra, Hrb, Hca, Hcb, !broadcast_dim_same. cbn [rbind]. f_equal.
  apply forallb_ext_In. intros i Hi. apply in_seq in Hi.
  apply forallb_ext_In. intros j Hj. apply in_seq in Hj.
  rewrite !bat_in_range by lia. reflexivity.
Qed.

Lemma subtract_same_shape (a b : ndarray C) r c :
  shape a = [r; c] -> shape b = [r; c] ->
  subtract a b = Ok (tabulate2 r c (fun i j => sub (at2 a i j) (at2 b i j))).
Proof.
  intros Ha Hb. unfold subtract.
  destruct (shape_rows_cols _ Ha) as [Hra Hca].
  destruct (shape_rows_cols _ Hb) as [Hrb Hcb].
  rewrite Hra, Hrb, Hca, Hcb, !broadcast_dim_same. cbn [rbind]. f_equal.
  apply tabulate2_ext. intros i j Hi Hj. rewrite !bat_in_range by lia. reflexivity.
Qed.

Lemma conjT_shape (m : ndarray C) r c : shape m = [r; c] -> shape (conjT m) = [c; r].
Proof.
  intros Hs. destruct (shape_rows_cols _ Hs) as [Hr Hc].
  unfold conjT, tabulate2. simpl. rewrite Hr, Hc. reflexivity.
Qed.

Lemma at2_conjT (m : ndarray C) r c i j :
  shape m = [r; c] -> i < c -> j < r -> at2 (conjT m) i j = conj (at2 m j i).
Proof.
  intros Hs Hi Hj. destruct (shape_rows_cols _ Hs) as [Hr Hc].
  unfold conjT. rewrite Hr, Hc. rewrite at2_tabulate2 by assumption. reflexivity.
Qed.

(** The Hermiticity test of line 291 *)
Lemma allclose_conjT (m : ndarray C) n :
  shape m = [n; n] ->
  exists b, allclose m (conjT m) = Ok b
            /\ (b = true <-> hermitian_within_tolerance m n).
Proof.
  intros Hs. rewrite (allclose_same_shape _ _ Hs (conjT_shape _ Hs)).
  eexists; split; [reflexivity|]. unfold hermitian_within_tolerance.
  rewrite forallb_forall. split.
  - intros Hall i j Hi Hj. specialize (Hall i ltac:(apply in_seq; lia)).
    rewrite forallb_forall in Hall. specialize (Hall j ltac:(apply in_seq; lia)).
    rewrite (at2_conjT _ Hs) in Hall by assumption. exact Hall.
  - intros Hh i Hi. apply in_seq in Hi. apply forallb_forall. intros j Hj.
    apply in_seq in Hj. rewrite (at2_conjT _ Hs) by lia. apply Hh; lia.
Qed.

(** *** The scan of the strict lower triangle *)

Lemma scan_row_spec (m : ndarray C) r c i js diag :
  shape m = [r; c] -> well_formed m -> i < r -> (forall j, In j js -> j < c) ->
  scan_row m i js diag
  = Ok (if existsb (fun j => nonzero (at2 m i j)) js then false else diag).
Proof.
  intros Hs Hwf Hi. induction js as [|j js IH]; intros Hjs; [reflexivity|].
  cbn [scan_row existsb].
  rewrite (get_matrix Hs Hwf Hi (Hjs j (or_introl eq_refl))). cbn [rbind].
  destruct (nonzero (at2 m i j)); [reflexivity|]. cbn [orb].
  apply IH. intros k Hk. apply Hjs. right; assumption.
Qed.

Lemma scan_rows_spec (m : ndarray C) r c rws diag :
  shape m = [r; c] -> well_formed m -> (forall i, In i rws -> i < r /\ i <= c) ->
  scan_rows m rws diag
  = Ok (diag && forallb (fun i => negb (existsb (fun j => nonzero (at2 m i j))
                                                 (seq 0 i))) rws).
Proof.
  intros Hs Hwf. revert diag; induction rws as [|i rws IH]; intros diag Hrws.
  - simpl. rewrite andb_true_r. reflexivity.
  - cbn [scan_rows forallb]. destruct (Hrws i (or_introl eq_refl)) as [Hi Hic].
    rewrite (scan_row_spec (seq 0 i) diag Hs Hwf Hi).
    2:{ intros j Hj. apply in_seq in Hj. lia. }
    cbn [rbind]. rewrite IH by (intros k Hk; apply Hrws; right; assumption).
    destruct (existsb _ (seq 0 i)), diag; reflexivity.
Qed.

Lemma lower_scan_iff (m : ndarray C) n :
  forallb (fun i => negb (existsb (fun j => nonzero (at2 m i j)) (seq 0 i)))
          (seq 1 (n - 1)) = true
  <-> strict_lower_zero m n.
Proof.
  unfold strict_lower_zero. rewrite forallb_forall. split.
  - intros Hall i j Hji Hin. specialize (Hall i ltac:(apply in_seq; lia)).
    apply negb_true_iff in Hall.
    destruct (nonzero (at2 m i j)) eqn:En; [|reflexivity].
    assert (Hex : existsb (fun j => nonzero (at2 m i j)) (seq 0 i) = true).
    { apply existsb_exists. exists j. split; [apply in_seq; lia | assumption]. }
    congruence.
  - intros Hz i Hi. apply in_seq in Hi. apply negb_true_iff.
    destruct (existsb _ _) eqn:Hex; [|reflexivity].
    apply existsb_exists in Hex as (j & Hj & Hnz). apply in_seq in Hj.
    rewrite Hz in Hnz by lia. discriminate.
Qed.

(** *** The blocks *)

Lemma slice2_block (m : ndarray C) n r0 r1 c0 c1 :
  shape m = [n; n] -> r0 <= r1 <= n -> c0 <= c1 <= n ->
  slice2 m r0 r1 c0 c1
  = tabulate2 (r1 - r0) (c1 - c0) (fun i j => at2 m (r0 + i) (c0 + j)).
Proof.
  intros Hs Hr Hc. destruct (shape_rows_cols _ Hs) as [Hrw Hcl].
  unfold slice2. rewrite Hrw, Hcl.
  rewrite !Nat.min_l by lia. reflexivity.
Qed.

Lemma any_coupling_iff (m : ndarray C) norb :
  shape m = [2 * norb; 2 * norb] ->
  any (slice2 m norb (2 * norb) 0 norb) = true <-> coupling_nonzero m norb.
Proof.
  intros Hs. rewrite (slice2_block _ Hs) by lia.
  unfold any, coupling_nonzero. rewrite existsb_tabulate2. split.
  - intros Hex. apply existsb_exists in Hex as (i & Hi & Hex). apply in_seq in Hi.
    apply existsb_exists in Hex as (j & Hj & Hnz). apply in_seq in Hj.
    exists (norb + i), (0 + j). repeat split; try lia. exact Hnz.
  - intros (i & j & Hi & Hj & Hnz).
    apply existsb_exists. exists (i - norb). split; [apply in_seq; lia|].
    apply existsb_exists. exists j. split; [apply in_seq; lia|].
    replace (norb + (i - norb)) with i by lia. exact Hnz.
Qed.

Lemma allclose_blocks (m : ndarray C) norb :
  shape m = [2 * norb; 2 * norb] ->
  exists b, allclose (slice2 m 0 norb 0 norb)
                     (slice2 m norb (rows m) norb (cols m)) = Ok b
            /\ (b = true <-> blocks_close m norb).
Proof.
  intros Hs. destruct (shape_rows_cols _ Hs) as [Hrw Hcl]. rewrite Hrw, Hcl.
  rewrite !(slice2_block _ Hs) by lia.
  rewrite (@allclose_same_shape _ _ norb norb).
  2:{ unfold tabulate2; simpl. f_equal; [lia | f_equal; lia]. }
  2:{ unfold tabulate2; simpl. f_equal; [lia | f_equal; lia]. }
  eexists; split; [reflexivity|]. unfold blocks_close.
  rewrite forallb_forall. split.
  - intros Hall i j Hi Hj. specialize (Hall i ltac:(apply in_seq; lia)).
    rewrite forallb_forall in Hall. specialize (Hall j ltac:(apply in_seq; lia)).
    rewrite !at2_tabulate2 in Hall by lia. exact Hall.
  - intros Hb i Hi. apply in_seq in Hi. apply forallb_forall. intros j Hj.
    apply in_seq in Hj. rewrite !at2_tabulate2 by lia. apply Hb; lia.
Qed.

Lemma rows_tabulate2 r c (f : nat -> nat -> C) : rows (tabulate2 r c f) = r.
Proof. reflexivity. Qed.

Lemma cols_tabulate2 r c (f : nat -> nat -> C) : cols (tabulate2 r c f) = c.
Proof. reflexivity. Qed.

Lemma assign2_block (target src : ndarray C) r0 r1 c0 c1 :
  r0 <= r1 <= rows target -> c0 <= c1 <= cols target ->
  rows src = r1 - r0 -> cols src = c1 - c0 ->
  assign2 target r0 r1 c0 c1 src
  = Ok (tabulate2 (rows target) (cols target)
          (fun i j =>
             if (r0 <=? i) && (i <? r1) && (c0 <=? j) && (j <? c1)
             then at2 src (i - r0) (j - c0)
             else at2 target i j)).
Proof.
  intros Hr Hc Hrs Hcs. unfold assign2.
  rewrite !Nat.min_l by lia. rewrite Hrs, Hcs, !Nat.eqb_refl. cbn [orb andb].
  f_equal. apply tabulate2_ext. intros i j Hi Hj.
  replace (r0 + (r1 - r0)) with r1 by lia.
  replace (c0 + (c1 - c0)) with c1 by lia.
  destruct ((r0 <=? i) && (i <? r1) && (c0 <=? j) && (j <? c1)) eqn:E; [|reflexivity].
  apply andb_true_iff in E as [E E4]. apply andb_true_iff in E as [E E3].
  apply andb_true_iff in E as [E1 E2].
  apply Nat.leb_le in E1. apply Nat.ltb_lt in E2.
  apply Nat.leb_le in E3. apply Nat.ltb_lt in E4.
  apply bat_in_range; lia.
Qed.

Lemma sso_assembly (m : ndarray C) norb :
  shape m = [2 * norb; 2 * norb] ->
  (spin_mat <- assign2 (zeros [norb; 2 * norb]) 0 norb 0 norb
                       (slice2 m 0 norb 0 norb) ;;
   assign2 spin_mat 0 norb norb (2 * norb)
           (slice2 m norb (rows m) norb (cols m)))
  = Ok (sso_tensor m norb).
Proof.
  intros Hs. destruct (shape_rows_cols _ Hs) as [Hrw Hcl]. rewrite Hrw, Hcl.
  rewrite !(slice2_block _ Hs) by lia.
  set (z := zeros [norb; 2 * norb]).
  assert (Hzr : rows z = norb) by reflexivity.
  assert (Hzc : cols z = 2 * norb) by reflexivity.
  rewrite assign2_block; rewrite ?Hzr, ?Hzc, ?rows_tabulate2, ?cols_tabulate2; try lia.
  cbn [rbind].
  rewrite assign2_block; rewrite ?Hzr, ?Hzc, ?rows_tabulate2, ?cols_tabulate2; try lia.
  f_equal. unfold sso_tensor.
  apply tabulate2_ext. intros i j Hi Hj.
  destruct (Nat.ltb_spec j norb) as [Hlt|Hge].
  - replace ((0 <=? i) && (i <? norb) && (norb <=? j) && (j <? 2 * norb)) with false.
    2:{ symmetry. apply andb_false_iff. left. apply andb_false_iff. right.
        apply Nat.leb_gt. lia. }
    rewrite at2_tabulate2 by lia.
    replace ((0 <=? i) && (i <? norb) && (0 <=? j) && (j <? norb)) with true.
    2:{ symmetry. rewrite !andb_true_iff, !Nat.leb_le, !Nat.ltb_lt. lia. }
    rewrite at2_tabulate2 by lia. f_equal; lia.
  - replace ((0 <=? i) && (i <? norb) && (norb <=? j) && (j <? 2 * norb)) with true.
    2:{ symmetry. rewrite !andb_true_iff, !Nat.leb_le, !Nat.ltb_lt. lia. }
    rewrite at2_tabulate2 by lia. f_equal; lia.
Qed.

(** *** The classifier on a Hermitian matrix *)

Lemma process_rank2_matrix_hermitian (m : ndarray C) norb cn e_0 :
  0 < norb -> shape m = [2 * norb; 2 * norb] -> well_formed m ->
  hermitian_within_tolerance m (2 * norb) ->
  process_rank2_matrix m norb cn e_0
  = ([], Ok
       (if forallb (fun i => negb (existsb (fun j => nonzero (at2 m i j)) (seq 0 i)))
                   (seq 1 (2 * norb - 1))
        then Diagonal (diagonal m) cn e_0
        else if any (slice2 m norb (2 * norb) 0 norb)
        then GSOHamiltonian [m] cn e_0
        else match allclose (slice2 m 0 norb 0 norb)
                            (slice2 m norb (rows m) norb (cols m)) with
             | Ok true => Restricted [m] cn e_0
             | _ => SSOHamiltonian [sso_tensor m norb] cn e_0
             end)).
Proof.
  intros Hn Hs Hwf Hh. unfold process_rank2_matrix.
  destruct (@allclose_conjT m _ Hs) as (b & Hb & Hiff).
  rewrite (io_bind_lift_eq _ Hb).
  assert (b = true) by (apply Hiff; assumption). subst b. cbn [negb].
  assert (Ht : truthy norb = true) by (unfold truthy; destruct norb; [lia|reflexivity]).
  rewrite Ht. cbn [negb].
  destruct (shape_rows_cols _ Hs) as [Hrw Hcl].
  replace (Nat.max norb (rows m) - 1) with (2 * norb - 1) by lia.
  rewrite (io_bind_lift_eq _
             (@scan_rows_spec m (2 * norb) (2 * norb) (seq 1 (2 * norb - 1)) true
                Hs Hwf ltac:(intros i Hi; apply in_seq in Hi; lia))).
  cbn [andb].
  destruct (forallb _ (seq 1 (2 * norb - 1))); [reflexivity|].
  destruct (any _); [reflexivity|].
  destruct (@allclose_blocks m norb Hs) as (same & Hsame & _).
  rewrite (io_bind_lift_eq _ Hsame), Hsame.
  destruct same; [reflexivity|].
  pose proof (@sso_assembly m norb Hs) as Hsso.
  apply rbind_Ok in Hsso as (s1 & H1 & H2).
  rewrite (io_bind_lift_eq _ H1), (io_bind_lift_eq _ H2). reflexivity.
Qed.

(** [mat.diagonal()] of a square matrix: one entry per row, entry [i] being
    [mat[i, i]] *)
Lemma diagonal_entries (m : ndarray C) n :
  shape m = [n; n] ->
  shape (diagonal m) = [n]
  /\ well_formed (diagonal m)
  /\ forall i, i < n -> get (diagonal m) [i] = Ok (at2 m i i).
Proof.
  intros Hs. destruct (shape_rows_cols _ Hs) as [Hrw Hcl].
  unfold diagonal. rewrite Hrw, Hcl, Nat.min_id.
  split; [reflexivity|]. split.
  - unfold well_formed. cbn [data shape size_of fold_right].
    rewrite length_map, length_seq. lia.
  - intros i Hi. unfold get. cbn [shape data ravel size_of fold_right].
    apply Nat.ltb_lt in Hi. rewrite Hi. apply Nat.ltb_lt in Hi.
    replace (i * 1 + 0) with i by lia.
    rewrite nth_error_map, nth_error_seq.
    destruct (Nat.ltb_spec i n); [reflexivity|lia].
Qed.

(** With an explicit orbital count, as the factory calls it: on a Hermitian
    matrix of [2 * norb] rows and columns the classifier
    goes through its cases in order: Diagonal, from the diagonal of the
    matrix, when the strict lower triangle is zero; otherwise GSO when the
    quadrant of rows [norb:2*norb] and columns [0:norb] has a non-zero entry;
    otherwise Restricted when the two diagonal blocks agree within tolerance;
    otherwise SSO with the tensor of shape [(norb, 2*norb)] that holds the two
    diagonal blocks. *)
Theorem process_rank2_matrix_case_order (m : ndarray C) norb cn e_0 :
  0 < norb -> shape m = [2 * norb; 2 * norb] -> well_formed m ->
  hermitian_within_tolerance m (2 * norb) ->
  (strict_lower_zero m (2 * norb) ->
   process_rank2_matrix m norb cn e_0 = ([], Ok (Diagonal (diagonal m) cn e_0)))
  /\
  (~ strict_lower_zero m (2 * norb) -> coupling_nonzero m norb ->
   process_rank2_matrix m norb cn e_0 = ([], Ok (GSOHamiltonian [m] cn e_0)))
  /\
  (~ strict_lower_zero m (2 * norb) -> ~ coupling_nonzero m norb ->
   blocks_close m norb ->
   process_rank2_matrix m norb cn e_0 = ([], Ok (Restricted [m] cn e_0)))
  /\
  (~ strict_lower_zero m (2 * norb) -> ~ coupling_nonzero m norb ->
   ~ blocks_close m norb ->
   process_rank2_matrix m norb cn e_0
   = ([], Ok (SSOHamiltonian [sso_tensor m norb] cn e_0))).
Proof.
  intros Hn Hs Hwf Hh.
  rewrite (@process_rank2_matrix_hermitian m norb cn e_0 Hn Hs Hwf Hh).
  pose proof (lower_scan_iff m (2 * norb)) as Hlow.
  pose proof (@any_coupling_iff m norb Hs) as Hany.
  destruct (@allclose_blocks m norb Hs) as (same & Hsame & Hclose). rewrite Hsame.
  destruct (forallb _ (seq 1 (2 * norb - 1))).
  { split; [reflexivity|].
    repeat split; intros Hno; contradiction Hno; apply Hlow; reflexivity. }
  split; [intros Hz; apply Hlow in Hz; discriminate|].
  destruct (any _).
  { split; [reflexivity|].
    split; intros _ Hno; contradiction Hno; apply Hany; reflexivity. }
  split; [intros _ Hc; apply Hany in Hc; discriminate|].
  destruct same.
  - split; [reflexivity|]. intros _ _ Hno. contradiction Hno. apply Hclose; reflexivity.
  - split; [|reflexivity]. intros _ _ Hb. apply Hclose in Hb. discriminate.
Qed.

(** *** The classifier on a matrix that is not Hermitian *)

Lemma argmax_from_lt (l : list C) i best v :
  best < i -> argmax_from l i best v < i + List.length l.
Proof.
  revert i best v; induction l as [|x l IH]; intros i best v Hb; simpl; [lia|].
  destruct (abs_ltb v x).
  - specialize (IH (S i) i x ltac:(lia)). lia.
  - specialize (IH (S i) best v ltac:(lia)). lia.
Qed.

Lemma abs_argmax_lt (d : ndarray C) :
  0 < List.length (data d) ->
  exists k, abs_argmax d = Ok k /\ k < List.length (data d).
Proof.
  unfold abs_argmax. destruct (data d) as [|x l]; simpl; [lia|]. intros _.
  eexists; split; [reflexivity|].
  pose proof (@argmax_from_lt l 1 0 x ltac:(lia)). lia.
Qed.

(** What lines 291-296 do on any square matrix that differs from its
    conjugate transpose beyond tolerance: the classifier prints the index pair
    [numpy.unravel_index(diff.argmax(), diff.shape)] and the two values
    there, then raises a [ValueError] without arguments, and returns no
    representation. *)
Theorem process_rank2_matrix_not_hermitian (m : ndarray C) n norb cn e_0 :
  shape m = [n; n] -> well_formed m ->
  ~ hermitian_within_tolerance m n ->
  fst (worst_index m) < n /\ snd (worst_index m) < n
  /\ process_rank2_matrix m norb cn e_0
     = ([ElementOutsideTolerance (worst_index m);
         NotEqual (at2 m (fst (worst_index m)) (snd (worst_index m)))
                  (conj (at2 m (snd (worst_index m)) (fst (worst_index m))))],
        Raise (ValueError [])).
Proof.
  intros Hs Hwf Hnh.
  assert (Hpos : 0 < n).
  { destruct n; [|lia]. contradiction Hnh. intros i j Hi. lia. }
  destruct (@allclose_conjT m _ Hs) as (b & Hb & Hiff).
  assert (b = false).
  { destruct b; [|reflexivity]. contradiction Hnh. apply Hiff; reflexivity. }
  subst b.
  pose proof (@subtract_same_shape m (conjT m) n n Hs (@conjT_shape m n n Hs)) as Hsub.
  set (diff := tabulate2 n n (fun i j => sub (at2 m i j) (at2 (conjT m) i j))) in *.
  assert (Hlen : List.length (data diff) = n * n).
  { pose proof (tabulate2_well_formed n n
                  (fun i j => sub (at2 m i j) (at2 (conjT m) i j))) as Hw.
    unfold well_formed in Hw. fold diff in Hw. rewrite Hw. simpl. lia. }
  destruct (abs_argmax_lt diff) as (k & Hk & Hklt); [rewrite Hlen; nia|].
  rewrite Hlen in Hklt.
  assert (Hw : worst_index m = (k / n, k mod n)).
  { unfold worst_index. rewrite Hsub, Hk. reflexivity. }
  rewrite Hw. cbn [fst snd].
  assert (Hi : k / n < n) by (apply Nat.Div0.div_lt_upper_bound; lia).
  assert (Hj : k mod n < n) by (apply Nat.mod_upper_bound; lia).
  split; [assumption|]. split; [assumption|].
  unfold process_rank2_matrix.
  rewrite (io_bind_lift_eq _ Hb). cbn [negb].
  rewrite (io_bind_lift_eq _ Hsub), (io_bind_lift_eq _ Hk).
  change (unravel_index k diff) with (k / n, k mod n). cbn [fst snd].
  unfold print, io_bind at 1.
  rewrite (io_bind_lift_eq _ (@get_matrix _ _ m n n _ _ Hs Hwf Hi Hj)).
  rewrite (io_bind_lift_eq _ (@get_matrix _ _ m n n _ _ Hs Hwf Hj Hi)).
  reflexivity.
Qed.

End RankTwo.

(** The last case of the classifier, on [mat_two_blocks] *)
Lemma process_rank2_matrix_case_order_witness :
  process_rank2_matrix mat_two_blocks 2 true zero
  = ([], Ok (SSOHamiltonian
               [mk_ndarray [2; 4]
                  [(1, 0); (1, 1); (1, 0); (1, 1);
                   (1, -1); (0, 0); (1, -1); (5, 0)]%Z]
               true zero)).
Proof.
  assert (Hs : shape mat_two_blocks = [2 * 2; 2 * 2]) by reflexivity.
  assert (Hwf : well_formed mat_two_blocks) by reflexivity.
  refine (eq_trans
            (proj2 (proj2 (proj2
               (@process_rank2_matrix_case_order _ _ mat_two_blocks 2 true zero
                  ltac:(lia) Hs Hwf _))) _ _ _) _).
  - destruct (@allclose_conjT _ _ mat_two_blocks 4 Hs) as (b & Hb & Hiff).
    apply Hiff. vm_compute in Hb. inversion Hb; reflexivity.
  - intros Hz. specialize (Hz 1 0 ltac:(lia) ltac:(lia)). vm_compute in Hz. discriminate.
  - intros Hc. apply (@any_coupling_iff _ _ mat_two_blocks 2 Hs) in Hc.
    vm_compute in Hc. discriminate.
  - intros Hb. destruct (@allclose_blocks _ _ mat_two_blocks 2 Hs) as (b & Hbb & Hiff).
    apply Hiff in Hb. subst b. vm_compute in Hbb. discriminate.
  - reflexivity.
Defined.

(** Without an orbital count (line 298) the classifier takes the number of
    rows for it, and a matrix with a non-zero lower triangle then reaches the
    comparison of a block of shape [(4, 4)] with one of shape [(0, 0)]. *)
Example process_rank2_matrix_inferred_norb :
  process_rank2_matrix mat_two_blocks 0 true zero
  = ([], Raise (ValueError ["operands could not be broadcast together"%string])).
Proof. vm_compute. reflexivity. Qed.

(** C4 at [mat_two_blocks], a Hermitian matrix on two orbitals whose lower
    triangle is not zero, whose coupling quadrant is zero and whose two
    diagonal blocks differ: the claim's case analysis gives SSO with the
    reduced tensor.  Called with [norb = 2] the classifier returns exactly
    that.  Called without an orbital count it takes [mat.shape[0] = 4] for
    [norb] at line 299, twice the orbital count of the matrix every later
    line assumes, and raises ValueError where it compares the block
    [mat[:4, :4]] with the empty block [mat[4:, 4:]]: no representation is
    returned. *)
Theorem process_rank2_matrix_inferred_norb_breaks_case_order :
  hermitian_within_tolerance mat_two_blocks 4
  /\ ~ strict_lower_zero mat_two_blocks 4
  /\ ~ coupling_nonzero mat_two_blocks 2
  /\ ~ blocks_close mat_two_blocks 2
  /\ process_rank2_matrix mat_two_blocks 2 true zero
     = ([], Ok (SSOHamiltonian [sso_tensor mat_two_blocks 2] true zero))
  /\ (exists args,
        process_rank2_matrix mat_two_blocks 0 true zero
        = ([], Raise (ValueError args)))
  /\ (forall out h, process_rank2_matrix mat_two_blocks 0 true zero <> (out, Ok h)).
Proof.
  assert (Hs : shape mat_two_blocks = [2 * 2; 2 * 2]) by reflexivity.
  split; [|split; [|split; [|split; [|split; [|split]]]]].
  - destruct (@allclose_conjT _ _ mat_two_blocks 4 Hs) as (b & Hb & Hiff).
    apply Hiff. vm_compute in Hb. inversion Hb; reflexivity.
  - intros Hz. specialize (Hz 1 0 ltac:(lia) ltac:(lia)). vm_compute in Hz. discriminate.
  - intros Hc. apply (@any_coupling_iff _ _ mat_two_blocks 2 Hs) in Hc.
    vm_compute in Hc. discriminate.
  - intros Hb. destruct (@allclose_blocks _ _ mat_two_blocks 2 Hs) as (b & Hbb & Hiff).
    apply Hiff in Hb. subst b. vm_compute in Hbb. discriminate.
  - vm_compute. reflexivity.
  - eexists. vm_compute. reflexivity.
  - intros out h Hr. vm_compute in Hr. discriminate.
Qed.

(** The classifier on [[0, 1], [2, 0]], through the theorem above *)
Lemma process_rank2_matrix_not_hermitian_witness :
  process_rank2_matrix mat_not_hermitian 1 true zero
  = ([ElementOutsideTolerance (0, 1); NotEqual (1, 0)%Z (2, 0)%Z],
     Raise (ValueError [])).
Proof.
  refine (eq_trans
            (proj2 (proj2
               (@process_rank2_matrix_not_hermitian _ _ mat_not_hermitian 2 1 true zero
                  eq_refl eq_refl _))) _).
  - intros Hh. specialize (Hh 0 1 ltac:(lia) ltac:(lia)). vm_compute in Hh. discriminate.
  - reflexivity.
Defined.

(** C6 at [[0, 1], [2, 0]] with [norb = 1].  The claim has the classifier
    fail with an error that carries the offending index pair and both
    values.  The code writes the index pair [(0, 1)] and the values [1] and
    [2] to standard output and then executes a bare [raise ValueError]: the
    exception has no arguments, so a caller that catches it learns neither
    the index nor the values. *)
Lemma non_hermitian_error_carries_nothing :
  exists out e,
    process_rank2_matrix mat_not_hermitian 1 true zero = (out, Raise e)
    /\ e = ValueError []
    /\ exn_args e = []
    /\ out = [ElementOutsideTolerance (0, 1); NotEqual (1, 0)%Z (2, 0)%Z].
Proof.
  eexists; eexists. split; [vm_compute; reflexivity|].
  repeat split.
Qed.

(* ================================================================== *)
(** ** The orbital count of the general case *)

Section InferredNorb.

Context {C : Type}.

Lemma infer_norb_fold_ge_requirement (l : list (FermionOperator C)) (n : nat) :
  Nat.max n (fold_right Nat.max 0 (map block_requirement l))
  <= fold_left infer_norb_step l n.
Proof.
  revert n; induction l as [|sub l IH]; intros n; simpl; [lia|].
  specialize (IH (infer_norb_step n sub)).
  assert (Hstep : Nat.max n (block_requirement sub) <= infer_norb_step n sub).
  { unfold infer_norb_step, block_requirement.
    destruct (largest_operator_index sub) as [a b]; cbn [fst snd]. lia. }
  lia.
Qed.

(** The count of lines 74-77 is never below the block requirement, and with
    one rank it is the requirement (or 1 when that is 0). *)
Lemma infer_norb_ge_requirement (ops_rank : list (nat * FermionOperator C)) :
  max_block_requirement ops_rank <= infer_norb ops_rank.
Proof.
  unfold infer_norb, max_block_requirement.
  pose proof (infer_norb_fold_ge_requirement (map snd ops_rank) 0) as Hle.
  rewrite map_map in Hle. lia.
Qed.

Lemma infer_norb_single_rank (rank : nat) (sub : FermionOperator C) :
  infer_norb [(rank, sub)] = Nat.max 1 (max_block_requirement [(rank, sub)]).
Proof.
  unfold infer_norb, max_block_requirement, infer_norb_step, block_requirement.
  cbn [map fold_left fold_right snd].
  destruct (largest_operator_index sub) as [a b]; cbn [fst snd]. lia.
Qed.

(** With two ranks, the second needing no more blocks than the first, the
    count is one above the requirement. *)
Lemma infer_norb_two_ranks (r1 r2 : nat) (s1 s2 : FermionOperator C) :
  1 <= block_requirement s1 -> block_requirement s2 <= block_requirement s1 ->
  infer_norb [(r1, s1); (r2, s2)] = max_block_requirement [(r1, s1); (r2, s2)] + 1.
Proof.
  unfold infer_norb, max_block_requirement, infer_norb_step, block_requirement.
  cbn [map fold_left fold_right snd].
  destruct (largest_operator_index s1) as [a1 b1].
  destruct (largest_operator_index s2) as [a2 b2]. cbn [fst snd]. lia.
Qed.

(** Each further rank raises the count by at least one. *)
Lemma infer_norb_ge_ranks (ops_rank : list (nat * FermionOperator C)) :
  List.length ops_rank <= infer_norb ops_rank.
Proof.
  unfold infer_norb. rewrite <- (length_map snd).
  generalize (map snd ops_rank) as l. intros l.
  assert (Hgen : forall n, n + List.length l <= fold_left infer_norb_step l n).
  { induction l as [|sub l IH]; intros n; simpl; [lia|].
    specialize (IH (infer_norb_step n sub)).
    assert (n + 1 <= infer_norb_step n sub).
    { unfold infer_norb_step. destruct (largest_operator_index sub). lia. }
    lia. }
  apply (Hgen 0).
Qed.

End InferredNorb.

(** C2 at [0^ 0 + 1^ 1 + 1^ 0^ 1 0]: the expression splits into rank 2 and
    rank 4, each of which needs one block per spin, and the factory builds
    every tensor for two. *)
Theorem infer_norb_counts_ranks :
  split_openfermion_tensor (normal_ordered ops_two_ranks)
  = Ok ([(2, [(n0, one); (n1, one)]); (4, [(n1n0, one)])], zero)
  /\ max_block_requirement [(2, [(n0, one); (n1, one)]); (4, [(n1n0, one)])] = 1
  /\ infer_norb [(2, [(n0, one); (n1, one)]); (4, [(n1n0, one)])] = 2
  /\ match build_hamiltonian (InFermionOperator ops_two_ranks) 0 true zero with
     | (_, Ok (General tensors _ _)) => map (@shape _) tensors
     | _ => []
     end
     = [repeat 4 2; repeat 4 4; repeat 4 6; repeat 4 8].
Proof.
  repeat split; vm_compute; reflexivity.
Qed.

(* ================================================================== *)
(** * Further properties of the module *)

(** ** The spin-breaking transform never fails and undoes itself *)

Section SpinBrokenRoundTrip.

Context {C : Type} `{Scalar C}.

Lemma terms_set_keys (ops : FermionOperator C) t v x :
  In x (map fst (terms_set ops t v)) -> In x (map fst ops) \/ x = t.
Proof.
  induction ops as [|[s c] ops IH]; simpl.
  - intros [<-|[]]. right; reflexivity.
  - destruct (term_eqb s t); simpl; [tauto|].
    intros [Hx|Hx]; [tauto|]. destruct (IH Hx); tauto.
Qed.

Lemma iadd_term_keys (self : FermionOperator C) e x :
  In x (map fst (iadd_term self e)) -> In x (map fst self) \/ x = fst e.
Proof.
  unfold iadd_term.
  destruct (issmall (add (terms_get self (fst e) zero) (snd e))).
  - unfold terms_del. rewrite in_map_iff. intros [y [<- Hy]].
    apply filter_In in Hy. destruct Hy as [Hy _].
    apply terms_set_keys with (v := add (terms_get self (fst e) zero) (snd e)).
    apply in_map. exact Hy.
  - apply terms_set_keys.
Qed.

Lemma iadd_keys (l self : FermionOperator C) x :
  In x (map fst (iadd self l)) -> In x (map fst self) \/ In x (map fst l).
Proof.
  unfold iadd. revert self. induction l as [|e l IH]; intros self; simpl; [tauto|].
  intros Hx. destruct (IH _ Hx) as [Hs|Hl]; [|tauto].
  destruct (iadd_term_keys _ _ _ Hs) as [Hs'| ->]; tauto.
Qed.

(** X1.  The transform returns for every expression: the text it writes for
    a term is always read back as a term by the operator library.  Every
    term of the result is a term of the input in which the factors with an
    odd orbital index have changed role; no index and no length changes. *)
Theorem transform_to_spin_broken_total (ops : FermionOperator C) :
  exists ops',
    transform_to_spin_broken ops = Ok ops'
    /\ forall t', In t' (map fst ops') ->
         exists t, In t (map fst ops)
                   /\ t' = map spin_broken_factor t
                   /\ map fst t' = map fst t.
Proof.
  unfold transform_to_spin_broken. rewrite transform_loop_iadd.
  eexists; split; [reflexivity|].
  intros t' Hin. apply iadd_keys in Hin. destruct Hin as [[]|Hin].
  rewrite map_map in Hin. cbn [fst] in Hin.
  apply in_map_iff in Hin. destruct Hin as [[t c] [<- Hin]]. cbn [fst].
  exists t. split; [apply (in_map fst _ _ Hin)|]. split; [reflexivity|].
  rewrite map_map. apply map_ext. intros [i a]. reflexivity.
Qed.

Lemma transform_to_spin_broken_kept (ops : FermionOperator C) :
  NoDup (map fst ops) ->
  (forall e, In e ops -> issmall (snd e) = false) ->
  transform_to_spin_broken ops
  = Ok (map (fun e => (map spin_broken_factor (fst e), snd e)) ops).
Proof.
  intros Hnd Hbig. unfold transform_to_spin_broken. rewrite transform_loop_iadd.
  rewrite iadd_fresh; [| | intros t _ []].
  - cbn [app]. f_equal. apply forallb_filter_id.
    apply forallb_forall. intros e He.
    apply in_map_iff in He. destruct He as [e0 [<- He0]]. cbn beta. cbn [snd].
    unfold term in *. rewrite (Hbig _ He0). reflexivity.
  - rewrite map_map; cbn [fst].
    rewrite <- (map_map fst (map spin_broken_factor)).
    apply NoDup_map_NoDup_ForallPairs; [|assumption].
    intros s t _ _. apply spin_broken_term_injective.
Qed.

(** X2.  Applied twice, the transform gives the expression back: on an
    expression with distinct terms and no negligible coefficient the second
    application undoes the first. *)
Theorem transform_to_spin_broken_involutive (ops : FermionOperator C) :
  NoDup (map fst ops) ->
  (forall e, In e ops -> issmall (snd e) = false) ->
  exists ops',
    transform_to_spin_broken ops = Ok ops'
    /\ transform_to_spin_broken ops' = Ok ops.
Proof.
  intros Hnd Hbig. eexists. split; [apply transform_to_spin_broken_kept; assumption|].
  rewrite transform_to_spin_broken_kept.
  - f_equal. rewrite map_map. cbn [fst snd].
    rewrite <- (map_id ops) at 2. apply map_ext. intros [t c]. cbn [fst snd].
    f_equal. rewrite map_map.
    rewrite (map_ext _ (fun f => f) spin_broken_factor_involutive). apply map_id.
  - rewrite map_map; cbn [fst].
    rewrite <- (map_map fst (map spin_broken_factor)).
    apply NoDup_map_NoDup_ForallPairs; [|assumption].
    intros s t _ _. apply spin_broken_term_injective.
  - intros e He. apply in_map_iff in He. destruct He as [e0 [<- He0]].
    cbn [snd]. apply Hbig; assumption.
Qed.

End SpinBrokenRoundTrip.

Lemma transform_to_spin_broken_involutive_witness :
  exists ops',
    transform_to_spin_broken ops_two_ranks = Ok ops'
    /\ transform_to_spin_broken ops' = Ok ops_two_ranks.
Proof.
  apply transform_to_spin_broken_involutive.
  - repeat constructor; simpl; intuition discriminate.
  - intros e He. simpl in He.
    destruct He as [<-|[<-|[<-|[]]]]; reflexivity.
Defined.

(* ================================================================== *)
(** ** The rank splitter sorts every term by its rank *)

Section SplitterByRank.

Context {C : Type} `{Scalar C}.

Lemma truthy_mod2_odd (n : nat) : truthy (n mod 2) = Nat.odd n.
Proof.
  rewrite <- Nat.bit0_mod, Nat.bit0_odd. destruct (Nat.odd n); reflexivity.
Qed.

Lemma rank_lookup_set {V} (d : list (nat * V)) k v r :
  rank_lookup (rank_set d k v) r = if r =? k then Some v else rank_lookup d r.
Proof.
  induction d as [|[k' v'] d IH]; simpl.
  - rewrite (Nat.eqb_sym k r). reflexivity.
  - destruct (k' =? k) eqn:Hk; simpl.
    + apply Nat.eqb_eq in Hk; subst k'.
      rewrite (Nat.eqb_sym k r). destruct (r =? k); reflexivity.
    + destruct (k' =? r) eqn:Hr; [|exact IH].
      apply Nat.eqb_eq in Hr; subst k'. rewrite Hk. reflexivity.
Qed.

Lemma rank_lookup_None {V} (d : list (nat * V)) k :
  rank_lookup d k = None <-> ~ In k (map fst d).
Proof.
  induction d as [|[k' v'] d IH]; simpl; [tauto|].
  destruct (k' =? k) eqn:Hk.
  - apply Nat.eqb_eq in Hk. split; [discriminate|tauto].
  - apply Nat.eqb_neq in Hk. rewrite IH. tauto.
Qed.

Lemma rank_set_keys {V} (d : list (nat * V)) k v :
  map fst (rank_set d k v)
  = if rank_mem d k then map fst d else map fst d ++ [k].
Proof.
  unfold rank_mem. induction d as [|[k' v'] d IH]; simpl; [reflexivity|].
  destruct (k' =? k) eqn:Hk; simpl; [reflexivity|].
  rewrite IH. destruct (rank_lookup d k); reflexivity.
Qed.

Lemma rank_set_keys_NoDup {V} (d : list (nat * V)) k v :
  NoDup (map fst d) -> NoDup (map fst (rank_set d k v)).
Proof.
  intros Hnd. rewrite rank_set_keys. unfold rank_mem.
  destruct (rank_lookup d k) eqn:Hl; [assumption|].
  apply rank_lookup_None in Hl.
  apply NoDup_app; [assumption | repeat constructor; intros [] | ].
  intros x Hx [<-|[]]. contradiction.
Qed.

Lemma In_rank_set_keys {V} (d : list (nat * V)) k v r :
  In r (map fst (rank_set d k v)) -> r = k \/ In r (map fst d).
Proof.
  rewrite rank_set_keys. destruct (rank_mem d k); [tauto|].
  rewrite in_app_iff. simpl. intuition.
Qed.

(** What the loop keeps true of the keys of [split] *)
Lemma split_loop_keys (entries : FermionOperator C) split e_0 split' e_0' :
  split_loop entries split e_0 = Ok (split', e_0') ->
  NoDup (map fst split) ->
  NoDup (map fst split')
  /\ forall rank, In rank (map fst split') ->
       In rank (map fst split)
       \/ (rank <> 0 /\ Nat.even rank = true
           /\ exists e, In e entries /\ List.length (fst e) = rank).
Proof.
  revert split e_0.
  induction entries as [|[t c] entries IH]; intros split e_0 Hrun Hnd.
  - inversion Hrun; subst. split; [assumption|tauto].
  - cbn [split_loop] in Hrun. rewrite many_body_order_single in Hrun.
    destruct (issmall c); [discriminate|]. cbn [rbind] in Hrun.
    rewrite truthy_mod2_odd in Hrun.
    destruct (Nat.odd (List.length t)) eqn:Hodd; [discriminate|].
    assert (Heven : Nat.even (List.length t) = true).
    { rewrite <- Nat.negb_odd, Hodd. reflexivity. }
    assert (Hrest : forall split1,
               (forall r, In r (map fst split1) ->
                          r = List.length t \/ In r (map fst split)) ->
               List.length t <> 0 ->
               NoDup (map fst split1) ->
               split_loop entries split1 e_0 = Ok (split', e_0') ->
               NoDup (map fst split')
               /\ forall rank, In rank (map fst split') ->
                    In rank (map fst split)
                    \/ (rank <> 0 /\ Nat.even rank = true
                        /\ exists e, In e ((t, c) :: entries)
                                     /\ List.length (fst e) = rank)).
    { intros split1 Hkeys Hpos Hnd1 Hrun1.
      destruct (IH _ _ Hrun1 Hnd1) as [Hnd' Hk']. split; [assumption|].
      intros rank Hin. destruct (Hk' _ Hin) as [Hin1|[Hnz [Hev [e [He Hlen]]]]].
      - destruct (Hkeys _ Hin1) as [->|Hold]; [|left; assumption].
        right. repeat split; try assumption.
        exists (t, c). split; [left; reflexivity|reflexivity].
      - right. repeat split; try assumption.
        exists e. split; [right; assumption|assumption]. }
    destruct (List.length t =? 0) eqn:Hzero.
    + destruct (constant_coefficient [(t, c)]) as [c0|]; [|discriminate].
      cbn [rbind] in Hrun. destruct (IH _ _ Hrun Hnd) as [Hnd' Hk'].
      split; [assumption|]. intros rank Hin.
      destruct (Hk' _ Hin) as [Hin1|[Hnz [Hev [e [He Hlen]]]]]; [left; assumption|].
      right. repeat split; try assumption.
      exists e. split; [right; assumption|assumption].
    + apply Nat.eqb_neq in Hzero.
      destruct (rank_lookup split (List.length t)) as [op|];
        (eapply Hrest; [| exact Hzero | | exact Hrun]);
        try (apply rank_set_keys_NoDup; assumption);
        intros r Hr; apply In_rank_set_keys in Hr; exact Hr.
Qed.

(** X3.  The keys of the dict the splitter returns are distinct, even and
    not zero, and each is the number of factors of some term of the input:
    the constant term is never a key. *)
Theorem split_openfermion_tensor_keys (ops : FermionOperator C) ops_rank e_0 :
  split_openfermion_tensor ops = Ok (ops_rank, e_0) ->
  NoDup (map fst ops_rank)
  /\ forall rank, In rank (map fst ops_rank) ->
       rank <> 0 /\ Nat.even rank = true
       /\ exists e, In e ops /\ List.length (fst e) = rank.
Proof.
  intros Hrun. destruct (split_loop_keys _ _ _ Hrun (NoDup_nil _)) as [Hnd Hk].
  split; [assumption|]. intros rank Hin.
  destruct (Hk _ Hin) as [[]|Hgood]. exact Hgood.
Qed.

Lemma split_loop_odd (entries : FermionOperator C) split e_0 :
  (forall e, In e entries -> issmall (snd e) = false) ->
  (exists e, In e entries /\ Nat.odd (List.length (fst e)) = true) ->
  split_loop entries split e_0
  = Raise (ValueError ["Odd rank term not accepted"%string]).
Proof.
  revert split e_0.
  induction entries as [|[t c] entries IH]; intros split e_0 Hbig [e [He Hodd]].
  - destruct He.
  - cbn [split_loop]. rewrite many_body_order_single.
    pose proof (Hbig (t, c) (or_introl eq_refl)) as Hc. cbn [snd] in Hc.
    rewrite Hc. cbn [rbind]. rewrite truthy_mod2_odd.
    destruct (Nat.odd (List.length t)) eqn:Ht; [reflexivity|].
    assert (Hrest : exists e, In e entries /\ Nat.odd (List.length (fst e)) = true).
    { destruct He as [<-|He]; [cbn [fst] in Hodd; congruence|].
      exists e; split; assumption. }
    assert (Hbig' : forall e, In e entries -> issmall (snd e) = false).
    { intros e' He'. apply Hbig. right; assumption. }
    destruct (List.length t =? 0) eqn:Hzero.
    + apply Nat.eqb_eq in Hzero. apply length_zero_iff_nil in Hzero. subst t.
      unfold constant_coefficient. cbn. apply IH; assumption.
    + destruct (rank_lookup split (List.length t)); apply IH; assumption.
Qed.

(** X4.  An expression holding a term with an odd number of factors is
    rejected with the error of line 150, whatever else it holds, as long as
    no coefficient is negligible to the operator library. *)
Theorem split_openfermion_tensor_odd_rank (ops : FermionOperator C) :
  (forall e, In e ops -> issmall (snd e) = false) ->
  (exists e, In e ops /\ Nat.odd (List.length (fst e)) = true) ->
  split_openfermion_tensor ops
  = Raise (ValueError ["Odd rank term not accepted"%string]).
Proof.
  intros Hbig Hodd. apply split_loop_odd; assumption.
Qed.

(** The sub-expression of a rank after the loop: what [split] held for it,
    followed by the pending entries of that rank *)
Lemma split_loop_by_rank (entries : FermionOperator C) split e_0 :
  NoDup (map fst entries) ->
  (forall e, In e entries ->
     issmall (snd e) = false /\ Nat.even (List.length (fst e)) = true) ->
  (forall r op e, In (r, op) split -> In e op -> ~ In (fst e) (map fst entries)) ->
  exists split',
    split_loop entries split e_0
    = Ok (split',
          fold_left add (map snd (filter (fun e => term_eqb (fst e) []) entries)) e_0)
    /\ forall r, 0 < r ->
         rank_lookup split' r
         = match rank_lookup split r, rank_entries r entries with
           | Some op, sub => Some (op ++ sub)
           | None, [] => None
           | None, sub => Some sub
           end.
Proof.
  revert split e_0.
  induction entries as [|[t c] entries IH]; intros split e_0 Hnd Hgood Hfresh.
  - exists split. split; [reflexivity|]. intros r _.
    unfold rank_entries. cbn [filter]. unfold FermionOperator in *.
    destruct (rank_lookup split r); [rewrite List.app_nil_r|]; reflexivity.
  - inversion Hnd as [|? ? Hnotin Hnd']; subst.
    destruct (Hgood (t, c) (or_introl eq_refl)) as [Hc Heven]. cbn [fst snd] in Hc, Heven.
    assert (Hgood' : forall e, In e entries ->
              issmall (snd e) = false /\ Nat.even (List.length (fst e)) = true).
    { intros e He. apply Hgood. right; assumption. }
    cbn [split_loop]. rewrite many_body_order_single, Hc. cbn [rbind].
    rewrite (even_not_truthy_mod _ Heven).
    destruct (List.length t =? 0) eqn:Hzero.
    + apply Nat.eqb_eq in Hzero. apply length_zero_iff_nil in Hzero. subst t.
      unfold constant_coefficient. cbn [terms_mem existsb fst term_eqb orb terms_get rbind].
      destruct (IH split (add e_0 c) Hnd' Hgood') as [split' [Hrun Hlook]].
      { intros r op e Hin He Hk. apply (Hfresh r op e Hin He). right; exact Hk. }
      exists split'. split; [exact Hrun|].
      intros r Hr. rewrite (Hlook r Hr). unfold rank_entries. cbn [filter fst List.length].
      destruct r; [lia|]. reflexivity.
    + apply Nat.eqb_neq in Hzero.
      assert (Hconst : term_eqb t [] = false).
      { apply term_eqb_neq. intros ->. apply Hzero. reflexivity. }
      cbn [filter fst]. rewrite Hconst.
      assert (Hstep : forall op1,
                (forall e, In e op1 -> ~ In (fst e) (map fst entries)) ->
                exists split',
                  split_loop entries (rank_set split (List.length t) op1) e_0
                  = Ok (split',
                        fold_left add
                          (map snd (filter (fun e => term_eqb (fst e) []) entries)) e_0)
                  /\ forall r, 0 < r ->
                       rank_lookup split' r
                       = match (if r =? List.length t then Some op1
                                else rank_lookup split r),
                               rank_entries r entries with
                         | Some op, sub => Some (op ++ sub)
                         | None, [] => None
                         | None, sub => Some sub
                         end).
      { intros op1 Hop1.
        destruct (IH (rank_set split (List.length t) op1) e_0 Hnd' Hgood')
          as [split' [Hrun Hlook]].
        { intros r op e Hin He Hk. apply In_rank_set in Hin.
          destruct Hin as [[_ ->]|Hin]; [exact (Hop1 e He Hk)|].
          apply (Hfresh r op e Hin He). right; exact Hk. }
        exists split'. split; [exact Hrun|].
        intros r Hr. rewrite (Hlook r Hr), rank_lookup_set. reflexivity. }
      unfold FermionOperator in *.
      destruct (rank_lookup split (List.length t)) as [op|] eqn:Hlk.
      * assert (Hnew : ~ In t (map fst op)).
        { intros Hin. apply in_map_iff in Hin. destruct Hin as [e [Hfst He]].
          apply (Hfresh _ _ e (rank_lookup_In _ _ Hlk) He). left. symmetry; exact Hfst. }
        unfold iadd. cbn [fold_left]. rewrite (@iadd_term_fresh _ _ op t c Hnew), Hc.
        destruct (Hstep (op ++ [(t, c)])) as [split' [Hrun Hlook]].
        { intros e He. apply in_app_iff in He. destruct He as [He|[<-|[]]].
          - intros Hk. apply (Hfresh _ _ e (rank_lookup_In _ _ Hlk) He). right; exact Hk.
          - exact Hnotin. }
        exists split'. split; [exact Hrun|].
        intros r Hr. rewrite (Hlook r Hr). unfold rank_entries. cbn [filter fst].
        rewrite (Nat.eqb_sym (List.length t) r).
        destruct (r =? List.length t) eqn:Hrt; [|reflexivity].
        apply Nat.eqb_eq in Hrt. subst r. rewrite Hlk, <- List.app_assoc. reflexivity.
      * destruct (Hstep [(t, c)]) as [split' [Hrun Hlook]].
        { intros e [<-|[]]. exact Hnotin. }
        exists split'. split; [exact Hrun|].
        intros r Hr. rewrite (Hlook r Hr). unfold rank_entries. cbn [filter fst].
        rewrite (Nat.eqb_sym (List.length t) r).
        destruct (r =? List.length t) eqn:Hrt; [|reflexivity].
        apply Nat.eqb_eq in Hrt. subst r. rewrite Hlk. reflexivity.
Qed.

(** X5.  On an expression with distinct terms, each with an even number of
    factors and a coefficient that is not negligible, the splitter returns;
    the sub-expression it files under a rank holds exactly the entries with
    that many factors, in the order of the input, a rank without entries is
    no key, and the offset is the sum of the constant entries.  No term is
    lost and none is filed under another rank. *)
Theorem split_openfermion_tensor_by_rank (ops : FermionOperator C) :
  NoDup (map fst ops) ->
  (forall e, In e ops ->
     issmall (snd e) = false /\ Nat.even (List.length (fst e)) = true) ->
  exists ops_rank,
    split_openfermion_tensor ops = Ok (ops_rank, constant_terms_sum ops)
    /\ rank_lookup ops_rank 0 = None
    /\ forall rank, 0 < rank ->
         rank_lookup ops_rank rank
         = match rank_entries rank ops with
           | [] => None
           | sub => Some sub
           end.
Proof.
  intros Hnd Hgood.
  destruct (@split_loop_by_rank ops [] zero Hnd Hgood) as [ops_rank [Hrun Hlook]].
  { intros r op e []. }
  exists ops_rank. split; [exact Hrun|]. split.
  - apply rank_lookup_None. intros Hin.
    destruct (split_loop_keys _ _ _ Hrun (NoDup_nil _)) as [_ Hk].
    destruct (Hk _ Hin) as [[]|[Hnz _]]. apply Hnz; reflexivity.
  - intros rank Hr. rewrite (Hlook rank Hr). reflexivity.
Qed.

End SplitterByRank.

Lemma split_openfermion_tensor_keys_witness :
  split_openfermion_tensor ops_two_ranks
  = Ok ([(2, [(n0, one); (n1, one)]); (4, [(n1n0, one)])], zero)
  /\ NoDup (map fst [(2, [(n0, one); (n1, one)]); (4, [(n1n0, one)])])
  /\ forall rank,
       In rank (map fst [(2, [(n0, one); (n1, one)]); (4, [(n1n0, one)])]) ->
       rank <> 0 /\ Nat.even rank = true
       /\ exists e, In e ops_two_ranks /\ List.length (fst e) = rank.
Proof.
  split; [reflexivity|].
  apply (@split_openfermion_tensor_keys _ _ ops_two_ranks _ zero). reflexivity.
Defined.

Lemma split_openfermion_tensor_odd_rank_witness :
  split_openfermion_tensor [(n0, one); ([(0, true)], one); (n1, one)]
  = Raise (ValueError ["Odd rank term not accepted"%string]).
Proof.
  apply split_openfermion_tensor_odd_rank.
  - intros e He. simpl in He. destruct He as [<-|[<-|[<-|[]]]]; reflexivity.
  - exists ([(0, true)], one). split; [right; left; reflexivity|reflexivity].
Defined.

Lemma split_openfermion_tensor_by_rank_witness :
  exists ops_rank,
    split_openfermion_tensor ops_two_ranks
    = Ok (ops_rank, constant_terms_sum ops_two_ranks)
    /\ rank_lookup ops_rank 0 = None
    /\ forall rank, 0 < rank ->
         rank_lookup ops_rank rank
         = match rank_entries rank ops_two_ranks with
           | [] => None
           | sub => Some sub
           end.
Proof.
  apply split_openfermion_tensor_by_rank.
  - repeat constructor; simpl; intuition discriminate.
  - intros e He. simpl in He. destruct He as [<-|[<-|[<-|[]]]]; split; reflexivity.
Defined.

(* ================================================================== *)
(** ** Accumulating into an array *)

Section ArrayUpdates.

Context {C : Type} `{Scalar C}.

Lemma ravel_injective (shp index index' : list nat) o :
  ravel shp index = Some o -> ravel shp index' = Some o -> index = index'.
Proof.
  revert index index' o.
  induction shp as [|d shp IH]; intros [|i index] [|i' index'] o; simpl;
    try discriminate; [reflexivity|].
  destruct (i <? d); [|discriminate]. destruct (i' <? d); [|discriminate].
  destruct (ravel shp index) as [o1|] eqn:H1; [|discriminate].
  destruct (ravel shp index') as [o2|] eqn:H2; [|discriminate].
  intros Ho Ho'. inversion Ho; inversion Ho'; subst.
  pose proof (ravel_Some_lt _ _ H1) as Hlt1.
  pose proof (ravel_Some_lt _ _ H2) as Hlt2.
  assert (Hi : i = i') by nia. subst i'.
  assert (Ho2 : o1 = o2) by lia. subst o2.
  f_equal. eapply IH; eassumption.
Qed.

Lemma get_add_at_eq (a : ndarray C) index c a' :
  add_at a index c = Ok a' ->
  exists x, get a index = Ok x /\ get a' index = Ok (add x c).
Proof.
  unfold add_at. destruct (get a index) as [x|] eqn:Hget; [|discriminate].
  cbn [rbind]. unfold get in Hget |- *.
  destruct (ravel (shape a) index) as [o|] eqn:Hr; [|discriminate].
  intros Ha; inversion Ha; subst. exists x. split; [reflexivity|].
  cbn [shape data]. rewrite Hr.
  destruct (nth_error (data a) o) eqn:Hn; [|discriminate].
  rewrite nth_error_list_set_eq; [reflexivity|].
  apply nth_error_Some. congruence.
Qed.

Lemma get_add_at_neq (a : ndarray C) index c a' index' :
  add_at a index c = Ok a' -> index' <> index -> get a' index' = get a index'.
Proof.
  unfold add_at. destruct (get a index) as [x|]; [|discriminate].
  cbn [rbind]. destruct (ravel (shape a) index) as [o|] eqn:Hr; [|discriminate].
  intros Ha Hne; inversion Ha; subst. unfold get. cbn [shape data].
  destruct (ravel (shape a) index') as [o'|] eqn:Hr'; [|reflexivity].
  rewrite nth_error_list_set_neq; [reflexivity|].
  intros ->. apply Hne. eapply ravel_injective; eassumption.
Qed.

Lemma get_zeros (shp index : list nat) x : get (zeros shp) index = Ok x -> x = zero.
Proof.
  unfold get, zeros. cbn [shape data].
  destruct (ravel shp index) as [o|]; [|discriminate].
  destruct (nth_error (repeat zero (size_of shp)) o) as [y|] eqn:Hn; [|discriminate].
  intros Hx; inversion Hx; subst. apply nth_error_In in Hn.
  apply repeat_spec in Hn. exact Hn.
Qed.

Lemma get_Ok_in_range (a : ndarray C) index x :
  get a index = Ok x -> Forall2 (fun i d => i < d) index (shape a).
Proof.
  unfold get. destruct (ravel (shape a) index) as [o|] eqn:Hr; [|discriminate].
  intros _. revert index o Hr. generalize (shape a) as shp.
  induction shp as [|d shp IH]; intros [|i index] o; simpl; try discriminate.
  - constructor.
  - destruct (i <? d) eqn:Hi; [|discriminate].
    destruct (ravel shp index) as [o1|] eqn:H1; [|discriminate].
    intros _. constructor; [apply Nat.ltb_lt; exact Hi|]. eapply IH; eassumption.
Qed.

Lemma add_all_Ok (updates : list (list nat * C)) (a a' : ndarray C) :
  add_all updates a = Ok a' ->
  shape a' = shape a /\ (well_formed a -> well_formed a').
Proof.
  revert a. induction updates as [|[index c] updates IH]; intros a; cbn [add_all].
  - intros Ha; inversion Ha; subst. tauto.
  - destruct (add_at a index c) as [a1|] eqn:H1; [|discriminate]. cbn [rbind].
    intros Hrun. destruct (IH _ Hrun) as [Hs Hw].
    destruct (add_at_Ok _ _ _ H1) as [Hs1 Hw1].
    split; [congruence|tauto].
Qed.

(** A position no update names keeps its entry *)
Lemma add_all_untouched (updates : list (list nat * C)) (a a' : ndarray C) index :
  add_all updates a = Ok a' ->
  ~ In index (map fst updates) ->
  get a' index = get a index.
Proof.
  revert a. induction updates as [|[index0 c] updates IH]; intros a; cbn [add_all].
  - intros Ha _; inversion Ha; subst. reflexivity.
  - destruct (add_at a index0 c) as [a1|] eqn:H1; [|discriminate]. cbn [rbind].
    intros Hrun Hnot. cbn [map fst In] in Hnot.
    rewrite (IH _ Hrun) by tauto.
    apply (@get_add_at_neq _ _ _ _ _ H1). intros ->. tauto.
Qed.

(** A position named by one update has that update's coefficient added *)
Lemma add_all_once (updates : list (list nat * C)) (a a' : ndarray C) index c :
  add_all updates a = Ok a' ->
  NoDup (map fst updates) ->
  In (index, c) updates ->
  exists x, get a index = Ok x /\ get a' index = Ok (add x c).
Proof.
  revert a. induction updates as [|[index0 c0] updates IH]; intros a; cbn [add_all].
  - intros _ _ [].
  - destruct (add_at a index0 c0) as [a1|] eqn:H1; [|discriminate]. cbn [rbind].
    intros Hrun Hnd Hin. cbn [map fst] in Hnd.
    inversion Hnd as [|? ? Hnotin Hnd']; subst.
    destruct Hin as [Heq|Hin].
    + inversion Heq; subst.
      destruct (@get_add_at_eq _ _ _ _ H1) as [x [Hx Hx1]].
      exists x. split; [exact Hx|].
      rewrite (@add_all_untouched _ _ _ _ Hrun Hnotin). exact Hx1.
    + destruct (IH _ Hrun Hnd' Hin) as [x [Hx Hx']].
      exists x. split; [|exact Hx'].
      rewrite <- Hx. symmetry. apply (@get_add_at_neq _ _ _ _ _ H1).
      intros ->. apply Hnotin. apply (in_map fst _ _ Hin).
Qed.

End ArrayUpdates.

(* ================================================================== *)
(** ** Blocked coordinates *)

Lemma odd_pred_div2 (i : nat) : i mod 2 <> 0 -> (i - 1) / 2 = i / 2.
Proof.
  intros Hodd.
  pose proof (Nat.div_mod_eq i 2) as Hdm.
  pose proof (Nat.mod_upper_bound i 2 ltac:(lia)) as Hmod.
  replace (i - 1) with (0 + (i / 2) * 2) by lia.
  rewrite Nat.div_add by lia. reflexivity.
Qed.

Lemma blocked_index_cases (index ablk : nat) :
  (Nat.even index = true /\ blocked_index index ablk = index / 2)
  \/ (Nat.odd index = true /\ blocked_index index ablk = index / 2 + ablk).
Proof.
  unfold blocked_index. rewrite truthy_mod2_odd.
  destruct (Nat.odd index) eqn:Hodd.
  - right. split; [reflexivity|]. rewrite odd_pred_div2; [reflexivity|].
    rewrite <- Nat.bit0_mod, Nat.bit0_odd, Hodd. discriminate.
  - left. split; [|reflexivity]. rewrite <- Nat.negb_odd, Hodd. reflexivity.
Qed.

Lemma even_odd_half (i j : nat) :
  i / 2 = j / 2 -> Nat.odd i = Nat.odd j -> i = j.
Proof.
  intros Hdiv Hodd.
  pose proof (Nat.div_mod_eq i 2) as Hi. pose proof (Nat.div_mod_eq j 2) as Hj.
  assert (Hm : i mod 2 = j mod 2).
  { rewrite <- !Nat.bit0_mod, !Nat.bit0_odd, Hodd. reflexivity. }
  lia.
Qed.

Lemma blocked_index_injective (half i j : nat) :
  i / 2 < half -> j / 2 < half ->
  blocked_index i half = blocked_index j half -> i = j.
Proof.
  intros Hi Hj.
  destruct (blocked_index_cases i half) as [[Hei ->]|[Hoi ->]];
    destruct (blocked_index_cases j half) as [[Hej ->]|[Hoj ->]]; intros Heq;
    try lia; apply even_odd_half; try lia.
  - rewrite <- !Nat.negb_even, Hei, Hej. reflexivity.
  - congruence.
Qed.

(** X6.  The blocked coordinate is a one-to-one renumbering of the orbital
    indices below [2 * half]: the even (alpha) indices fill the first block
    [0, half), the odd (beta) indices the second block [half, 2 * half), and
    two indices never share a coordinate. *)
Theorem blocked_index_blocks (half i j : nat) :
  i < 2 * half -> j < 2 * half ->
  blocked_index i half < 2 * half
  /\ (blocked_index i half < half <-> Nat.even i = true)
  /\ (blocked_index i half = blocked_index j half -> i = j).
Proof.
  intros Hi Hj.
  assert (Hi2 : i / 2 < half) by (apply Nat.Div0.div_lt_upper_bound; lia).
  assert (Hj2 : j / 2 < half) by (apply Nat.Div0.div_lt_upper_bound; lia).
  split; [|split].
  - destruct (blocked_index_cases i half) as [[_ ->]|[_ ->]]; lia.
  - destruct (blocked_index_cases i half) as [[He ->]|[Ho ->]].
    + tauto.
    + rewrite <- Nat.negb_odd, Ho. cbn. split; [lia|discriminate].
  - apply blocked_index_injective; assumption.
Qed.

Lemma blocked_index_blocks_witness :
  blocked_index 7 4 < 2 * 4
  /\ (blocked_index 7 4 < 4 <-> Nat.even 7 = true)
  /\ (blocked_index 7 4 = blocked_index 1 4 -> 7 = 1).
Proof.
  apply blocked_index_blocks; lia.
Defined.

(* ================================================================== *)
(** ** Where the tensor builder puts each coefficient *)

Section TensorEntries.

Context {C : Type} `{Scalar C}.

(** The validation both builders start with (lines 172-182 and 238-248) *)
Lemma dimension_choice (ops : FermionOperator C) norb dim :
  (if truthy norb then
     if norb <? alpha_blocks ops then
       Raise (ValueError ["Highest alpha index exceeds the norb of orbitals"%string])
     else if norb <? beta_blocks ops then
       Raise (ValueError ["Highest beta index exceeds the norb of orbitals"%string])
     else Ok (2 * norb)
   else Ok (Nat.max (2 * alpha_blocks ops) (2 * beta_blocks ops))) = Ok dim ->
  dim = axis_length ops norb
  /\ alpha_blocks ops <= dim / 2 /\ beta_blocks ops <= dim / 2
  /\ 2 * (dim / 2) = dim.
Proof.
  unfold axis_length. destruct (truthy norb).
  - destruct (Nat.ltb_spec norb (alpha_blocks ops)); [discriminate|].
    destruct (Nat.ltb_spec norb (beta_blocks ops)); [discriminate|].
    intros Hd. assert (Hdim : dim = 2 * norb) by congruence. clear Hd. subst dim.
    assert (Hhalf : 2 * norb / 2 = norb).
    { rewrite (Nat.mul_comm 2 norb). apply Nat.div_mul. lia. }
    rewrite Hhalf. lia.
  - intros Hd.
    assert (Hdim : dim = Nat.max (2 * alpha_blocks ops) (2 * beta_blocks ops))
      by congruence.
    clear Hd. subst dim.
    assert (Hhalf : Nat.max (2 * alpha_blocks ops) (2 * beta_blocks ops) / 2
                    = Nat.max (alpha_blocks ops) (beta_blocks ops)).
    { rewrite Nat.mul_max_distr_l, Nat.mul_comm. apply Nat.div_mul. lia. }
    rewrite Hhalf. lia.
Qed.

Lemma fermionops_tomatrix_run (ops : FermionOperator C) norb tensor :
  fermionops_tomatrix ops norb = Ok tensor ->
  alpha_blocks ops <= axis_length ops norb / 2
  /\ beta_blocks ops <= axis_length ops norb / 2
  /\ 2 * (axis_length ops norb / 2) = axis_length ops norb
  /\ exists rank,
       many_body_order ops = Ok rank
       /\ Nat.even rank = true
       /\ term_loop ops rank (axis_length ops norb / 2) (repeat 0 rank)
                    (zeros (repeat (axis_length ops norb) rank))
          = Ok tensor.
Proof.
  unfold fermionops_tomatrix. intros Hr.
  apply rbind_Ok in Hr as (dim & Hdim & Hr).
  apply rbind_Ok in Hr as (rank & Hrank & Hr).
  apply dimension_choice in Hdim. destruct Hdim as (-> & Ha & Hb & Hdim).
  repeat (split; [assumption|]).
  exists rank. split; [assumption|].
  rewrite truthy_mod2_odd in Hr.
  destruct (Nat.odd rank) eqn:Hodd; [discriminate|].
  split; [|exact Hr]. rewrite <- Nat.negb_odd, Hodd. reflexivity.
Qed.

Lemma mask_loop_coordinates (t : term) rank ablk index_mask m :
  List.length index_mask = rank ->
  mask_loop t rank ablk (seq 0 rank) index_mask = Ok m ->
  m = coordinates ablk (firstn rank t) /\ List.length m = rank.
Proof.
  intros Hlen Hrun. apply mask_loop_values in Hrun. destruct Hrun as [Hm Hval].
  split; [|congruence].
  apply nth_error_ext. intros n. unfold coordinates.
  rewrite nth_error_map, nth_error_firstn.
  destruct (Nat.ltb_spec n rank) as [Hn|Hn].
  - destruct (Hval n ltac:(lia)) as [Hin _].
    destruct Hin as [ele [Ht Hmn]]; [apply in_seq; lia|].
    rewrite Hmn, Ht. reflexivity.
  - cbn [option_map]. apply nth_error_None. lia.
Qed.

(** The loop over the terms is a run of [tensor[position] += coefficient] *)
Lemma term_loop_add_all (entries : FermionOperator C) rank ablk index_mask
    tensor tensor' :
  List.length index_mask = rank ->
  term_loop entries rank ablk index_mask tensor = Ok tensor' ->
  add_all (map (fun e => (coordinates ablk (firstn rank (fst e)), snd e)) entries)
          tensor
  = Ok tensor'.
Proof.
  revert index_mask tensor.
  induction entries as [|[t c] entries IH]; intros index_mask tensor Hlen Hrun.
  - exact Hrun.
  - cbn [term_loop] in Hrun.
    apply rbind_Ok in Hrun as (m & Hm & Hrun).
    apply rbind_Ok in Hrun as (tensor1 & H1 & Hrun).
    destruct (mask_loop_coordinates _ _ _ Hlen Hm) as [-> Hlen'].
    cbn [map add_all fst snd]. rewrite H1. cbn [rbind].
    apply (IH _ _ Hlen' Hrun).
Qed.

Lemma index_half_lt (ops : FermionOperator C) t c ele half :
  In (t, c) ops -> In ele t ->
  alpha_blocks ops <= half -> beta_blocks ops <= half ->
  fst ele / 2 < half.
Proof.
  intros Hin Hele Ha Hb.
  pose proof (largest_operator_index_bound ops t c ele Hin Hele) as Hbd.
  unfold index_bounded, alpha_blocks, beta_blocks, truthy in *.
  destruct (largest_operator_index ops) as [me mo]; cbn [fst snd] in *.
  set (i := fst ele) in *.
  destruct (Nat.eqb_spec (i mod 2) 0) as [E|E]; cbn [negb] in *.
  - assert (Z.of_nat (i / 2) <= me / 2)%Z.
    { rewrite Nat2Z.inj_div. apply Z.div_le_mono; lia. }
    lia.
  - assert (Hpos : i <> 0) by (intros E0; apply E; rewrite E0; reflexivity).
    assert (Z.of_nat (i / 2) <= (mo - 1) / 2)%Z.
    { rewrite <- (@odd_pred_div2 i E), Nat2Z.inj_div. apply Z.div_le_mono; lia. }
    lia.
Qed.

(** Two terms in canonical order of one rank that go to the same position
    are the same term. *)
Lemma coordinates_injective (ops : FermionOperator C) rank half s t :
  In s (map fst ops) -> In t (map fst ops) ->
  alpha_blocks ops <= half -> beta_blocks ops <= half ->
  canonical_order rank s -> canonical_order rank t ->
  coordinates half s = coordinates half t -> s = t.
Proof.
  intros Hs Ht Ha Hb Hcs Hct Heq.
  apply in_map_iff in Hs. destruct Hs as [[s' cs] [Hs' Hs]]. cbn [fst] in Hs'. subst s'.
  apply in_map_iff in Ht. destruct Ht as [[t' ct] [Ht' Ht]]. cbn [fst] in Ht'. subst t'.
  apply nth_error_ext. intros n.
  pose proof (f_equal (fun l => nth_error l n) Heq) as Hn. cbn beta in Hn.
  unfold coordinates in Hn. rewrite !nth_error_map in Hn.
  unfold term, factor in *.
  destruct (nth_error s n) as [[i a]|] eqn:Hsn;
    destruct (nth_error t n) as [[j b]|] eqn:Htn; cbn [option_map fst] in Hn;
    try discriminate; [|reflexivity].
  inversion Hn as [Hblk].
  assert (Hij : i = j).
  { apply (@blocked_index_injective half i j); [| |exact Hblk].
    - apply (@index_half_lt ops s cs (i, a) half Hs (nth_error_In _ _ Hsn) Ha Hb).
    - apply (@index_half_lt ops t ct (j, b) half Ht (nth_error_In _ _ Htn) Ha Hb). }
  subst j.
  destruct (Hcs _ _ Hsn) as [Hs1 Hs2]. destruct (Hct _ _ Htn) as [Ht1 Ht2].
  cbn [snd] in *.
  destruct (Nat.lt_ge_cases n (rank / 2)) as [Hlow|Hhigh].
  - rewrite (Hs1 Hlow), (Ht1 Hlow). reflexivity.
  - rewrite (Hs2 Hhigh), (Ht2 Hhigh). reflexivity.
Qed.

(** X7.  A tensor the builder returns has one axis per factor of the even
    rank the operator library reports, every axis of the length chosen at
    lines 172-180 ([2 * norb], or twice the larger block count when no
    orbital count is given), and that length exceeds every orbital index of
    the expression. *)
Theorem fermionops_tomatrix_shape (ops : FermionOperator C) norb tensor :
  fermionops_tomatrix ops norb = Ok tensor ->
  exists rank,
    many_body_order ops = Ok rank
    /\ Nat.even rank = true
    /\ shape tensor = repeat (axis_length ops norb) rank
    /\ well_formed tensor
    /\ forall t c ele, In (t, c) ops -> In ele t -> fst ele < axis_length ops norb.
Proof.
  intros Hrun.
  destruct (fermionops_tomatrix_run _ _ Hrun) as (Ha & Hb & Hdim & rank & Hmbo & Hev & Hloop).
  exists rank. repeat (split; [assumption|]).
  apply term_loop_Ok in Hloop. destruct Hloop as [Hs Hw].
  split; [exact Hs|]. split; [apply Hw, zeros_well_formed|].
  intros t c ele Hin Hele.
  pose proof (@index_half_lt ops t c ele _ Hin Hele Ha Hb) as Hhalf.
  pose proof (Nat.div_mod_eq (fst ele) 2) as Hdm.
  pose proof (Nat.mod_upper_bound (fst ele) 2 ltac:(lia)) as Hmod.
  lia.
Qed.

Lemma fermionops_tomatrix_placement (ops : FermionOperator C) norb rank tensor :
  NoDup (map fst ops) ->
  (forall e, In e ops -> List.length (fst e) = rank) ->
  fermionops_tomatrix ops norb = Ok tensor ->
  (forall t c, In (t, c) ops ->
     get tensor (coordinates (axis_length ops norb / 2) t) = Ok c)
  /\ (forall index x,
        get tensor index = Ok x ->
        (forall t, In t (map fst ops) ->
           index <> coordinates (axis_length ops norb / 2) t) ->
        x = zero).
Proof.
  intros Hnd Hlen Hrun.
  destruct (fermionops_tomatrix_run _ _ Hrun) as (Ha & Hb & Hdim & r & Hmbo & Hev & Hloop).
  set (half := axis_length ops norb / 2) in *.
  assert (Hr : forall e, In e ops -> List.length (fst e) = r).
  { destruct ops as [|e0 ops'] eqn:Hops; [intros e []|]. rewrite <- Hops in *.
    assert (Hne : ops <> []) by (rewrite Hops; discriminate).
    rewrite (many_body_order_single_rank Hne Hlen Hmbo). exact Hlen. }
  pose proof (@term_loop_on_expression C _ ops r half Hr Ha Hb) as Hcanon.
  rewrite Hdim in Hcanon.
  destruct (forallb (fun e => canonical_orderb r (fst e)) ops) eqn:Hall;
    [clear Hcanon | destruct Hcanon as [e [He _]]; congruence].
  rewrite forallb_forall in Hall.
  apply term_loop_add_all in Hloop; [|apply repeat_length].
  rewrite (map_ext_in _ (fun e => (coordinates half (fst e), snd e))) in Hloop.
  2:{ intros e He. rewrite <- (Hr e He), firstn_all. reflexivity. }
  assert (Hkeys : map fst (map (fun e : term * C => (coordinates half (fst e), snd e)) ops)
                  = map (coordinates half) (map fst ops)).
  { rewrite !map_map. reflexivity. }
  assert (Hdistinct :
            NoDup (map fst (map (fun e : term * C => (coordinates half (fst e), snd e)) ops))).
  { rewrite Hkeys. apply NoDup_map_NoDup_ForallPairs; [|exact Hnd].
    intros s t Hs Ht.
    assert (Hcan : forall u, In u (map fst ops) -> canonical_order r u).
    { intros u Hu. apply in_map_iff in Hu. destruct Hu as [e [<- He]].
      apply canonical_orderb_spec; [apply Hr; exact He | apply Hall; exact He]. }
    apply (@coordinates_injective ops r half s t Hs Ht Ha Hb (Hcan s Hs) (Hcan t Ht)). }
  split.
  - intros t c Hin.
    assert (Hup : In (coordinates half t, c)
                     (map (fun e : term * C => (coordinates half (fst e), snd e)) ops)).
    { apply in_map_iff. exists (t, c). split; [reflexivity|exact Hin]. }
    destruct (@add_all_once C _ _ _ _ _ _ Hloop Hdistinct Hup) as [x [Hx Hget]].
    apply get_zeros in Hx. subst x. rewrite add_zero_l in Hget. exact Hget.
  - intros index x Hget Hother.
    rewrite (@add_all_untouched C _ _ _ _ index Hloop) in Hget.
    + apply get_zeros in Hget. exact Hget.
    + rewrite Hkeys. intros Hin. apply in_map_iff in Hin.
      destruct Hin as [t [Heq Ht]]. apply (Hother t Ht). symmetry; exact Heq.
Qed.

(** X8.  In the tensor built from an expression with distinct terms of one
    rank, the entry at the blocked coordinates of a term is the coefficient
    of that term, and every other entry is zero. *)
Theorem fermionops_tomatrix_entries (ops : FermionOperator C) norb rank tensor :
  NoDup (map fst ops) ->
  (forall e, In e ops -> List.length (fst e) = rank) ->
  fermionops_tomatrix ops norb = Ok tensor ->
  (forall t c, In (t, c) ops ->
     get tensor (coordinates (axis_length ops norb / 2) t) = Ok c)
  /\ (forall index x,
        get tensor index = Ok x ->
        (forall t, In t (map fst ops) ->
           index <> coordinates (axis_length ops norb / 2) t) ->
        x = zero).
Proof.
  apply fermionops_tomatrix_placement.
Qed.


(** X10.  An explicit orbital count below the alpha block count is refused
    with the first error of the validation, one that covers the alpha but
    not the beta block count with the second, and the builder raises neither
    of the two in any other case; without an orbital count it raises
    neither. *)
Theorem fermionops_tomatrix_dimension_errors (ops : FermionOperator C) norb :
  (0 < norb -> norb < alpha_blocks ops ->
   fermionops_tomatrix ops norb
   = Raise (ValueError ["Highest alpha index exceeds the norb of orbitals"%string]))
  /\ (0 < norb -> alpha_blocks ops <= norb -> norb < beta_blocks ops ->
      fermionops_tomatrix ops norb
      = Raise (ValueError ["Highest beta index exceeds the norb of orbitals"%string]))
  /\ (forall e, fermionops_tomatrix ops norb = Raise e -> dimension_error e ->
        0 < norb /\ (norb < alpha_blocks ops \/ norb < beta_blocks ops)).
Proof.
  assert (Htruthy : 0 < norb -> truthy norb = true).
  { intros Hpos. unfold truthy. destruct (Nat.eqb_spec norb 0); [lia|reflexivity]. }
  split; [|split].
  - intros Hpos Hlt. unfold fermionops_tomatrix.
    apply Nat.ltb_lt in Hlt. rewrite (Htruthy Hpos), Hlt. reflexivity.
  - intros Hpos Hle Hlt. unfold fermionops_tomatrix.
    apply Nat.ltb_ge in Hle. apply Nat.ltb_lt in Hlt.
    rewrite (Htruthy Hpos), Hle, Hlt. reflexivity.
  - intros e He Hd.
    destruct (fermionops_tomatrix_steps ops norb)
      as [(Ht & Hlt & Hrun)|[(Ht & Hlt & Hrun)|(half & Ha & Hb & Hrun)]].
    + split; [|left; exact Hlt].
      unfold truthy in Ht. destruct (Nat.eqb_spec norb 0); [discriminate|lia].
    + split; [|right; exact Hlt].
      unfold truthy in Ht. destruct (Nat.eqb_spec norb 0); [discriminate|lia].
    + exfalso. rewrite Hrun in He.
      destruct (many_body_order ops) as [rank|e0] eqn:Hmbo; cbn [rbind] in He.
      * destruct (truthy (rank mod 2)).
        -- inversion He; subst. destruct Hd as [Hd|Hd]; discriminate.
        -- apply term_loop_Raise in He. destruct He as [->|[->| ->]];
             destruct Hd as [Hd|Hd]; discriminate.
      * inversion He; subst. unfold many_body_order in Hmbo.
        destruct ops; [discriminate|].
        destruct (filter _ _); [|discriminate].
        inversion Hmbo; subst. destruct Hd as [Hd|Hd]; discriminate.
Qed.

End TensorEntries.

Lemma fermionops_tomatrix_shape_witness :
  fermionops_tomatrix ops_hopping 0 = Ok mat_hopping
  /\ exists rank,
       many_body_order ops_hopping = Ok rank
       /\ Nat.even rank = true
       /\ shape mat_hopping = repeat (axis_length ops_hopping 0) rank
       /\ well_formed mat_hopping
       /\ forall t c ele, In (t, c) ops_hopping -> In ele t ->
            fst ele < axis_length ops_hopping 0.
Proof.
  split; [reflexivity|].
  apply (@fermionops_tomatrix_shape _ _ ops_hopping 0 mat_hopping). reflexivity.
Defined.

Lemma fermionops_tomatrix_entries_witness :
  fermionops_tomatrix ops_hopping 0 = Ok mat_hopping
  /\ (forall t c, In (t, c) ops_hopping ->
        get mat_hopping (coordinates (axis_length ops_hopping 0 / 2) t) = Ok c)
  /\ (forall index x,
        get mat_hopping index = Ok x ->
        (forall t, In t (map fst ops_hopping) ->
           index <> coordinates (axis_length ops_hopping 0 / 2) t) ->
        x = zero).
Proof.
  split; [reflexivity|].
  apply (@fermionops_tomatrix_entries _ _ ops_hopping 0 2 mat_hopping).
  - repeat constructor; simpl; intuition discriminate.
  - intros e He. simpl in He. destruct He as [<-|[<-|[<-|[]]]]; reflexivity.
  - reflexivity.
Defined.


Lemma fermionops_tomatrix_dimension_errors_witness :
  fermionops_tomatrix ops_hopping 1
  = Raise (ValueError ["Highest alpha index exceeds the norb of orbitals"%string]).
Proof.
  apply (proj1 (fermionops_tomatrix_dimension_errors ops_hopping 1)).
  - lia.
  - vm_compute. lia.
Defined.

(* ================================================================== *)
(** ** The super matrix *)

Section SuperMatrixFacts.

Context {C : Type} `{Scalar C}.

Lemma fermion_op_to_rank2_run (ops : FermionOperator C) norb h1e :
  fermion_op_to_rank2 ops norb = Ok h1e ->
  alpha_blocks ops <= axis_length ops norb / 2
  /\ beta_blocks ops <= axis_length ops norb / 2
  /\ 2 * (axis_length ops norb / 2) = axis_length ops norb
  /\ many_body_order ops = Ok 2
  /\ rank2_loop ops (axis_length ops norb / 2) (axis_length ops norb)
                (zeros [2 * axis_length ops norb; 2 * axis_length ops norb])
     = Ok h1e.
Proof.
  unfold fermion_op_to_rank2. intros Hr.
  apply rbind_Ok in Hr as (dim & Hdim & Hr).
  apply rbind_Ok in Hr as (rank & Hrank & Hr).
  apply dimension_choice in Hdim. destruct Hdim as (-> & Ha & Hb & Hdim).
  repeat (split; [assumption|]).
  destruct (Nat.eqb_spec rank 2) as [->|Hne]; cbn [negb] in Hr; [|discriminate].
  split; assumption.
Qed.

Lemma rank2_loop_Ok (entries : FermionOperator C) ablk dim h1e h1e' :
  rank2_loop entries ablk dim h1e = Ok h1e' ->
  shape h1e' = shape h1e /\ (well_formed h1e -> well_formed h1e').
Proof.
  revert h1e. induction entries as [|[t c] entries IH]; intros h1e; cbn [rank2_loop].
  - intros Hr; inversion Hr; subst. tauto.
  - destruct (nth_error t 0) as [t0|]; [|discriminate].
    destruct (nth_error t 1) as [t1|]; [|discriminate].
    intros Hr. apply rbind_Ok in Hr as (h1 & H1 & Hr).
    destruct (IH _ Hr) as [Hs Hw].
    assert (Hstep : shape h1 = shape h1e /\ (well_formed h1e -> well_formed h1)).
    { destruct (snd t0 && snd t1); [exact (add_at_Ok _ _ _ H1)|].
      destruct (snd t0 && negb (snd t1)); [exact (add_at_Ok _ _ _ H1)|].
      destruct (negb (snd t0) && snd t1); exact (add_at_Ok _ _ _ H1). }
    destruct Hstep as [Hs1 Hw1]. split; [congruence|tauto].
Qed.

(** The loop over the terms is a run of [h1e[position] += coefficient] *)
Lemma rank2_loop_add_all (entries : FermionOperator C) ablk dim h1e h1e' :
  rank2_loop entries ablk dim h1e = Ok h1e' ->
  add_all (map (fun e => (super_position ablk dim (fst e), snd e)) entries) h1e
  = Ok h1e'.
Proof.
  revert h1e. induction entries as [|[t c] entries IH]; intros h1e Hrun.
  - exact Hrun.
  - cbn [rank2_loop] in Hrun.
    destruct t as [|[i a] [|[j b] t']]; cbn [nth_error] in Hrun; try discriminate.
    apply rbind_Ok in Hrun as (h1 & H1 & Hrun).
    cbn [map add_all fst snd super_position].
    cbn [fst snd] in H1.
    assert (Hstep : add_at h1e
                      [blocked_index i ablk + (if a then 0 else dim);
                       blocked_index j ablk + (if b then dim else 0)] c = Ok h1).
    { destruct a, b; cbn [andb negb] in H1; rewrite ?Nat.add_0_r; exact H1. }
    rewrite Hstep. cbn [rbind]. apply IH. exact Hrun.
Qed.

(** X11.  The super-matrix builder returns for rank-2 expressions only: the
    matrix has [2 * dim] rows and columns, [dim] being the axis length of
    the tensor builder, and any other rank, that of the empty expression
    included, is refused once the orbital count is accepted. *)
Theorem fermion_op_to_rank2_rank_and_shape (ops : FermionOperator C) norb :
  (forall h1e, fermion_op_to_rank2 ops norb = Ok h1e ->
     many_body_order ops = Ok 2
     /\ shape h1e = [2 * axis_length ops norb; 2 * axis_length ops norb]
     /\ well_formed h1e)
  /\ (forall rank, dimension_accepted ops norb ->
        many_body_order ops = Ok rank -> rank <> 2 ->
        fermion_op_to_rank2 ops norb
        = Raise (ValueError ["Rank of operator not-equal 2"%string])).
Proof.
  split.
  - intros h1e Hrun.
    destruct (fermion_op_to_rank2_run _ _ Hrun) as (_ & _ & _ & Hmbo & Hloop).
    split; [exact Hmbo|]. apply rank2_loop_Ok in Hloop. destruct Hloop as [Hs Hw].
    split; [exact Hs | apply Hw, zeros_well_formed].
  - intros rank Hacc Hmbo Hne. unfold fermion_op_to_rank2.
    assert (Hdim : exists dim,
               (if truthy norb then
                  if norb <? alpha_blocks ops then
                    Raise (ValueError ["Highest alpha index exceeds the norb of orbitals"%string])
                  else if norb <? beta_blocks ops then
                    Raise (ValueError ["Highest beta index exceeds the norb of orbitals"%string])
                  else Ok (2 * norb)
                else Ok (Nat.max (2 * alpha_blocks ops) (2 * beta_blocks ops)))
               = Ok dim).
    { destruct Hacc as [->|[Ha Hb]]; [eexists; reflexivity|].
      apply Nat.ltb_ge in Ha. apply Nat.ltb_ge in Hb. rewrite Ha, Hb.
      destruct (truthy norb); eexists; reflexivity. }
    destruct Hdim as [dim ->]. cbn [rbind]. rewrite Hmbo. cbn [rbind].
    destruct (Nat.eqb_spec rank 2); [contradiction|reflexivity].
Qed.

(** Two rank-2 terms that go to the same position of the super matrix are
    the same term, whatever the roles of their factors. *)
Lemma super_position_injective (ops : FermionOperator C) half s t :
  In s (map fst ops) -> In t (map fst ops) ->
  alpha_blocks ops <= half -> beta_blocks ops <= half ->
  List.length s = 2 -> List.length t = 2 ->
  super_position half (2 * half) s = super_position half (2 * half) t -> s = t.
Proof.
  intros Hs Ht Ha Hb Hls Hlt.
  apply in_map_iff in Hs. destruct Hs as [[s' cs] [Hs' Hs]]. cbn [fst] in Hs'. subst s'.
  apply in_map_iff in Ht. destruct Ht as [[t' ct] [Ht' Ht]]. cbn [fst] in Ht'. subst t'.
  destruct s as [|[i a] [|[j b] [|? ?]]]; try discriminate.
  destruct t as [|[i' a'] [|[j' b'] [|? ?]]]; try discriminate.
  cbn [super_position fst snd]. intros Heq.
  assert (Hin : forall u cu ele, In (u, cu) ops -> In ele u ->
                  fst ele / 2 < half /\ blocked_index (fst ele) half < 2 * half).
  { intros u cu ele Hu Hele. split.
    - apply (@index_half_lt C ops u cu ele half Hu Hele Ha Hb).
    - apply (@blocked_index_lt C ops u cu ele half Hu Hele Ha Hb). }
  destruct (Hin _ _ (i, a) Hs ltac:(left; reflexivity)) as [Hi Hbi].
  destruct (Hin _ _ (j, b) Hs ltac:(right; left; reflexivity)) as [Hj Hbj].
  destruct (Hin _ _ (i', a') Ht ltac:(left; reflexivity)) as [Hi' Hbi'].
  destruct (Hin _ _ (j', b') Ht ltac:(right; left; reflexivity)) as [Hj' Hbj'].
  cbn [fst] in *.
  inversion Heq as [[Hleft Hright]].
  assert (Ha' : a = a' /\ blocked_index i half = blocked_index i' half).
  { destruct a, a'; split; try reflexivity; lia. }
  assert (Hb' : b = b' /\ blocked_index j half = blocked_index j' half).
  { destruct b, b'; split; try reflexivity; lia. }
  destruct Ha' as [<- Hbi_eq]. destruct Hb' as [<- Hbj_eq].
  rewrite (@blocked_index_injective half i i' Hi Hi' Hbi_eq).
  rewrite (@blocked_index_injective half j j' Hj Hj' Hbj_eq). reflexivity.
Qed.

(** X12.  In the super matrix built from distinct terms of two factors, the
    coefficient of a term is the entry whose row is the blocked coordinate
    of the first factor, moved down by [dim] when that factor annihilates,
    and whose column is the blocked coordinate of the second factor, moved
    right by [dim] when that factor creates; every other entry is zero.
    Unlike the tensor builder, this one accepts any order of the roles. *)
Theorem fermion_op_to_rank2_entries (ops : FermionOperator C) norb h1e :
  NoDup (map fst ops) ->
  (forall e, In e ops -> List.length (fst e) = 2) ->
  fermion_op_to_rank2 ops norb = Ok h1e ->
  (forall t c, In (t, c) ops ->
     get h1e (super_position (axis_length ops norb / 2) (axis_length ops norb) t)
     = Ok c)
  /\ (forall index x,
        get h1e index = Ok x ->
        (forall t, In t (map fst ops) ->
           index <> super_position (axis_length ops norb / 2)
                                   (axis_length ops norb) t) ->
        x = zero).
Proof.
  intros Hnd Hlen Hrun.
  destruct (fermion_op_to_rank2_run _ _ Hrun) as (Ha & Hb & Hdim & Hmbo & Hloop).
  set (half := axis_length ops norb / 2) in *.
  set (dim := axis_length ops norb) in *.
  apply rank2_loop_add_all in Hloop.
  assert (Hkeys : map fst (map (fun e : term * C =>
                                  (super_position half dim (fst e), snd e)) ops)
                  = map (super_position half dim) (map fst ops)).
  { rewrite !map_map. reflexivity. }
  assert (Hdistinct :
            NoDup (map fst (map (fun e : term * C =>
                                   (super_position half dim (fst e), snd e)) ops))).
  { rewrite Hkeys. apply NoDup_map_NoDup_ForallPairs; [|exact Hnd].
    intros s t Hs Ht. rewrite <- Hdim.
    assert (Hl : forall u, In u (map fst ops) -> List.length u = 2).
    { intros u Hu. apply in_map_iff in Hu. destruct Hu as [e [<- He]].
      apply Hlen; exact He. }
    apply (@super_position_injective ops half s t Hs Ht Ha Hb (Hl s Hs) (Hl t Ht)). }
  split.
  - intros t c Hin.
    assert (Hup : In (super_position half dim t, c)
                     (map (fun e : term * C =>
                             (super_position half dim (fst e), snd e)) ops)).
    { apply in_map_iff. exists (t, c). split; [reflexivity|exact Hin]. }
    destruct (@add_all_once C _ _ _ _ _ _ Hloop Hdistinct Hup) as [x [Hx Hget]].
    apply get_zeros in Hx. subst x. rewrite add_zero_l in Hget. exact Hget.
  - intros index x Hget Hother.
    rewrite (@add_all_untouched C _ _ _ _ index Hloop) in Hget.
    + apply get_zeros in Hget. exact Hget.
    + rewrite Hkeys. intros Hin. apply in_map_iff in Hin.
      destruct Hin as [t [Heq Ht]]. apply (Hother t Ht). symmetry; exact Heq.
Qed.

Lemma get_zeros_in_range (shp index : list nat) :
  Forall2 (fun i d => i < d) index shp -> get (zeros shp) index = Ok (zero : C).
Proof.
  intros Hin.
  destruct (@get_in_range C (zeros shp) index (zeros_well_formed shp) Hin) as [x Hx].
  rewrite Hx. f_equal. apply (get_zeros _ _ Hx).
Qed.

(** On terms the tensor builder accepts at rank 2, the two loops add the
    same coefficients at the same positions. *)
Lemma rank2_loop_follows_term_loop (entries : FermionOperator C) half d
    index_mask tensor h1e tensor' :
  List.length index_mask = 2 ->
  shape tensor = [d; d] -> shape h1e = [2 * d; 2 * d] ->
  well_formed tensor -> well_formed h1e ->
  upper_left_block d tensor h1e ->
  term_loop entries 2 half index_mask tensor = Ok tensor' ->
  exists h1e',
    rank2_loop entries half d h1e = Ok h1e' /\ upper_left_block d tensor' h1e'.
Proof.
  revert index_mask tensor h1e.
  induction entries as [|[t c] entries IH];
    intros index_mask tensor h1e Hlen Hst Hsh Hwt Hwh Hul Hrun.
  - inversion Hrun; subst. exists h1e. split; [reflexivity|exact Hul].
  - cbn [term_loop] in Hrun.
    apply rbind_Ok in Hrun as (m & Hm & Hrun).
    apply rbind_Ok in Hrun as (tensor1 & H1 & Hrun).
    cbn [seq mask_loop] in Hm.
    destruct t as [|[i a] t0]; cbn [nth_error] in Hm; [discriminate|].
    change (0 <? 2 / 2) with true in Hm. cbn [fst snd] in Hm.
    destruct a; cbn [negb rbind] in Hm; [|discriminate].
    destruct t0 as [|[j b] t']; cbn [nth_error] in Hm; [discriminate|].
    change (1 <? 2 / 2) with false in Hm. cbn [fst snd] in Hm.
    destruct b; cbn [negb rbind] in Hm; [discriminate|].
    destruct index_mask as [|m0 [|m1 [|? ?]]]; try discriminate.
    cbn [list_set] in Hm. inversion Hm; subst m. clear Hm.
    set (bi := blocked_index i half) in *. set (bj := blocked_index j half) in *.
    destruct (get_add_at_eq _ _ _ H1) as [x [Hx Hx1]].
    pose proof (get_Ok_in_range _ _ Hx) as Hrange. rewrite Hst in Hrange.
    inversion Hrange as [|? ? ? ? Hbi Hrest]; subst.
    inversion Hrest as [|? ? ? ? Hbj _]; subst.
    assert (Hbig : Forall2 (fun i d => i < d) [bi; bj] (shape h1e)).
    { rewrite Hsh. repeat constructor; lia. }
    destruct (@add_at_in_range C _ h1e [bi; bj] c Hwh Hbig) as [h1 Hh1].
    destruct (add_at_Ok _ _ _ H1) as [Hst1 Hwt1].
    destruct (add_at_Ok _ _ _ Hh1) as [Hsh1 Hwh1].
    destruct (IH [bi; bj] tensor1 h1) as [h1e' [Hloop Hul']];
      try reflexivity; try congruence; try tauto.
    + intros i' j' Hi' Hj'.
      destruct (list_eq_dec Nat.eq_dec [i'; j'] [bi; bj]) as [Heq|Hne].
      * inversion Heq; subst i' j'.
        destruct (get_add_at_eq _ _ _ Hh1) as [x' [Hx' Hx1']].
        rewrite (Hul bi bj Hi' Hj') in Hx'.
        apply Nat.ltb_lt in Hbi. apply Nat.ltb_lt in Hbj.
        rewrite Hbi, Hbj in Hx' |- *. cbn [andb] in Hx' |- *.
        rewrite Hx1', Hx1. congruence.
      * rewrite (@get_add_at_neq C _ _ _ _ _ _ Hh1 Hne).
        rewrite (@get_add_at_neq C _ _ _ _ _ _ H1 Hne).
        apply Hul; assumption.
    + exists h1e'. split; [|exact Hul'].
      cbn [rank2_loop nth_error fst snd andb negb]. fold bi bj.
      rewrite Hh1. cbn [rbind]. exact Hloop.
Qed.

(** X13.  On a rank-2 expression the tensor builder accepts (every term a
    creation operator followed by an annihilation operator), the
    super-matrix builder returns too; its upper left quadrant is the matrix
    of the tensor builder and its other three quadrants are zero. *)
Theorem fermion_op_to_rank2_number_conserving (ops : FermionOperator C) norb tensor :
  many_body_order ops = Ok 2 ->
  fermionops_tomatrix ops norb = Ok tensor ->
  exists h1e,
    fermion_op_to_rank2 ops norb = Ok h1e
    /\ upper_left_block (axis_length ops norb) tensor h1e.
Proof.
  intros Hmbo Hrun. unfold fermionops_tomatrix in Hrun.
  apply rbind_Ok in Hrun as (dim & Hdim & Hrun).
  unfold fermion_op_to_rank2. rewrite Hdim. cbn [rbind].
  rewrite Hmbo in Hrun |- *. cbn [rbind] in Hrun |- *.
  change (truthy (2 mod 2)) with false in Hrun. change (negb (2 =? 2)) with false.
  cbn iota in Hrun |- *.
  apply dimension_choice in Hdim. destruct Hdim as (-> & _ & _ & _).
  apply (@rank2_loop_follows_term_loop ops (axis_length ops norb / 2)
           (axis_length ops norb) (repeat 0 2)
           (zeros (repeat (axis_length ops norb) 2))
           (zeros [2 * axis_length ops norb; 2 * axis_length ops norb]) tensor);
    try reflexivity; try apply zeros_well_formed; [|exact Hrun].
  intros i j Hi Hj.
  rewrite get_zeros_in_range by (repeat constructor; assumption).
  destruct (Nat.ltb_spec i (axis_length ops norb));
    destruct (Nat.ltb_spec j (axis_length ops norb)); cbn [andb]; try reflexivity.
  symmetry. apply get_zeros_in_range. repeat constructor; assumption.
Qed.

End SuperMatrixFacts.

Lemma fermion_op_to_rank2_rank_and_shape_witness :
  fermion_op_to_rank2 ([] : FermionOperator Gauss.t) 0
  = Raise (ValueError ["Rank of operator not-equal 2"%string]).
Proof.
  apply (proj2 (fermion_op_to_rank2_rank_and_shape ([] : FermionOperator Gauss.t) 0) 0).
  - left. reflexivity.
  - reflexivity.
  - discriminate.
Defined.

Lemma fermion_op_to_rank2_entries_witness :
  fermion_op_to_rank2 ops_pairing 0 = Ok mat_pairing
  /\ (forall t c, In (t, c) ops_pairing ->
        get mat_pairing
            (super_position (axis_length ops_pairing 0 / 2)
                            (axis_length ops_pairing 0) t)
        = Ok c)
  /\ (forall index x,
        get mat_pairing index = Ok x ->
        (forall t, In t (map fst ops_pairing) ->
           index <> super_position (axis_length ops_pairing 0 / 2)
                                   (axis_length ops_pairing 0) t) ->
        x = zero).
Proof.
  split; [reflexivity|].
  apply (@fermion_op_to_rank2_entries _ _ ops_pairing 0 mat_pairing).
  - repeat constructor; simpl; intuition discriminate.
  - intros e He. simpl in He. destruct He as [<-|[<-|[]]]; reflexivity.
  - reflexivity.
Defined.

Lemma fermion_op_to_rank2_number_conserving_witness :
  fermionops_tomatrix ops_hopping 0 = Ok mat_hopping
  /\ exists h1e,
       fermion_op_to_rank2 ops_hopping 0 = Ok h1e
       /\ upper_left_block (axis_length ops_hopping 0) mat_hopping h1e.
Proof.
  split; [reflexivity|].
  apply (@fermion_op_to_rank2_number_conserving _ _ ops_hopping 0 mat_hopping);
    reflexivity.
Defined.

(* ================================================================== *)
(** ** The rank-2 classifier and its orbital count *)

Section ClassifierOrbitalCount.

Context {C : Type} `{Scalar C}.

Lemma scan_rows_app (m : ndarray C) (l1 l2 : list nat) (diag : bool) :
  scan_rows m (l1 ++ l2) diag
  = (diag' <- scan_rows m l1 diag ;; scan_rows m l2 diag').
Proof.
  revert diag. induction l1 as [|i l1 IH]; intros diag.
  - reflexivity.
  - rewrite <- app_comm_cons. cbn [scan_rows].
    destruct (scan_row m i (seq 0 i) diag); cbn [rbind]; [apply IH|reflexivity].
Qed.

Lemma io_bind_lift_Raise {A B} (e : exn) (k : A -> io C B) :
  io_bind (io_lift (Raise e)) k = ([], Raise e).
Proof. reflexivity. Qed.

(** X14.  Called without an orbital count, the classifier takes the number
    of rows of the matrix for it (line 299).  On a Hermitian square matrix it
    then returns Diagonal when the strict lower triangle is zero, and in
    every other case the comparison of the two diagonal blocks at line 319
    raises ValueError, the second block being empty: GSO, Restricted and SSO
    are never returned without an orbital count. *)
Theorem process_rank2_matrix_without_norb (m : ndarray C) n cn e_0 :
  shape m = [n; n] -> well_formed m -> hermitian_within_tolerance m n ->
  (strict_lower_zero m n ->
   process_rank2_matrix m 0 cn e_0 = ([], Ok (Diagonal (diagonal m) cn e_0)))
  /\ (~ strict_lower_zero m n ->
      exists args, process_rank2_matrix m 0 cn e_0 = ([], Raise (ValueError args))).
Proof.
  intros Hs Hwf Hh. unfold process_rank2_matrix.
  destruct (@allclose_conjT C _ m n Hs) as (b & Hb & Hiff).
  rewrite (io_bind_lift_eq _ Hb).
  assert (b = true) by (apply Hiff; assumption). subst b. cbn [negb].
  change (truthy 0) with false. cbn [negb].
  destruct (shape_rows_cols _ Hs) as [Hrw Hcl].
  replace (Nat.max (rows m) (rows m) - 1) with (n - 1) by lia.
  rewrite (io_bind_lift_eq _
             (@scan_rows_spec C _ m n n (seq 1 (n - 1)) true
                Hs Hwf ltac:(intros i Hi; apply in_seq in Hi; lia))).
  cbn [andb].
  pose proof (@lower_scan_iff C _ m n) as Hlow.
  destruct (forallb _ (seq 1 (n - 1))) eqn:Hscan.
  - split; [reflexivity|]. intros Hno. contradiction Hno. apply Hlow. reflexivity.
  - split; [intros Hz; apply Hlow in Hz; discriminate|]. intros _.
    assert (Hn : 2 <= n).
    { destruct n as [|[|n']]; [discriminate Hscan|discriminate Hscan|lia]. }
    assert (Hany : any (slice2 m (rows m) (2 * rows m) 0 (rows m)) = false).
    { unfold any, slice2, tabulate2. rewrite Hrw.
      replace (Nat.min (2 * n) n - Nat.min n n) with 0 by lia. reflexivity. }
    rewrite Hany.
    assert (Hclose : allclose (slice2 m 0 (rows m) 0 (rows m))
                              (slice2 m (rows m) (rows m) (rows m) (cols m))
                     = Raise (ValueError ["operands could not be broadcast together"%string])).
    { unfold allclose, slice2. rewrite !rows_tabulate2, Hrw.
      replace (Nat.min n n - Nat.min 0 n) with n by lia.
      replace (Nat.min n n - Nat.min n n) with 0 by lia.
      unfold broadcast_dim.
      destruct (Nat.eqb_spec n 0); [lia|]. destruct (Nat.eqb_spec n 1); [lia|].
      reflexivity. }
    rewrite Hclose. eexists. reflexivity.
Qed.

(** X15.  An orbital count beyond the size of the matrix makes the scan of
    the lower triangle at lines 303-305 read a row the matrix does not have:
    on a Hermitian square matrix the classifier raises IndexError. *)
Theorem process_rank2_matrix_norb_beyond_matrix (m : ndarray C) n norb cn e_0 :
  shape m = [n; n] -> well_formed m -> hermitian_within_tolerance m n ->
  n < norb -> 2 <= norb ->
  process_rank2_matrix m norb cn e_0 = ([], Raise IndexError).
Proof.
  intros Hs Hwf Hh Hlt Hnorb. unfold process_rank2_matrix.
  destruct (@allclose_conjT C _ m n Hs) as (b & Hb & Hiff).
  rewrite (io_bind_lift_eq _ Hb).
  assert (b = true) by (apply Hiff; assumption). subst b. cbn [negb].
  assert (Ht : truthy norb = true) by (unfold truthy; destruct norb; [lia|reflexivity]).
  rewrite Ht. cbn [negb].
  destruct (shape_rows_cols _ Hs) as [Hrw Hcl]. rewrite Hrw.
  set (k := Nat.max n 1).
  replace (Nat.max norb n - 1) with ((k - 1) + (norb - k)) by lia.
  rewrite seq_app. replace (1 + (k - 1)) with k by lia.
  rewrite scan_rows_app.
  rewrite (@scan_rows_spec C _ m n n (seq 1 (k - 1)) true
             Hs Hwf ltac:(intros i Hi; apply in_seq in Hi; lia)).
  cbn [rbind andb].
  destruct (norb - k) as [|p] eqn:Hp; [lia|].
  destruct k as [|k'] eqn:Hk; [lia|].
  cbn [seq scan_rows scan_row].
  assert (Hget : get m [S k'; 0] = Raise IndexError).
  { unfold get. rewrite Hs. cbn [ravel].
    destruct (Nat.ltb_spec (S k') n); [lia|reflexivity]. }
  rewrite Hget. reflexivity.
Qed.

End ClassifierOrbitalCount.

Lemma process_rank2_matrix_without_norb_witness :
  exists args,
    process_rank2_matrix mat_two_blocks 0 true zero = ([], Raise (ValueError args)).
Proof.
  apply (proj2 (@process_rank2_matrix_without_norb _ _ mat_two_blocks 4 true zero
                  eq_refl eq_refl
                  ltac:(intros i j Hi Hj;
                        do 4 (destruct i as [|i]; [do 4 (destruct j as [|j]; [reflexivity|]); lia|]);
                        lia))).
  intros Hz. specialize (Hz 1 0 ltac:(lia) ltac:(lia)). discriminate Hz.
Defined.

Lemma process_rank2_matrix_norb_beyond_matrix_witness :
  process_rank2_matrix mat_two_blocks 5 true zero = ([], Raise IndexError).
Proof.
  apply (@process_rank2_matrix_norb_beyond_matrix _ _ mat_two_blocks 4 5 true zero
           eq_refl eq_refl).
  - intros i j Hi Hj.
    do 4 (destruct i as [|i]; [do 4 (destruct j as [|j]; [reflexivity|]); lia|]).
    lia.
  - lia.
  - lia.
Defined.

(* ================================================================== *)
(** ** The fallback to the general representation *)

Section Fallback.

Context {C : Type} `{Scalar C}.

Lemma zero_fill_lookup (ks : list nat) (ops_mat : list (nat * ndarray C)) norb i :
  rank_lookup
    (fold_left
       (fun om k => if rank_mem om k then om
                    else rank_set om k (zeros (repeat (2 * norb) k)))
       ks ops_mat) i
  = match rank_lookup ops_mat i with
    | Some tensor => Some tensor
    | None => if existsb (Nat.eqb i) ks
              then Some (zeros (repeat (2 * norb) i)) else None
    end.
Proof.
  revert ops_mat. induction ks as [|k ks IH]; intros ops_mat; cbn [fold_left existsb].
  - destruct (rank_lookup ops_mat i); reflexivity.
  - rewrite IH. unfold rank_mem.
    destruct (rank_lookup ops_mat k) as [tk|] eqn:Hk.
    + destruct (rank_lookup ops_mat i) as [ti|] eqn:Hi; [reflexivity|].
      destruct (Nat.eqb_spec i k) as [->|Hne]; [congruence|reflexivity].
    + rewrite rank_lookup_set.
      destruct (Nat.eqb_spec i k) as [->|Hne].
      * rewrite Hk. reflexivity.
      * reflexivity.
Qed.

Lemma general_fallback_eq (ops_mat : list (nat * ndarray C)) norb cn e_0 :
  general_fallback ops_mat norb cn e_0
  = Ok (General (map (tensor_or_zeros ops_mat norb) [2; 4; 6; 8]) cn e_0).
Proof.
  unfold general_fallback, getitem, zero_fill, tensor_or_zeros.
  rewrite !zero_fill_lookup. cbn [existsb Nat.eqb orb map].
  destruct (rank_lookup ops_mat 2), (rank_lookup ops_mat 4), (rank_lookup ops_mat 6),
    (rank_lookup ops_mat 8); reflexivity.
Qed.

(** X16.  The fallback of lines 95-105 never fails: for each rank 2, 4, 6
    and 8 it takes the tensor built for that rank, or zeros of [2 * norb]
    per axis when there is none, and packs the four into General.  A tensor
    of any other rank, such as rank 10, has no part in the result. *)
Theorem general_fallback_total (ops_mat : list (nat * ndarray C)) norb cn e_0 :
  general_fallback ops_mat norb cn e_0
  = Ok (General (map (tensor_or_zeros ops_mat norb) [2; 4; 6; 8]) cn e_0)
  /\ forall ops_mat',
       (forall i, In i [2; 4; 6; 8] -> rank_lookup ops_mat' i = rank_lookup ops_mat i) ->
       general_fallback ops_mat' norb cn e_0 = general_fallback ops_mat norb cn e_0.
Proof.
  split; [apply general_fallback_eq|].
  intros ops_mat' Hsame. rewrite !general_fallback_eq. do 2 f_equal.
  apply map_ext_in. intros i Hi. unfold tensor_or_zeros. rewrite (Hsame i Hi).
  reflexivity.
Qed.

End Fallback.

(* ================================================================== *)
(** ** The orbital count the factory infers *)

Section InferredNorbBounds.

Context {C : Type}.

Lemma infer_norb_fold_upper (l : list (FermionOperator C)) (n : nat) :
  fold_left infer_norb_step l n
  <= Nat.max n (fold_right Nat.max 0 (map block_requirement l)) + List.length l.
Proof.
  revert n. induction l as [|sub l IH]; intros n; cbn [fold_left map fold_right List.length].
  - lia.
  - specialize (IH (infer_norb_step n sub)).
    assert (Hstep : infer_norb_step n sub = Nat.max (n + 1) (block_requirement sub)).
    { unfold infer_norb_step, block_requirement.
      destruct (largest_operator_index sub). reflexivity. }
    lia.
Qed.

(** X17.  The orbital count of lines 74-77 is at least the block requirement
    of every rank and at least the number of ranks, and it exceeds the
    largest block requirement by at most the number of ranks. *)
Theorem infer_norb_bounds (ops_rank : list (nat * FermionOperator C)) :
  max_block_requirement ops_rank <= infer_norb ops_rank
  /\ List.length ops_rank <= infer_norb ops_rank
  /\ infer_norb ops_rank <= max_block_requirement ops_rank + List.length ops_rank.
Proof.
  split; [apply infer_norb_ge_requirement|]. split; [apply infer_norb_ge_ranks|].
  unfold infer_norb, max_block_requirement.
  pose proof (infer_norb_fold_upper (map snd ops_rank) 0) as Hup.
  rewrite map_map, length_map in Hup. cbn [Nat.max] in Hup. exact Hup.
Qed.

End InferredNorbBounds.

(* ================================================================== *)
(** ** Several ranks: the general representation *)

Section SeveralRanks.

Context {C : Type} `{Scalar C} `{Collaborators C}.

Lemma split_loop_accepts (entries : FermionOperator C) split e_0 split' e_0' :
  split_loop entries split e_0 = Ok (split', e_0') ->
  forall e, In e entries ->
    issmall (snd e) = false /\ Nat.even (List.length (fst e)) = true.
Proof.
  revert split e_0.
  induction entries as [|[t c] entries IH]; intros split e_0 Hrun e He; [destruct He|].
  cbn [split_loop] in Hrun. rewrite many_body_order_single in Hrun.
  destruct (issmall c) eqn:Hc; [discriminate|]. cbn [rbind] in Hrun.
  rewrite truthy_mod2_odd in Hrun.
  destruct (Nat.odd (List.length t)) eqn:Hodd; [discriminate|].
  destruct He as [<-|He].
  - cbn [fst snd]. split; [exact Hc|]. rewrite <- Nat.negb_odd, Hodd. reflexivity.
  - destruct (List.length t =? 0).
    + destruct (constant_coefficient [(t, c)]); [|discriminate].
      cbn [rbind] in Hrun. apply (IH _ _ Hrun e He).
    + destruct (rank_lookup split (List.length t)); apply (IH _ _ Hrun e He).
Qed.

Lemma In_rank_lookup {V} (d : list (nat * V)) k v :
  NoDup (map fst d) -> In (k, v) d -> rank_lookup d k = Some v.
Proof.
  induction d as [|[k' v'] d IH]; intros Hnd Hin; [destruct Hin|].
  cbn [map fst] in Hnd. inversion Hnd as [|? ? Hnotin Hnd']; subst.
  cbn [rank_lookup]. destruct Hin as [Heq|Hin].
  - inversion Heq; subst. rewrite Nat.eqb_refl. reflexivity.
  - destruct (Nat.eqb_spec k' k) as [->|Hne]; [|apply IH; assumption].
    exfalso. apply Hnotin. apply (in_map fst _ _ Hin).
Qed.

Lemma build_tensors_Ok (ops_rank : list (nat * FermionOperator C)) norb ops_mat :
  (forall r sub, In (r, sub) ops_rank ->
     exists tensor, fermionops_tomatrix sub norb = Ok tensor) ->
  exists ops_mat', build_tensors ops_rank norb ops_mat = Ok ops_mat'.
Proof.
  revert ops_mat. induction ops_rank as [|[r sub] ops_rank IH]; intros ops_mat Hall.
  - eexists; reflexivity.
  - cbn [build_tensors].
    destruct (Hall r sub (or_introl eq_refl)) as [tensor ->]. cbn [rbind].
    apply IH. intros r' sub' Hin. apply (Hall r' sub'). right; exact Hin.
Qed.

Lemma build_tensors_keys (ops_rank : list (nat * FermionOperator C)) norb
    ops_mat ops_mat' :
  build_tensors ops_rank norb ops_mat = Ok ops_mat' ->
  NoDup (map fst ops_mat ++ map fst ops_rank) ->
  map fst ops_mat' = map fst ops_mat ++ map fst ops_rank.
Proof.
  revert ops_mat. induction ops_rank as [|[r sub] ops_rank IH]; intros ops_mat Hrun Hnd.
  - inversion Hrun; subst. cbn [map]. rewrite List.app_nil_r. reflexivity.
  - cbn [build_tensors] in Hrun. apply rbind_Ok in Hrun as (tensor & _ & Hrun).
    cbn [map fst] in Hnd |- *.
    assert (Hfresh : rank_mem ops_mat r = false).
    { unfold rank_mem. destruct (rank_lookup ops_mat r) eqn:Hl; [|reflexivity].
      exfalso. apply NoDup_remove_2 in Hnd. apply Hnd.
      apply in_or_app. left. apply rank_lookup_In in Hl. apply (in_map fst _ _ Hl). }
    assert (Hkeys : map fst (rank_set ops_mat r tensor) = map fst ops_mat ++ [r]).
    { rewrite rank_set_keys, Hfresh. reflexivity. }
    rewrite (IH _ Hrun); rewrite Hkeys, <- List.app_assoc; [reflexivity|exact Hnd].
Qed.

Lemma build_tensors_lookup (ops_rank : list (nat * FermionOperator C)) norb
    ops_mat ops_mat' i :
  build_tensors ops_rank norb ops_mat = Ok ops_mat' ->
  NoDup (map fst ops_rank) ->
  rank_lookup ops_mat' i
  = match rank_lookup ops_rank i with
    | Some sub =>
        match fermionops_tomatrix sub norb with
        | Ok tensor => Some tensor
        | Raise _ => None
        end
    | None => rank_lookup ops_mat i
    end.
Proof.
  revert ops_mat. induction ops_rank as [|[r sub] ops_rank IH]; intros ops_mat Hrun Hnd.
  - inversion Hrun; subst. reflexivity.
  - cbn [build_tensors] in Hrun. apply rbind_Ok in Hrun as (tensor & Htensor & Hrun).
    cbn [map fst] in Hnd. inversion Hnd as [|? ? Hnotin Hnd']; subst.
    rewrite (IH _ Hrun Hnd'). cbn [rank_lookup].
    destruct (Nat.eqb_spec r i) as [->|Hne].
    + apply rank_lookup_None in Hnotin. rewrite Hnotin, Htensor, rank_lookup_set.
      rewrite Nat.eqb_refl. reflexivity.
    + destruct (rank_lookup ops_rank i); [reflexivity|].
      rewrite rank_lookup_set. destruct (Nat.eqb_spec i r); [congruence|reflexivity].
Qed.

(** The builder on a sub-expression of one even rank in canonical order *)
Lemma fermionops_tomatrix_canonical (sub : FermionOperator C) norb rank :
  many_body_order sub = Ok rank -> Nat.even rank = true ->
  (forall e, In e sub ->
     List.length (fst e) = rank /\ canonical_order rank (fst e)) ->
  0 < norb -> alpha_blocks sub <= norb -> beta_blocks sub <= norb ->
  exists tensor,
    fermionops_tomatrix sub norb = Ok tensor
    /\ shape tensor = repeat (2 * norb) rank.
Proof.
  intros Hmbo Hev Hterms Hpos Ha Hb.
  assert (Hloop : exists tensor,
             term_loop sub rank norb (repeat 0 rank) (zeros (repeat (2 * norb) rank))
             = Ok tensor).
  { pose proof (@term_loop_on_expression C _ sub rank norb
                  (fun e He => proj1 (Hterms e He)) Ha Hb) as Hcase.
    assert (Hall : forallb (fun e => canonical_orderb rank (fst e)) sub = true).
    { apply forallb_forall. intros e He. destruct (Hterms e He) as [Hl Hc].
      apply (@canonical_orderb_spec rank (fst e) Hl). exact Hc. }
    rewrite Hall in Hcase. exact Hcase. }
  destruct Hloop as [tensor Hloop]. exists tensor.
  assert (Hrun : fermionops_tomatrix sub norb = Ok tensor).
  { unfold fermionops_tomatrix.
    assert (Ht : truthy norb = true) by (unfold truthy; destruct norb; [lia|reflexivity]).
    apply Nat.ltb_ge in Ha. apply Nat.ltb_ge in Hb. rewrite Ht, Ha, Hb. cbn [rbind].
    rewrite Hmbo. cbn [rbind]. rewrite (even_not_truthy_mod _ Hev).
    assert (Hhalf : 2 * norb / 2 = norb).
    { rewrite (Nat.mul_comm 2 norb). apply Nat.div_mul. lia. }
    rewrite Hhalf. exact Hloop. }
  split; [exact Hrun|].
  apply term_loop_Ok in Hloop. destruct Hloop as [Hs _]. exact Hs.
Qed.

(** Each sub-expression the splitter returns for an expression with distinct
    terms in canonical order is turned into a tensor of [2 * norb] positions
    per axis by the builder, for the orbital count the factory infers. *)
Lemma split_parts_built (ops' : FermionOperator C) ops_rank offset :
  NoDup (map fst ops') ->
  split_openfermion_tensor ops' = Ok (ops_rank, offset) ->
  (forall e, In e ops' -> canonical_order (List.length (fst e)) (fst e)) ->
  NoDup (map fst ops_rank)
  /\ forall r sub, In (r, sub) ops_rank ->
       0 < infer_norb ops_rank
       /\ exists tensor,
            fermionops_tomatrix sub (infer_norb ops_rank) = Ok tensor
            /\ shape tensor = repeat (2 * infer_norb ops_rank) r
            /\ well_formed tensor.
Proof.
  intros Hnd Hsplit Hcanon.
  set (n := infer_norb ops_rank).
  destruct (split_loop_keys _ _ _ Hsplit (NoDup_nil _)) as [Hkeys Hkey].
  split; [exact Hkeys|].
  pose proof (split_loop_accepts _ _ _ Hsplit) as Hgood.
  destruct (@split_loop_by_rank C _ ops' [] zero Hnd Hgood ltac:(intros r op e []))
    as [split' [Hrun Hlook]].
  pose proof (eq_trans (eq_sym Hrun) Hsplit) as Heq.
  assert (Hsame_split : split' = ops_rank) by congruence.
  subst split'. clear Heq Hrun.
  intros r sub Hin.
  destruct (Hkey r (in_map fst _ _ Hin)) as [[]|(Hnz & Hev & _)].
  pose proof (In_rank_lookup _ _ _ Hkeys Hin) as Hl.
  rewrite (Hlook r ltac:(lia)) in Hl. cbn [rank_lookup] in Hl.
  assert (Hentries : sub = rank_entries r ops').
  { destruct (rank_entries r ops'); [discriminate|congruence]. }
  destruct (@split_openfermion_tensor_single_rank C _ ops' ops_rank offset r sub
              Hnd Hsplit Hin) as [Hmbo Hlens].
  destruct (infer_norb_covers _ _ _ Hin) as (Hpos & Ha & Hb).
  split; [exact Hpos|].
  destruct (@fermionops_tomatrix_canonical sub n r Hmbo Hev) as [tensor [Hrun Hshape]];
    try assumption.
  { intros e He. split; [apply Hlens; exact He|].
    rewrite <- (Hlens e He). apply Hcanon.
    rewrite Hentries in He. apply filter_In in He. tauto. }
  exists tensor. split; [exact Hrun|]. split; [exact Hshape|].
  destruct (fermionops_tomatrix_Ok _ _ Hrun) as (_ & _ & _ & _ & _ & Hwf). exact Hwf.
Qed.

(** X18.  A Hermitian expression of more than two entries whose
    normal-ordered form has distinct terms, all in canonical order, and
    splits into several ranks (or into none) is returned as General, with
    nothing printed: its tensors for the ranks 2, 4, 6 and 8 are those the
    tensor builder returns for the sub-expressions, zeros for a rank
    without terms, each with [2 * norb] positions on every axis for the
    orbital count the factory infers, and its offset is the one the
    splitter returns. *)
Theorem several_ranks_give_General (ops : FermionOperator C) norb cn e_0
    ops' ops_rank offset :
  is_hermitian ops = true -> 2 < List.length ops ->
  prepare ops cn = Ok ops' -> NoDup (map fst ops') ->
  split_openfermion_tensor ops' = Ok (ops_rank, offset) ->
  List.length ops_rank <> 1 ->
  (forall e, In e ops' -> canonical_order (List.length (fst e)) (fst e)) ->
  build_hamiltonian (InFermionOperator ops) norb cn e_0
  = ([], Ok (General (map (built_or_zeros ops_rank (infer_norb ops_rank)) [2; 4; 6; 8])
                     cn offset))
  /\ map (@shape C) (map (built_or_zeros ops_rank (infer_norb ops_rank)) [2; 4; 6; 8])
     = map (repeat (2 * infer_norb ops_rank)) [2; 4; 6; 8].
Proof.
  intros Hherm Hlen Hprep Hnd Hsplit Hranks Hcanon.
  destruct (@split_parts_built ops' ops_rank offset Hnd Hsplit Hcanon)
    as [Hkeys Hparts].
  set (n := infer_norb ops_rank) in *.
  assert (Hsub : forall r sub, In (r, sub) ops_rank ->
            exists tensor, fermionops_tomatrix sub n = Ok tensor
                           /\ shape tensor = repeat (2 * n) r).
  { intros r sub Hin. destruct (Hparts r sub Hin) as [_ [tensor [Ht [Hs _]]]].
    exists tensor. split; assumption. }
  destruct (@build_tensors_Ok ops_rank n []) as [ops_mat Hbuild].
  { intros r sub Hin. destruct (Hsub r sub Hin) as [tensor [Ht _]].
    exists tensor. exact Ht. }
  assert (Hsame : map (tensor_or_zeros ops_mat n) [2; 4; 6; 8]
                  = map (built_or_zeros ops_rank n) [2; 4; 6; 8]).
  { apply map_ext. intros i. unfold tensor_or_zeros, built_or_zeros.
    rewrite (build_tensors_lookup _ _ _ i Hbuild Hkeys). cbn [rank_lookup].
    destruct (rank_lookup ops_rank i); [|reflexivity].
    destruct (fermionops_tomatrix f n); reflexivity. }
  split.
  - rewrite (@build_hamiltonian_dense C _ _ ops norb cn e_0 Hherm Hlen).
    unfold dense_pipeline.
    rewrite (io_bind_lift_eq _ Hprep).
    rewrite (io_bind_lift_eq _ (a := (ops_rank, offset)) Hsplit). cbn [fst snd]. fold n.
    rewrite (io_bind_lift_eq _ Hbuild).
    unfold select_representation.
    assert (Hlenmat : List.length ops_mat = List.length ops_rank).
    { rewrite <- (length_map fst ops_mat), <- (length_map fst ops_rank).
      rewrite (build_tensors_keys _ _ _ Hbuild); [reflexivity|exact Hkeys]. }
    rewrite Hlenmat. destruct (Nat.eqb_spec (List.length ops_rank) 1); [contradiction|].
    rewrite general_fallback_eq, Hsame. reflexivity.
  - rewrite !map_map. apply map_ext_in. intros i Hi. unfold built_or_zeros.
    destruct (rank_lookup ops_rank i) as [sub|] eqn:Hl; [|reflexivity].
    apply rank_lookup_In in Hl.
    destruct (Hsub i sub Hl) as [tensor [-> Hshape]]. exact Hshape.
Qed.

(** X23.  A Hermitian expression of more than two entries whose
    normal-ordered form has distinct terms in canonical order and splits
    into rank 2 alone is handed to the rank-2 classifier: the factory
    returns what the classifier returns for the matrix of the tensor
    builder, which has [2 * norb] rows and columns for the orbital count
    [norb >= 1] the factory infers and passes on, and for the offset of the
    splitter. *)
Theorem rank2_alone_goes_to_classifier (ops : FermionOperator C) norb cn e_0
    ops' sub offset :
  is_hermitian ops = true -> 2 < List.length ops ->
  prepare ops cn = Ok ops' -> NoDup (map fst ops') ->
  split_openfermion_tensor ops' = Ok ([(2, sub)], offset) ->
  (forall e, In e ops' -> canonical_order (List.length (fst e)) (fst e)) ->
  exists mat,
    fermionops_tomatrix sub (infer_norb [(2, sub)]) = Ok mat
    /\ 0 < infer_norb [(2, sub)]
    /\ shape mat = [2 * infer_norb [(2, sub)]; 2 * infer_norb [(2, sub)]]
    /\ well_formed mat
    /\ build_hamiltonian (InFermionOperator ops) norb cn e_0
       = process_rank2_matrix mat (infer_norb [(2, sub)]) cn offset.
Proof.
  intros Hherm Hlen Hprep Hnd Hsplit Hcanon.
  destruct (@split_parts_built ops' [(2, sub)] offset Hnd Hsplit Hcanon)
    as [_ Hparts].
  destruct (Hparts 2 sub (or_introl eq_refl)) as [Hpos [mat [Hmat [Hshape Hwf]]]].
  exists mat. repeat (split; [assumption|]).
  rewrite (@build_hamiltonian_dense C _ _ ops norb cn e_0 Hherm Hlen).
  unfold dense_pipeline.
  rewrite (io_bind_lift_eq _ Hprep).
  rewrite (io_bind_lift_eq _ (a := ([(2, sub)], offset)) Hsplit). cbn [fst snd].
  cbn [build_tensors]. rewrite Hmat. cbn [rbind rank_set].
  rewrite (io_bind_lift_eq _ (a := [(2, mat)]) eq_refl).
  reflexivity.
Qed.

End SeveralRanks.

Lemma rank2_alone_goes_to_classifier_witness :
  exists mat,
    fermionops_tomatrix ops_hopping (infer_norb [(2, ops_hopping)]) = Ok mat
    /\ 0 < infer_norb [(2, ops_hopping)]
    /\ shape mat = [2 * infer_norb [(2, ops_hopping)]; 2 * infer_norb [(2, ops_hopping)]]
    /\ well_formed mat
    /\ build_hamiltonian (InFermionOperator ops_hopping) 0 true zero
       = process_rank2_matrix mat (infer_norb [(2, ops_hopping)]) true zero.
Proof.
  apply (@rank2_alone_goes_to_classifier _ _ _ ops_hopping 0 true zero ops_hopping).
  - reflexivity.
  - simpl. lia.
  - reflexivity.
  - repeat constructor; simpl; intuition discriminate.
  - reflexivity.
  - intros e He. simpl in He.
    destruct He as [<-|[<-|[<-|[]]]]; apply canonical_orderb_spec; reflexivity.
Defined.

Lemma several_ranks_give_General_witness :
  build_hamiltonian (InFermionOperator ops_two_ranks) 0 true (5%Z, 3%Z)
  = ([], Ok (General
               (map (built_or_zeros [(2, [(n0, one); (n1, one)]); (4, [(n1n0, one)])]
                       (infer_norb [(2, [(n0, one); (n1, one)]); (4, [(n1n0, one)])]))
                    [2; 4; 6; 8])
               true zero))
  /\ map (@shape Gauss.t)
         (map (built_or_zeros [(2, [(n0, one); (n1, one)]); (4, [(n1n0, one)])]
                 (infer_norb [(2, [(n0, one); (n1, one)]); (4, [(n1n0, one)])]))
              [2; 4; 6; 8])
     = map (repeat (2 * infer_norb [(2, [(n0, one); (n1, one)]); (4, [(n1n0, one)])]))
           [2; 4; 6; 8].
Proof.
  apply (@several_ranks_give_General _ _ _ ops_two_ranks 0 true (5%Z, 3%Z)
           ops_two_ranks).
  - reflexivity.
  - simpl. lia.
  - reflexivity.
  - repeat constructor; simpl; intuition discriminate.
  - reflexivity.
  - simpl. lia.
  - intros e He. simpl in He.
    destruct He as [<-|[<-|[<-|[]]]]; apply canonical_orderb_spec; reflexivity.
Defined.

(* ================================================================== *)
(** ** The decorators *)

Section DecoratorFacts.

Context {C : Type} `{Scalar C} `{Collaborators C}.

Context (Wavefunction R T A Acc Lim : Type).
Context (self_conserve_number : Wavefunction -> bool).
Context (apply : Wavefunction -> Hamiltonian C -> io C R).
Context (time_evolve : Wavefunction -> T -> Hamiltonian C -> io C R).
Context (apply_generated_unitary :
           Wavefunction -> T -> A -> Hamiltonian C -> Acc -> nat -> option Lim
           -> io C R).

Lemma io_bind_ret {X Y} (x : X) (k : X -> io C Y) : io_bind (io_ret x) k = k x.
Proof. unfold io_bind, io_ret. destruct (k x). reflexivity. Qed.

(** X19.  What a decorated method is called with.  A representation given
    as [ops] reaches the method as it is.  A Hermitian expression of at most
    two entries reaches it as a sparse representation with orbital count 0
    and offset 0, the defaults of the factory, and the number-conservation
    flag of the wavefunction: the decorators pass no orbital count and no
    offset on. *)
Theorem decorators_forward (self : Wavefunction) (time : T) (algo : A)
    (accuracy : Acc) (expansion : nat) (spec_lim : option Lim) :
  (forall h,
     wrap_apply self_conserve_number apply self (InHamiltonian h) = apply self h
     /\ wrap_time_evolve self_conserve_number time_evolve self time (InHamiltonian h)
        = time_evolve self time h
     /\ wrap_apply_generated_unitary self_conserve_number apply_generated_unitary
          self time algo (InHamiltonian h) accuracy expansion spec_lim
        = apply_generated_unitary self time algo h accuracy expansion spec_lim)
  /\ (forall ops,
        is_hermitian ops = true -> List.length ops <= 2 ->
        let hamil := SparseHamiltonian 0 ops (self_conserve_number self) zero in
        wrap_apply self_conserve_number apply self (InFermionOperator ops)
        = apply self hamil
        /\ wrap_time_evolve self_conserve_number time_evolve self time
             (InFermionOperator ops)
           = time_evolve self time hamil
        /\ wrap_apply_generated_unitary self_conserve_number apply_generated_unitary
             self time algo (InFermionOperator ops) accuracy expansion spec_lim
           = apply_generated_unitary self time algo hamil accuracy expansion spec_lim).
Proof.
  split.
  - intros h. unfold wrap_apply, wrap_time_evolve, wrap_apply_generated_unitary.
    cbn [build_hamiltonian]. rewrite !io_bind_ret. repeat split.
  - intros ops Hherm Hlen hamil.
    unfold wrap_apply, wrap_time_evolve, wrap_apply_generated_unitary.
    cbn [build_hamiltonian]. rewrite Hherm. cbn [negb].
    apply Nat.leb_le in Hlen. rewrite Hlen. rewrite !io_bind_ret. repeat split.
Qed.

(** X20.  When the factory raises on [ops], a decorated method raises the
    same exception after the same output, and the method it wraps is not
    run: nothing the method would print or return appears. *)
Theorem decorators_propagate_errors (self : Wavefunction) (time : T) (algo : A)
    (accuracy : Acc) (expansion : nat) (spec_lim : option Lim)
    (ops : input C) out e :
  build_hamiltonian ops 0 (self_conserve_number self) zero = (out, Raise e) ->
  wrap_apply self_conserve_number apply self ops = (out, Raise e)
  /\ wrap_time_evolve self_conserve_number time_evolve self time ops = (out, Raise e)
  /\ wrap_apply_generated_unitary self_conserve_number apply_generated_unitary
       self time algo ops accuracy expansion spec_lim
     = (out, Raise e).
Proof.
  intros Hbuild. unfold wrap_apply, wrap_time_evolve, wrap_apply_generated_unitary.
  rewrite Hbuild. repeat split.
Qed.

End DecoratorFacts.

Lemma decorators_forward_witness :
  wrap_apply (fun self : bool => self) (fun _ hamil => io_ret hamil) false
    (InFermionOperator [(n0, one); (n1, one)])
  = ([], Ok (SparseHamiltonian 0 [(n0, one); (n1, one)] false zero)).
Proof.
  apply (proj2 (@decorators_forward Gauss.t _ _ bool (Hamiltonian Gauss.t) unit unit
                  unit unit (fun self => self) (fun _ hamil => io_ret hamil)
                  (fun _ _ hamil => io_ret hamil)
                  (fun _ _ _ hamil _ _ _ => io_ret hamil)
                  false tt tt tt 30 None)
               [(n0, one); (n1, one)]).
  - reflexivity.
  - simpl. lia.
Defined.

Lemma decorators_propagate_errors_witness :
  wrap_apply (fun self : bool => self)
    (fun _ hamil => (io_ret hamil : io Gauss.t (Hamiltonian Gauss.t))) true
    (InOther "<class 'int'>")
  = ([], Raise (TypeError ["Expected FermionOperator but received <class 'int'>."%string])).
Proof.
  apply (@decorators_propagate_errors Gauss.t _ _ bool (Hamiltonian Gauss.t) unit unit
           unit unit (fun self => self) (fun _ hamil => io_ret hamil)
           (fun _ _ hamil => io_ret hamil)
           (fun _ _ _ hamil _ _ _ => io_ret hamil)
           true tt tt tt 30 None (InOther "<class 'int'>")).
  reflexivity.
Defined.

(* ================================================================== *)
(** ** What every successful call of the factory has in common *)

Section FactoryInvariants.

Context {C : Type} `{Scalar C} `{Collaborators C}.

Lemma process_rank2_matrix_quiet (mat : ndarray C) norb cn e0 out h :
  process_rank2_matrix mat norb cn e0 = (out, Ok h) ->
  out = [] /\ conserve_number_of h = Some cn.
Proof.
  unfold process_rank2_matrix. intros Hr.
  apply io_bind_lift_Ok in Hr as [herm [_ Hr]].
  destruct herm; simpl negb in Hr; cbv iota in Hr.
  - apply io_bind_lift_Ok in Hr as [diag [_ Hr]].
    destruct diag; [inversion Hr; split; reflexivity|].
    destruct (any _); [inversion Hr; split; reflexivity|].
    apply io_bind_lift_Ok in Hr as [same [_ Hr]].
    destruct same; [inversion Hr; split; reflexivity|].
    apply io_bind_lift_Ok in Hr as [s1 [_ Hr]].
    apply io_bind_lift_Ok in Hr as [s2 [_ Hr]].
    inversion Hr; split; reflexivity.
  - apply io_bind_lift_Ok in Hr as [diff [_ Hr]].
    apply io_bind_lift_Ok in Hr as [k [_ Hr]].
    simpl in Hr.
    destruct (get mat _); simpl in Hr; [|discriminate].
    destruct (get mat _); simpl in Hr; discriminate.
Qed.

Lemma select_representation_quiet ops_mat norb cn e0 out (h : Hamiltonian C) :
  select_representation ops_mat norb cn e0 = (out, Ok h) ->
  out = []
  /\ (conserve_number_of h = Some cn
      \/ exists tensor, h = DiagonalCoulomb tensor e0).
Proof.
  unfold select_representation, io_lift, io_ret, io_raise. intros Hr.
  assert (Hg : forall r, ([] : list (printed C), r) = (out, Ok h) ->
                         r = general_fallback ops_mat norb cn e0 ->
                         out = []
                         /\ (conserve_number_of h = Some cn
                             \/ exists tensor, h = DiagonalCoulomb tensor e0)).
  { intros r Heq ->. inversion Heq as [[Ho Hh]].
    apply general_fallback_General in Hh as [ts ->]. split; [|left]; reflexivity. }
  destruct (List.length ops_mat =? 1); [|eapply Hg; eauto].
  destruct (rank_lookup ops_mat 2) as [m2|].
  { apply process_rank2_matrix_quiet in Hr. tauto. }
  destruct (rank_lookup ops_mat 4) as [m4|]; [|eapply Hg; eauto].
  destruct (check_diagonal_coulomb m4) as [[|]|e]; try discriminate.
  - inversion Hr; subst. split; [reflexivity|]. right. eexists; reflexivity.
  - eapply Hg; eauto.
Qed.

Lemma build_hamiltonian_success (ops : input C) norb cn e_0 out h :
  build_hamiltonian ops norb cn e_0 = (out, Ok h) ->
  out = []
  /\ ((exists h0, ops = InHamiltonian h0)
      \/ conserve_number_of h = Some cn
      \/ exists tensor offset, h = DiagonalCoulomb tensor offset).
Proof.
  destruct ops as [h0|t|ops|name]; cbn [build_hamiltonian]; intros Hr.
  - inversion Hr; subst. split; [reflexivity|]. left. eexists; reflexivity.
  - apply io_bind_lift_Ok in Hr as [[] [_ Hr]]. inversion Hr; subst.
    split; [reflexivity|]. right; left; reflexivity.
  - destruct (negb (is_hermitian ops)); [discriminate|].
    destruct (List.length ops <=? 2).
    + inversion Hr; subst. split; [reflexivity|]. right; left; reflexivity.
    + apply dense_pipeline_Ok in Hr.
      destruct Hr as (ops' & ops_rank & offset & ops_mat & _ & _ & _ & Hsel).
      apply select_representation_quiet in Hsel. destruct Hsel as [-> [Hcn|[tensor ->]]].
      * split; [reflexivity|]. right; left; exact Hcn.
      * split; [reflexivity|]. right; right. eexists; eexists; reflexivity.
  - discriminate.
Qed.

(** X21.  A call of the factory that returns a representation has printed
    nothing: the two lines of diagnostics of the rank-2 classifier are only
    ever written on the way to its ValueError. *)
Theorem build_hamiltonian_quiet_on_success (ops : input C) norb cn e_0 out h :
  build_hamiltonian ops norb cn e_0 = (out, Ok h) -> out = [].
Proof.
  intros Hr. apply build_hamiltonian_success in Hr. tauto.
Qed.

(** X22.  Whatever the factory constructs from an expression or from a
    tuple of arrays carries the number-conservation flag of the call, with
    one exception: DiagonalCoulomb is constructed from the tensor and the
    offset alone. *)
Theorem build_hamiltonian_keeps_conserve_number (ops : input C) norb cn e_0 out h :
  (forall h0, ops <> InHamiltonian h0) ->
  build_hamiltonian ops norb cn e_0 = (out, Ok h) ->
  conserve_number_of h = Some cn
  \/ exists tensor offset, h = DiagonalCoulomb tensor offset.
Proof.
  intros Hnot Hr. apply build_hamiltonian_success in Hr.
  destruct Hr as [_ [[h0 Heq]|Hr]]; [exfalso; exact (Hnot h0 Heq)|exact Hr].
Qed.

End FactoryInvariants.

Lemma build_hamiltonian_quiet_on_success_witness :
  build_hamiltonian (InFermionOperator ops_const_n0_n1) 0 true zero
  = ([], Ok (Diagonal (mk_ndarray [2] [one; one]) true one))
  /\ ([] : list (printed Gauss.t)) = [].
Proof.
  split; [reflexivity|].
  apply (@build_hamiltonian_quiet_on_success _ _ _
           (InFermionOperator ops_const_n0_n1) 0 true zero []
           (Diagonal (mk_ndarray [2] [one; one]) true one)).
  reflexivity.
Defined.

Lemma build_hamiltonian_keeps_conserve_number_witness :
  build_hamiltonian (InFermionOperator ops_const_n0_n1) 0 true zero
  = ([], Ok (Diagonal (mk_ndarray [2] [one; one]) true one))
  /\ (conserve_number_of (Diagonal (mk_ndarray [2] [one; one]) true one) = Some true
      \/ exists tensor offset,
           Diagonal (mk_ndarray [2] [one; one]) true one
           = DiagonalCoulomb tensor offset).
Proof.
  split; [reflexivity|].
  apply (@build_hamiltonian_keeps_conserve_number _ _ _
           (InFermionOperator ops_const_n0_n1) 0 true zero []).
  - intros h0. discriminate.
  - reflexivity.
Defined.

(* ================================================================== *)
(** ** Which terms fill the coupling quadrant of the rank-2 matrix *)

Section SpinCoupling.

Context {C : Type} `{Scalar C}.

Lemma fermionops_tomatrix_roles (ops : FermionOperator C) norb rank tensor :
  (forall e, In e ops -> List.length (fst e) = rank) ->
  ops <> [] ->
  fermionops_tomatrix ops norb = Ok tensor ->
  forall e, In e ops -> canonical_order rank (fst e).
Proof.
  intros Hlen Hne Hrun.
  destruct (fermionops_tomatrix_run _ _ Hrun) as (Ha & Hb & Hdim & r & Hmbo & _ & Hloop).
  rewrite (many_body_order_single_rank Hne Hlen Hmbo) in Hloop.
  pose proof (@term_loop_on_expression C _ ops rank (axis_length ops norb / 2)
                Hlen Ha Hb) as Hcanon.
  rewrite Hdim in Hcanon.
  destruct (forallb (fun e => canonical_orderb rank (fst e)) ops) eqn:Hall;
    [clear Hcanon | destruct Hcanon as [e [He _]]; congruence].
  rewrite forallb_forall in Hall.
  intros e He. apply canonical_orderb_spec; [apply Hlen; exact He|apply Hall; exact He].
Qed.

(** X24.  In the matrix built with an orbital count [norb] from distinct
    rank-2 terms, the quadrant the classifier tests for GSO (rows
    [norb:2*norb], columns [0:norb]) has a non-zero entry exactly when some
    term with a non-zero coefficient creates a beta (odd) orbital and
    annihilates an alpha (even) one.  The coefficient type is taken to
    compare its zero equal to [0. + 0.j]. *)
Theorem coupling_quadrant_holds_spin_flips (sub : FermionOperator C) norb mat :
  nonzero (zero : C) = false ->
  0 < norb ->
  NoDup (map fst sub) ->
  sub <> [] ->
  (forall e, In e sub -> List.length (fst e) = 2) ->
  fermionops_tomatrix sub norb = Ok mat ->
  (coupling_nonzero mat norb
   <-> exists p q c,
         In ([(p, true); (q, false)], c) sub
         /\ Nat.odd p = true /\ Nat.even q = true /\ nonzero c = true).
Proof.
  intros Hzero Hpos Hnd Hne Hlen Hrun.
  destruct (@fermionops_tomatrix_placement C _ sub norb 2 mat Hnd Hlen Hrun)
    as [Hterm Hother].
  pose proof (@fermionops_tomatrix_roles sub norb 2 mat Hlen Hne Hrun) as Hroles.
  destruct (fermionops_tomatrix_run _ _ Hrun) as (Ha & Hb & _ & r & Hmbo & _ & Hloop).
  rewrite (many_body_order_single_rank Hne Hlen Hmbo) in Hloop.
  apply term_loop_Ok in Hloop. destruct Hloop as [Hs Hw].
  specialize (Hw (zeros_well_formed _)). cbn [zeros shape repeat] in Hs.
  assert (Haxis : axis_length sub norb = 2 * norb).
  { unfold axis_length, truthy. destruct (Nat.eqb_spec norb 0); [lia|reflexivity]. }
  assert (Hhalf : axis_length sub norb / 2 = norb).
  { rewrite Haxis, (Nat.mul_comm 2 norb). apply Nat.div_mul. lia. }
  rewrite Hhalf in *. rewrite Haxis in Hs.
  assert (Hshape : forall t c, In (t, c) sub ->
            exists p q, t = [(p, true); (q, false)] /\ p / 2 < norb /\ q / 2 < norb).
  { intros t c Hin. pose proof (Hlen _ Hin) as Hl. pose proof (Hroles _ Hin) as Hr.
    cbn [fst] in Hl, Hr.
    destruct t as [|[p a] [|[q b] [|? ?]]]; try discriminate.
    destruct (Hr 0 (p, a) eq_refl) as [Hcre _].
    destruct (Hr 1 (q, b) eq_refl) as [_ Hann].
    cbn [snd] in Hcre, Hann. change (2 / 2) with 1 in Hcre, Hann.
    rewrite (Hcre ltac:(lia)), (Hann ltac:(lia)).
    exists p, q. split; [reflexivity|]. split.
    - apply (@index_half_lt C sub _ c (p, a) norb Hin ltac:(left; reflexivity) Ha Hb).
    - apply (@index_half_lt C sub _ c (q, b) norb Hin
               ltac:(right; left; reflexivity) Ha Hb). }
  split.
  - intros (i & j & Hi & Hj & Hnz).
    pose proof (@get_matrix C _ mat _ _ i j Hs Hw ltac:(lia) ltac:(lia)) as Hget.
    destruct (in_dec (list_eq_dec Nat.eq_dec) [i; j]
                (map (coordinates norb) (map fst sub))) as [Hin|Hnot].
    + apply in_map_iff in Hin. destruct Hin as [t [Hcoord Ht]].
      apply in_map_iff in Ht. destruct Ht as [[t' c] [Heq Hin]].
      cbn [fst] in Heq. subst t'.
      destruct (Hshape t c Hin) as (p & q & -> & Hp & Hq).
      pose proof (Hterm _ _ Hin) as Hc. rewrite Hcoord, Hget in Hc.
      assert (Hval : at2 mat i j = c) by congruence. rewrite Hval in Hnz.
      cbn [coordinates map fst] in Hcoord.
      assert (Hbi : blocked_index p norb = i) by congruence.
      assert (Hbj : blocked_index q norb = j) by congruence.
      exists p, q, c. split; [exact Hin|].
      split; [|split; [|exact Hnz]].
      * destruct (blocked_index_cases p norb) as [[_ Hbp]|[Hodd _]]; [lia|exact Hodd].
      * destruct (blocked_index_cases q norb) as [[Hev _]|[_ Hbq]]; [exact Hev|lia].
    + exfalso.
      assert (Hz : at2 mat i j = zero).
      { apply (Hother _ _ Hget). intros t Ht Heq. apply Hnot.
        rewrite Heq. apply in_map. exact Ht. }
      rewrite Hz, Hzero in Hnz. discriminate.
  - intros (p & q & c & Hin & Hodd & Hev & Hnz).
    destruct (Hshape _ c Hin) as (p' & q' & Heq & Hp & Hq).
    inversion Heq; subst p' q'.
    pose proof (Hterm _ _ Hin) as Hc. cbn [coordinates map fst] in Hc.
    assert (Hbp : blocked_index p norb = p / 2 + norb).
    { destruct (blocked_index_cases p norb) as [[Hevp _]|[_ Hbp]]; [|exact Hbp].
      rewrite <- Nat.negb_odd, Hodd in Hevp. discriminate. }
    assert (Hbq : blocked_index q norb = q / 2).
    { destruct (blocked_index_cases q norb) as [[_ Hbq]|[Hoddq _]]; [exact Hbq|].
      rewrite <- Nat.negb_even, Hev in Hoddq. discriminate. }
    rewrite Hbp, Hbq in Hc.
    exists (p / 2 + norb), (q / 2). split; [lia|]. split; [exact Hq|].
    rewrite (@get_matrix C _ mat _ _ (p / 2 + norb) (q / 2) Hs Hw
               ltac:(lia) ltac:(lia)) in Hc.
    assert (Hval : at2 mat (p / 2 + norb) (q / 2) = c) by congruence.
    rewrite Hval. exact Hnz.
Qed.

End SpinCoupling.

Lemma coupling_quadrant_holds_spin_flips_witness :
  fermionops_tomatrix ops_spin_flip 1 = Ok mat_spin_flip
  /\ (coupling_nonzero mat_spin_flip 1
      <-> exists p q c,
            In ([(p, true); (q, false)], c) ops_spin_flip
            /\ Nat.odd p = true /\ Nat.even q = true /\ nonzero c = true).
Proof.
  split; [reflexivity|].
  apply (@coupling_quadrant_holds_spin_flips _ _ ops_spin_flip 1 mat_spin_flip).
  - reflexivity.
  - lia.
  - repeat constructor; simpl; intuition discriminate.
  - discriminate.
  - intros e He. simpl in He. destruct He as [<-|[<-|[]]]; reflexivity.
  - reflexivity.
Defined.
